(** * The pod-IP-pool BGP reconciler (pkg/bgpv1/manager/reconcilerv2/pod_ip_pool.go)

    A shallow embedding of the reconciler that advertises the multi-pool IPAM
    CIDRs of the local node over BGP, with the properties its specification
    states about it.

    Conventions of the embedding:
    - a Go map is a [gomap]: either the nil map or a finite map ([gmap]);
    - a Go [error] result is an [option error] ([None] is nil), a Go pair
      [(v, err)] is a [result];
    - a run-time panic (nil dereference, write to a nil map) is [None] in the
      monads below;
    - the logger is a list of log entries, oldest first;
    - a Go map that is only ranged over and handed in by the caller
      (the peer advertisements) is the list of its entries in the order of
      the iteration, so every statement about one call covers every
      iteration order; a statement about two calls in succession gives the
      second call a list of its own, with the same entries in any order,
      and an order of its own for [range] over the other maps. *)

From stdpp Require Import base option list strings functions gmap fin_maps.

Open Scope string_scope.
Open Scope list_scope.

(** ** Errors *)

Module Errors.

(** The error values the reconciler sees.  [joinError1] and [joinError2] are
    what [errors.Join] builds from one or two non-nil errors, [Errorf_w] is
    [fmt.Errorf] with a wrapping verb. *)
Inductive error : Type :=
  | ErrStoreUninitialized
  | ErrAbortReconcile
  | errors_New (msg : string)
  | Errorf_w (msg : string) (e : error)
  | joinError1 (e : error)
  | joinError2 (e1 e2 : error).

#[global] Instance error_eq_dec : EqDecision error.
Proof. solve_decision. Defined.

(** [errors.Is]: the error itself, or anything it wraps or joins. *)
Fixpoint errors_Is (e target : error) : bool :=
  if decide (e = target) then true
  else match e with
       | Errorf_w _ e' => errors_Is e' target
       | joinError1 e1 => errors_Is e1 target
       | joinError2 e1 e2 => errors_Is e1 target || errors_Is e2 target
       | _ => false
       end.

(** [errors.Join(a, b)]: nil values are dropped, nil when both are nil. *)
Definition errors_Join (a b : option error) : option error :=
  match a, b with
  | None, None => None
  | Some x, None => Some (joinError1 x)
  | None, Some y => Some (joinError1 y)
  | Some x, Some y => Some (joinError2 x y)
  end.

(** A Go result pair [(v, err)]. *)
Inductive result (A : Type) : Type :=
  | Ok (a : A)
  | Err (e : error).
Arguments Ok {A} a.
Arguments Err {A} e.

Definition is_Err {A} (r : result A) : Prop :=
  match r with Err _ => True | Ok _ => False end.

End Errors.
Export Errors.

(** ** Go maps *)

Module GoMap.
Section gomap.
Context {K : Type} `{Countable K} {V : Type}.

(** A value of a Go map type: the nil map, or a reference to a table. *)
Inductive gomap : Type :=
  | GoNil
  | GoMap (m : gmap K V).

(** The entries of the map; the nil map has none. *)
Definition content (m : gomap) : gmap K V :=
  match m with GoNil => ∅ | GoMap t => t end.

(** [len(m)] *)
Definition go_len (m : gomap) : nat := size (content m).

(** [v, ok := m[k]] *)
Definition go_lookup (m : gomap) (k : K) : option V := content m !! k.

(** [m[k] = v]: panics on the nil map. *)
Definition go_store (m : gomap) (k : K) (v : V) : option gomap :=
  match m with GoNil => None | GoMap t => Some (GoMap (<[k:=v]> t)) end.

(** [delete(m, k)]: a no-op on the nil map. *)
Definition go_delete (m : gomap) (k : K) : gomap :=
  match m with GoNil => GoNil | GoMap t => GoMap (delete k t) end.

(** [maps.Clone(m)]: nil stays nil. *)
Definition go_clone (m : gomap) : gomap := m.

Lemma go_len_0 (m : gomap) : go_len m = 0 ↔ content m = ∅.
Proof. unfold go_len. apply map_size_empty_iff. Qed.

Lemma content_go_delete (m : gomap) k : content (go_delete m k) = delete k (content m).
Proof. destruct m; simpl; [by rewrite delete_empty|done]. Qed.

Lemma content_go_store (m m' : gomap) k v :
  go_store m k v = Some m' → content m' = <[k:=v]> (content m).
Proof. destruct m; simpl; [done|]. by intros [= <-]. Qed.
End gomap.
Arguments gomap K {_ _} V.
End GoMap.
Export GoMap.

(** ** Data model *)

(** [resource.Key]: the (name, namespace) identity of a pool. *)
Record Key : Type := mkKey { key_Name : string; key_Namespace : string }.

#[global] Instance Key_eq_dec : EqDecision Key.
Proof. solve_decision. Defined.
#[global] Instance Key_countable : Countable Key.
Proof.
  refine (inj_countable' (λ k, (key_Name k, key_Namespace k))
                         (λ p, mkKey p.1 p.2) _).
  by intros [].
Defined.

(** [netip.Addr]: the zero address, an IPv4 address or an IPv6 address. *)
Inductive Addr : Type :=
  | AddrZero
  | AddrV4 (a : N)
  | AddrV6 (a : N).

#[global] Instance Addr_eq_dec : EqDecision Addr.
Proof. solve_decision. Defined.
#[global] Instance Addr_countable : Countable Addr.
Proof.
  refine (inj_countable'
    (λ a, match a with
          | AddrZero => inl ()
          | AddrV4 n => inr (inl n)
          | AddrV6 n => inr (inr n)
          end)
    (λ s, match s with
          | inl _ => AddrZero
          | inr (inl n) => AddrV4 n
          | inr (inr n) => AddrV6 n
          end) _).
  by intros [].
Defined.

Definition Is4 (a : Addr) : bool := match a with AddrV4 _ => true | _ => false end.
Definition Is6 (a : Addr) : bool := match a with AddrV6 _ => true | _ => false end.

(** [netip.Prefix] *)
Record Prefix : Type := mkPrefix { prefix_Addr : Addr; prefix_Bits : N }.

#[global] Instance Prefix_eq_dec : EqDecision Prefix.
Proof. solve_decision. Defined.
#[global] Instance Prefix_countable : Countable Prefix.
Proof.
  refine (inj_countable' (λ p, (prefix_Addr p, prefix_Bits p))
                         (λ q, mkPrefix q.1 q.2) _).
  by intros [].
Defined.

(** [types.Afi], [types.Safi] and [types.Family] of the agent. *)
Inductive Afi : Type := AfiUnknown | AfiIPv4 | AfiIPv6 | AfiL2VPN | AfiLS | AfiOpaque.
Inductive Safi : Type := SafiUnknown | SafiUnicast | SafiMulticast | SafiOther (n : N).

#[global] Instance Afi_eq_dec : EqDecision Afi.
Proof. solve_decision. Defined.
#[global] Instance Safi_eq_dec : EqDecision Safi.
Proof. solve_decision. Defined.
#[global] Instance Afi_countable : Countable Afi.
Proof.
  refine (inj_countable'
    (λ a, match a with
          | AfiUnknown => 0 | AfiIPv4 => 1 | AfiIPv6 => 2
          | AfiL2VPN => 3 | AfiLS => 4 | AfiOpaque => 5
          end)
    (λ n, match n with
          | 0 => AfiUnknown | 1 => AfiIPv4 | 2 => AfiIPv6
          | 3 => AfiL2VPN | 4 => AfiLS | _ => AfiOpaque
          end) _).
  by intros [].
Defined.
#[global] Instance Safi_countable : Countable Safi.
Proof.
  refine (inj_countable'
    (λ a, match a with
          | SafiUnknown => inl 0 | SafiUnicast => inl 1 | SafiMulticast => inl 2
          | SafiOther n => inr n
          end)
    (λ s, match s with
          | inl 0 => SafiUnknown | inl 1 => SafiUnicast | inl _ => SafiMulticast
          | inr n => SafiOther n
          end) _).
  by intros [].
Defined.

Record Family : Type := mkFamily { fam_Afi : Afi; fam_Safi : Safi }.

#[global] Instance Family_eq_dec : EqDecision Family.
Proof. solve_decision. Defined.
#[global] Instance Family_countable : Countable Family.
Proof.
  refine (inj_countable' (λ f, (fam_Afi f, fam_Safi f))
                         (λ q, mkFamily q.1 q.2) _).
  by intros [].
Defined.

(** [v2.CiliumBGPFamily]: the address family as the configuration spells it. *)
Record CiliumBGPFamily : Type := { cfam_Afi : string; cfam_Safi : string }.

(** [types.Path]: an advertised route, a prefix under an address family. *)
Record Path : Type := mkPath { path_NLRI : Prefix; path_Family : Family }.

#[global] Instance Path_eq_dec : EqDecision Path.
Proof. solve_decision. Defined.

(** [types.RoutePolicyPrefixMatch] *)
Record RoutePolicyPrefixMatch : Type := {
  pm_CIDR : Prefix;
  pm_PrefixLenMin : Z;
  pm_PrefixLenMax : Z;
}.

#[global] Instance RoutePolicyPrefixMatch_eq_dec : EqDecision RoutePolicyPrefixMatch.
Proof. solve_decision. Defined.

(** Modelled from the spec: the declaration of [types.RoutePolicy] is not
    among the sources at hand.  The specification describes a route policy as
    a named, peer- and family-scoped rule of prefix-length bounded CIDR
    matches plus an advertisement-type tag; the reconciler itself only reads
    its [Name]. *)
Record RoutePolicy : Type := {
  rp_Name : string;
  rp_Peer : Addr;
  rp_PrefixMatches : list RoutePolicyPrefixMatch;
  rp_AdvertType : string;
}.

#[global] Instance RoutePolicy_eq_dec : EqDecision RoutePolicy.
Proof. solve_decision. Defined.

(** The four map types of the reconciler.  An [AFPathsMap] is keyed by the
    address family and, under it, by the prefix of the path. *)
Abbreviation RoutePolicyMap := (gomap string RoutePolicy).
Abbreviation ResourceRoutePolicyMap := (gomap Key RoutePolicyMap).
Abbreviation AFPathsMap := (gomap (Family * Prefix) Path).
Abbreviation ResourceAFPathsMap := (gomap Key AFPathsMap).

#[global] Instance gomap_eq_dec {K} `{Countable K} {V} `{EqDecision V} :
  EqDecision (gomap K V).
Proof. solve_decision. Defined.

(** [PodIPPoolReconcilerMetadata] *)
Record PodIPPoolReconcilerMetadata : Type := {
  PoolAFPaths : ResourceAFPathsMap;
  PoolRoutePolicies : ResourceRoutePolicyMap;
}.

(** [slim_metav1.LabelSelector] *)
Record LabelSelector : Type := {
  MatchLabels : list (string * string);
  MatchExpressions : list (string * string * list string);
}.

(** [labels.Labels] is a set of labels, [labels.Selector] an interface whose
    one method used here is [Matches]. *)
Abbreviation Labels := (gmap string string).
Definition Selector : Type := Labels → bool.

(** [v2.BGPAdvertisement]: the fields the reconciler reads. *)
Record BGPAdvertisement : Type := {
  AdvertisementType : string;
  adv_Selector : option LabelSelector;
}.

(** [v2.BGPCiliumPodIPPoolAdvert] *)
Definition BGPCiliumPodIPPoolAdvert : string := "CiliumPodIPPool".

Record PeerID : Type := { peer_Name : string; peer_Address : string }.

(** [PeerAdvertisements] = map[PeerID]FamilyAdvertisements and
    [FamilyAdvertisements] = map[v2.CiliumBGPFamily][]v2.BGPAdvertisement,
    each given as the list of its entries in iteration order.  Go may walk
    the same map in another order the next time: that is another list with
    the same entries ([same_entries] below). *)
Definition FamilyAdvertisements : Type := list (CiliumBGPFamily * list BGPAdvertisement).
Definition PeerAdvertisements : Type := list (PeerID * FamilyAdvertisements).

(** [v2alpha1.CiliumPodIPPool]: name, namespace, labels, and the optional
    per-family specifications ([Spec.IPv4] and [Spec.IPv6] are pointers)
    with their mask sizes. *)
Record CiliumPodIPPool : Type := {
  pool_Name : string;
  pool_Namespace : string;
  pool_Labels : gomap string string;
  pool_IPv4_MaskSize : option N;
  pool_IPv6_MaskSize : option N;
}.

(** The allocated pools of a [v2.CiliumNode]: [Spec.IPAM.Pools.Allocated]. *)
Record IPAMPoolAllocation : Type := { alloc_Pool : string; alloc_CIDRs : list string }.
Record CiliumNode : Type := { node_Allocated : list IPAMPoolAllocation }.

(** [instance.BGPInstance]: the name; the state of its router is threaded
    through the reconciliation separately (see [World]). *)
Record BGPInstance : Type := { inst_Name : string }.

(** The desired configuration of an instance ([v2.CiliumBGPNodeInstance]):
    the reconciler reads its name and hands the whole of it to the
    advertisement lookup. *)
Record DesiredConfig : Type := { cfg_Name : string }.

(** [ReconcileParams]: three pointers. *)
Record ReconcileParams : Type := {
  p_BGPInstance : option BGPInstance;
  p_DesiredConfig : option DesiredConfig;
  p_CiliumNode : option CiliumNode;
}.

(** [store.BGPCPResourceStore]: [GetByKey] answers with the pool, if any, or
    an error; [List] with all pools or an error. *)
Record Store : Type := {
  GetByKey : Key → result (option CiliumPodIPPool);
  List : result (list CiliumPodIPPool);
}.

(** The log lines the reconciler writes. *)
Inductive LogEntry : Type :=
  | LogInvalidCIDR (err : error) (cidr : string)
  | LogUnexpectedAdvertType (t : string).

Definition log_message (l : LogEntry) : string :=
  match l with
  | LogInvalidCIDR _ _ => "invalid IPAM pool CIDR"
  | LogUnexpectedAdvertType _ => "BUG: unexpected advertisement type"
  end.

(** [PodIPPoolReconciler]: the pool store, the advertisement lookup
    ([peerAdvert.GetConfiguredAdvertisements]) and the per-instance metadata.
    [NewPodIPPoolReconciler] allocates [metadata] with [make], so it is never
    the nil map. *)
Record PodIPPoolReconciler : Type := {
  poolStore : Store;
  peerAdvert : option DesiredConfig → string → result PeerAdvertisements;
  metadata : gmap string PodIPPoolReconcilerMetadata;
}.

Definition with_metadata (r : PodIPPoolReconciler)
    (m : gmap string PodIPPoolReconcilerMetadata) : PodIPPoolReconciler :=
  {| poolStore := poolStore r; peerAdvert := peerAdvert r; metadata := m |}.

(** ** The collaborators outside of this file

    Functions and constants the reconciler calls and that live in other
    packages: the standard library ([netip.ParseAddr]), the IPAM types
    ([cidr.ToPrefix]), the label selectors, the policy constructors, the
    parameter validation.  The development is parametric in them, and in the
    order in which [range] walks a map, which Go leaves unspecified. *)
Class Env : Type := {
  PodIPPoolReconcilerName : string;
  ToPrefix : string → result Prefix;
  ParseAddr : string → result Addr;
  LabelSelectorAsSelector : option LabelSelector → result Selector;
  ToAgentFamily : CiliumBGPFamily → Family;
  Afi_String : Afi → string;
  PolicyName : string → string → string → string → string;
  CreatePolicy : string → Addr → list RoutePolicyPrefixMatch →
                 list RoutePolicyPrefixMatch → BGPAdvertisement →
                 result (option RoutePolicy);
  ValidateParams : ReconcileParams → option error;
  go_range : ∀ {V : Type}, gmap Key V → list (Key * V);
  go_range_perm : ∀ {V : Type} (m : gmap Key V), go_range m ≡ₚ map_to_list m;
}.

(** [for k, v := range m] over a Go map. *)
Definition range `{Env} {V} (m : gomap Key V) : list (Key * V) := go_range (content m).

Lemma elem_of_range `{Env} {V} (m : gomap Key V) k v :
  (k, v) ∈ range m ↔ content m !! k = Some v.
Proof. unfold range. rewrite go_range_perm. apply elem_of_map_to_list. Qed.

Lemma NoDup_fst_range `{Env} {V} (m : gomap Key V) : NoDup (range m).*1.
Proof. unfold range. rewrite go_range_perm. apply NoDup_fst_map_to_list. Qed.

(** ** The label set of a pool *)

Definition podIPPoolNameLabel : string := "io.cilium.podippool.name".
Definition podIPPoolNamespaceLabel : string := "io.cilium.podippool.namespace".

(** [podIPPoolLabelSet], by value: the entries of the clone of the pool's
    labels (of a fresh map when the pool has none), with the two pseudo-labels
    written over them.  [LabelHeap.podIPPoolLabelSet] below is the same
    function on a store of map objects. *)
Definition podIPPoolLabelSet (pool : CiliumPodIPPool) : Labels :=
  let poolLabels := go_clone (pool_Labels pool) in
  let poolLabels := match poolLabels with GoNil => ∅ | GoMap t => t end in
  let poolLabels := <[podIPPoolNameLabel := pool_Name pool]> poolLabels in
  let poolLabels := <[podIPPoolNamespaceLabel := pool_Namespace pool]> poolLabels in
  poolLabels.

(** The same function with the maps as objects in a store, so that writing to
    the clone and writing to the pool's own map are different things. *)
Module LabelHeap.

Definition loc : Type := positive.
(** The store: the table behind every allocated label map. *)
Abbreviation heap := (gmap loc (gmap string string)).

(** A pool whose [Labels] field is nil or a reference into the store. *)
Record PoolRef : Type := {
  ref_Name : string;
  ref_Namespace : string;
  ref_Labels : option loc;
  ref_IPv4_MaskSize : option N;
  ref_IPv6_MaskSize : option N;
}.

(** [make(map[string]string)] *)
Definition make (h : heap) : loc * heap :=
  let l := fresh (dom h) in (l, <[l := ∅]> h).

(** [maps.Clone]: nil for nil, otherwise a new map with the same entries. *)
Definition maps_Clone (m : option loc) (h : heap) : option loc * heap :=
  match m with
  | None => (None, h)
  | Some l => let l' := fresh (dom h) in (Some l', <[l' := h !!! l]> h)
  end.

(** [m[k] = v] *)
Definition store (l : loc) (k v : string) (h : heap) : heap :=
  alter (insert k v) l h.

Definition podIPPoolLabelSet (pool : PoolRef) (h : heap) : loc * heap :=
  let '(poolLabels, h) := maps_Clone (ref_Labels pool) h in
  let '(poolLabels, h) :=
    match poolLabels with
    | None => make h
    | Some l => (l, h)
    end in
  let h := store poolLabels podIPPoolNameLabel (ref_Name pool) h in
  let h := store poolLabels podIPPoolNamespaceLabel (ref_Namespace pool) h in
  (poolLabels, h).

(** The pool as a value, its labels read off the store. *)
Definition value (pool : PoolRef) (h : heap) : CiliumPodIPPool :=
  {| pool_Name := ref_Name pool;
     pool_Namespace := ref_Namespace pool;
     pool_Labels := match ref_Labels pool with
                    | None => GoNil
                    | Some l => GoMap (h !!! l)
                    end;
     pool_IPv4_MaskSize := ref_IPv4_MaskSize pool;
     pool_IPv6_MaskSize := ref_IPv6_MaskSize pool |}.

End LabelHeap.

(** ** Per-instance metadata, [Init] and [Cleanup] *)

Definition Name `{Env} : string := PodIPPoolReconcilerName.

Definition Init `{Env} (r : PodIPPoolReconciler) (i : option BGPInstance)
    : option error * PodIPPoolReconciler :=
  match i with
  | None =>
      (Some (errors_New ("BUG: " +:+ Name +:+ " reconciler initialization with nil BGPInstance")), r)
  | Some i =>
      (None,
       with_metadata r
         (<[inst_Name i := {| PoolAFPaths := GoMap ∅; PoolRoutePolicies := GoMap ∅ |}]>
            (metadata r)))
  end.

Definition Cleanup (r : PodIPPoolReconciler) (i : option BGPInstance) : PodIPPoolReconciler :=
  match i with
  | Some i => with_metadata r (delete (inst_Name i) (metadata r))
  | None => r
  end.

(** [getMetadata]: the entry of the instance, the zero value (two nil maps)
    when there is none. *)
Definition getMetadata (r : PodIPPoolReconciler) (i : BGPInstance) : PodIPPoolReconcilerMetadata :=
  default {| PoolAFPaths := GoNil; PoolRoutePolicies := GoNil |} (metadata r !! inst_Name i).

Definition setMetadata (r : PodIPPoolReconciler) (i : BGPInstance)
    (m : PodIPPoolReconcilerMetadata) : PodIPPoolReconciler :=
  with_metadata r (<[inst_Name i := m]> (metadata r)).

(** ** The constructor *)

(** [PodIPPoolReconcilerIn]: the advertisement lookup and the pool store, an
    interface value that may be nil. *)
Record PodIPPoolReconcilerIn : Type := {
  in_PeerAdvert : option DesiredConfig → string → result PeerAdvertisements;
  in_PoolStore : option Store;
}.

(** [NewPodIPPoolReconciler]: no reconciler without a pool store, otherwise
    one whose metadata is a new, empty map.  The result is the [Reconciler]
    field of [PodIPPoolReconcilerOut]; the logger is the log of the monads
    below. *)
Definition NewPodIPPoolReconciler (in_ : PodIPPoolReconcilerIn) : option PodIPPoolReconciler :=
  match in_PoolStore in_ with
  | None => None
  | Some st =>
      Some {| peerAdvert := in_PeerAdvert in_; poolStore := st; metadata := ∅ |}
  end.

(** ** The monad of the derivation functions

    The functions that compute the desired state read the reconciler and
    write log lines; they may panic.  [None] is a panic, otherwise the value
    comes with the lines logged. *)
Definition D (A : Type) : Type := option (A * list LogEntry).

Definition retD {A} (a : A) : D A := Some (a, []).
Definition panicD {A} : D A := None.
Definition logD (e : LogEntry) : D unit := Some ((), [e]).
Definition bindD {A B} (m : D A) (k : A → D B) : D B :=
  match m with
  | None => None
  | Some (a, l1) =>
      match k a with
      | None => None
      | Some (b, l2) => Some (b, l1 ++ l2)
      end
  end.

(** Dereferencing a pointer. *)
Definition derefD {A} (p : option A) : D A :=
  match p with Some a => retD a | None => panicD end.

Notation "'letD' x ':=' m 'in' k" := (bindD m (λ x, k))
  (at level 10, x pattern, m at level 100, k at level 200, only parsing).

(** [v, err := m; if err != nil { return nil, err }; k v] *)
Definition bindD_try {A B} (m : D (result A)) (k : A → D (result B)) : D (result B) :=
  bindD m (λ r, match r with Err e => retD (Err e) | Ok a => k a end).

Notation "'tryD' x ':=' m 'in' k" := (bindD_try m (λ x, k))
  (at level 10, x pattern, m at level 100, k at level 200, only parsing).

(** [for _, x := range l { body }] with the variables the body assigns as
    state [s]; the body returns [Err] to leave the function with an error. *)
Fixpoint forD {A S} (l : list A) (s : S) (body : A → S → D (result S)) : D (result S) :=
  match l with
  | [] => retD (Ok s)
  | x :: l' => tryD s' := body x s in forD l' s' body
  end.

(** The same for a body that has no [return]. *)
Fixpoint forD_ {A S} (l : list A) (s : S) (body : A → S → D S) : D S :=
  match l with
  | [] => retD s
  | x :: l' => letD s' := body x s in forD_ l' s' body
  end.

(** ** Desired state *)

(** [types.NewPathForPrefix]: a path for the prefix, its family not yet set. *)
Definition NewPathForPrefix (prefix : Prefix) : Path :=
  {| path_NLRI := prefix; path_Family := mkFamily AfiUnknown SafiUnknown |}.

(** Modelled from the spec: [addPathToAFPathsMap] is not among the sources at
    hand; it records the path under its address family, one path per
    prefix. *)
Definition addPathToAFPathsMap (m : gmap (Family * Prefix) Path) (fam : Family) (path : Path)
    : gmap (Family * Prefix) Path :=
  <[(fam, path_NLRI path) := path]> m.

Section derivation.
Context `{Env}.

(** [populateLocalPools]: the allocated multi-pool IPAM CIDRs of the local
    node, keyed by the pool name. *)
Definition populateLocalPools (localNode : option CiliumNode) : D (gomap string (list Prefix)) :=
  match localNode with
  | None => retD GoNil
  | Some localNode =>
      letD lp :=
        forD_ (node_Allocated localNode) (∅ : gmap string (list Prefix)) (λ pool lp,
          letD prefixes :=
            forD_ (alloc_CIDRs pool) [] (λ cidr prefixes,
              match ToPrefix cidr with
              | Ok p => retD (prefixes ++ [p])
              | Err err =>
                  letD _ := logD (LogInvalidCIDR err cidr) in retD prefixes
              end) in
          retD (<[alloc_Pool pool := prefixes]> lp)) in
      retD (GoMap lp)
  end.

Definition getDesiredAFPaths (pool : CiliumPodIPPool) (desiredPeerAdverts : PeerAdvertisements)
    (lp : gomap string (list Prefix)) : D (result AFPathsMap) :=
  let desiredFamilyAdverts : gmap (Family * Prefix) Path := ∅ in
  tryD desiredFamilyAdverts :=
    forD desiredPeerAdverts desiredFamilyAdverts (λ '(_, peerFamilyAdverts) desiredFamilyAdverts,
      forD peerFamilyAdverts desiredFamilyAdverts (λ '(family, familyAdverts) desiredFamilyAdverts,
        let agentFamily := ToAgentFamily family in
        forD familyAdverts desiredFamilyAdverts (λ advert desiredFamilyAdverts,
          if decide (AdvertisementType advert ≠ BGPCiliumPodIPPoolAdvert) then
            letD _ := logD (LogUnexpectedAdvertType (AdvertisementType advert)) in
            retD (Ok desiredFamilyAdverts)
          else
            match LabelSelectorAsSelector (adv_Selector advert) with
            | Err err => retD (Err (Errorf_w "failed to convert label selector" err))
            | Ok poolSelector =>
                if negb (poolSelector (podIPPoolLabelSet pool)) then
                  retD (Ok desiredFamilyAdverts)
                else
                  match go_lookup lp (pool_Name pool) with
                  | Some prefixes =>
                      retD (Ok (fold_left (λ desiredFamilyAdverts prefix,
                        let path := NewPathForPrefix prefix in
                        let path := {| path_NLRI := path_NLRI path; path_Family := agentFamily |} in
                        let desiredFamilyAdverts :=
                          if bool_decide (fam_Afi agentFamily = AfiIPv4) && Is4 (prefix_Addr prefix)
                          then addPathToAFPathsMap desiredFamilyAdverts agentFamily path
                          else desiredFamilyAdverts in
                        if bool_decide (fam_Afi agentFamily = AfiIPv6) && Is6 (prefix_Addr prefix)
                        then addPathToAFPathsMap desiredFamilyAdverts agentFamily path
                        else desiredFamilyAdverts)
                        prefixes desiredFamilyAdverts))
                  | None => retD (Ok desiredFamilyAdverts)
                  end
            end))) in
  retD (Ok (GoMap desiredFamilyAdverts)).

Definition getDesiredPoolAFPaths (r : PodIPPoolReconciler) (p : ReconcileParams)
    (desiredFamilyAdverts : PeerAdvertisements) (lp : gomap string (list Prefix))
    : D (result ResourceAFPathsMap) :=
  let desiredPoolAFPaths : gmap Key AFPathsMap := ∅ in
  letD i := derefD (p_BGPInstance p) in
  let metadata := getMetadata r i in
  (* check if any pool is deleted *)
  tryD desiredPoolAFPaths :=
    forD (range (PoolAFPaths metadata)) desiredPoolAFPaths (λ '(poolKey, _) desiredPoolAFPaths,
      match GetByKey (poolStore r) poolKey with
      | Err err =>
          let err := if errors_Is err ErrStoreUninitialized
                     then joinError2 err ErrAbortReconcile else err in
          retD (Err err)
      | Ok None =>
          (* pool is deleted, mark it for removal *)
          retD (Ok (<[poolKey := GoNil]> desiredPoolAFPaths))
      | Ok (Some _) => retD (Ok desiredPoolAFPaths)
      end) in
  match List (poolStore r) with
  | Err err =>
      let err := if errors_Is err ErrStoreUninitialized
                 then joinError2 err ErrAbortReconcile else err in
      retD (Err err)
  | Ok pools =>
      tryD desiredPoolAFPaths :=
        forD pools desiredPoolAFPaths (λ pool desiredPoolAFPaths,
          tryD desiredPaths := getDesiredAFPaths pool desiredFamilyAdverts lp in
          let poolKey := {| key_Name := pool_Name pool; key_Namespace := pool_Namespace pool |} in
          retD (Ok (<[poolKey := desiredPaths]> desiredPoolAFPaths))) in
      retD (Ok (GoMap desiredPoolAFPaths))
  end.

Definition getPodIPPoolPolicy (peer : PeerID) (family : Family) (pool : CiliumPodIPPool)
    (advert : BGPAdvertisement) (lp : gomap string (list Prefix))
    : D (result (option RoutePolicy)) :=
  if decide (peer_Address peer = "") then retD (Ok None)
  else
    match ParseAddr (peer_Address peer) with
    | Err err => retD (Err (Errorf_w "failed to parse peer address" err))
    | Ok peerAddr =>
        (* check if the pool selector matches the advertisement *)
        match LabelSelectorAsSelector (adv_Selector advert) with
        | Err err => retD (Err (Errorf_w "failed to convert label selector" err))
        | Ok poolSelector =>
            (* Ignore non matching pool. *)
            if negb (poolSelector (podIPPoolLabelSet pool)) then retD (Ok None)
            else
              (* only include pool cidrs that have been allocated to the local node. *)
              match go_lookup lp (pool_Name pool) with
              | None => retD (Ok None)
              | Some prefixes =>
                  letD (v4Prefixes, v6Prefixes) :=
                    forD_ prefixes ([], []) (λ prefix '(v4Prefixes, v6Prefixes),
                      letD v4Prefixes :=
                        if bool_decide (fam_Afi family = AfiIPv4) && Is4 (prefix_Addr prefix) then
                          letD maskSize := derefD (pool_IPv4_MaskSize pool) in
                          let prefixLen := Z.of_N maskSize in
                          retD (v4Prefixes ++ [{| pm_CIDR := prefix;
                                                  pm_PrefixLenMin := prefixLen;
                                                  pm_PrefixLenMax := prefixLen |}])
                        else retD v4Prefixes in
                      letD v6Prefixes :=
                        if bool_decide (fam_Afi family = AfiIPv6) && Is6 (prefix_Addr prefix) then
                          letD maskSize := derefD (pool_IPv6_MaskSize pool) in
                          let prefixLen := Z.of_N maskSize in
                          retD (v6Prefixes ++ [{| pm_CIDR := prefix;
                                                  pm_PrefixLenMin := prefixLen;
                                                  pm_PrefixLenMax := prefixLen |}])
                        else retD v6Prefixes in
                      retD (v4Prefixes, v6Prefixes)) in
                  (* if no prefixes are found for the pool, return nil *)
                  if bool_decide (length v4Prefixes = 0) && bool_decide (length v6Prefixes = 0)
                  then retD (Ok None)
                  else
                    let policyName :=
                      PolicyName (peer_Name peer) (Afi_String (fam_Afi family))
                                 (AdvertisementType advert) (pool_Name pool) in
                    retD (CreatePolicy policyName peerAddr v4Prefixes v6Prefixes advert)
              end
        end
    end.

Definition getPodIPPoolPolicies (p : ReconcileParams) (pool : CiliumPodIPPool)
    (desiredPeerAdverts : PeerAdvertisements) (lp : gomap string (list Prefix))
    : D (result RoutePolicyMap) :=
  let desiredRoutePolicies : gmap string RoutePolicy := ∅ in
  tryD desiredRoutePolicies :=
    forD desiredPeerAdverts desiredRoutePolicies (λ '(peer, afAdverts) desiredRoutePolicies,
      forD afAdverts desiredRoutePolicies (λ '(family, adverts) desiredRoutePolicies,
        let fam := ToAgentFamily family in
        forD adverts desiredRoutePolicies (λ advert desiredRoutePolicies,
          tryD policy := getPodIPPoolPolicy peer fam pool advert lp in
          match policy with
          | Some policy => retD (Ok (<[rp_Name policy := policy]> desiredRoutePolicies))
          | None => retD (Ok desiredRoutePolicies)
          end))) in
  retD (Ok (GoMap desiredRoutePolicies)).

Definition getDesiredPodIPPoolRoutePolicies (r : PodIPPoolReconciler) (p : ReconcileParams)
    (desiredPeerAdverts : PeerAdvertisements) (lp : gomap string (list Prefix))
    : D (result ResourceRoutePolicyMap) :=
  letD i := derefD (p_BGPInstance p) in
  let metadata := getMetadata r i in
  let desiredPodIPPoolRoutePolicies : gmap Key RoutePolicyMap := ∅ in
  (* mark for deleting pool policies *)
  tryD desiredPodIPPoolRoutePolicies :=
    forD (range (PoolRoutePolicies metadata)) desiredPodIPPoolRoutePolicies
      (λ '(poolKey, _) desiredPodIPPoolRoutePolicies,
        match GetByKey (poolStore r) poolKey with
        | Err err => retD (Err err)
        | Ok None =>
            (* pool is deleted, mark it for removal *)
            retD (Ok (<[poolKey := GoNil]> desiredPodIPPoolRoutePolicies))
        | Ok (Some _) => retD (Ok desiredPodIPPoolRoutePolicies)
        end) in
  (* get all pools and their route policies *)
  match List (poolStore r) with
  | Err err => retD (Err err)
  | Ok pools =>
      tryD desiredPodIPPoolRoutePolicies :=
        forD pools desiredPodIPPoolRoutePolicies (λ pool desiredPodIPPoolRoutePolicies,
          tryD desiredPoolRoutePolicies := getPodIPPoolPolicies p pool desiredPeerAdverts lp in
          let key := {| key_Name := pool_Name pool; key_Namespace := pool_Namespace pool |} in
          retD (Ok (<[key := desiredPoolRoutePolicies]> desiredPodIPPoolRoutePolicies))) in
      retD (Ok (GoMap desiredPodIPPoolRoutePolicies))
  end.

End derivation.

(** ** The router *)

(** The difference between two tables: what to take out of [current] and what
    to put in to arrive at [desired]; an entry that differs is taken out and
    put in again. *)
Section diff.
Context {K : Type} `{Countable K} {V : Type} `{EqDecision V}.

Definition diff_remove (current desired : gmap K V) : gmap K V :=
  filter (λ kv, desired !! kv.1 ≠ Some kv.2) current.
Definition diff_add (current desired : gmap K V) : gmap K V :=
  filter (λ kv, current !! kv.1 ≠ Some kv.2) desired.
Definition apply_delta (remove add : gmap K V) (s : gmap K V) : gmap K V :=
  add ∪ (s ∖ remove).
End diff.

(** Modelled from the spec: the router and the two operations the
    reconciler asks of it are not among the sources at hand.  The
    specification has the diff engines compute, per resource key, the
    sub-diff between the retained and the desired set and apply it through
    the router, which answers with success or an error.  A call is the
    resource key it is made for (the source passes it along in the logger of
    the call) and the delta. *)
Inductive RouterDelta : Type :=
  | PolicyDelta (remove add : gmap string RoutePolicy)
  | PathDelta (withdraw advertise : gmap (Family * Prefix) Path).

Record RouterCall : Type := { call_key : Key; call_delta : RouterDelta }.

(** Modelled from the spec: a router is the calls made to it so far, oldest
    first, each with its answer ([None] is success), and the way it answers
    the next call given those before it. *)
Record Router : Type := {
  router_calls : list (RouterCall * option error);
  router_answer : list (RouterCall * option error) → RouterCall → option error;
}.

Definition router_apply (c : RouterCall) (rt : Router) : option error * Router :=
  let e := router_answer rt (router_calls rt) c in
  (e, {| router_calls := router_calls rt ++ [(c, e)]; router_answer := router_answer rt |}).

(** ** The monad of the reconciliation functions

    The state is the reconciler, the router of every BGP instance (by the name
    of the instance) and the log; [None] is a panic. *)
Record World : Type := {
  w_r : PodIPPoolReconciler;
  w_routers : string → Router;
  w_log : list LogEntry;
}.

Definition M (A : Type) : Type := World → option (A * World).

Definition retM {A} (a : A) : M A := λ w, Some (a, w).
Definition bindM {A B} (m : M A) (k : A → M B) : M B :=
  λ w, match m w with
       | None => None
       | Some (a, w') => k a w'
       end.
Definition derefM {A} (p : option A) : M A :=
  λ w, match p with Some a => Some (a, w) | None => None end.

Notation "'letM' x ':=' m 'in' k" := (bindM m (λ x, k))
  (at level 10, x pattern, m at level 100, k at level 200, only parsing).

(** Running a derivation: its log lines are appended to the log. *)
Definition add_log (w : World) (l : list LogEntry) : World :=
  {| w_r := w_r w; w_routers := w_routers w; w_log := w_log w ++ l |}.

Definition liftD {A} (m : D A) : M A :=
  λ w, match m with
       | None => None
       | Some (a, l) => Some (a, add_log w l)
       end.

Definition getR : M PodIPPoolReconciler := λ w, Some (w_r w, w).
Definition modifyR (f : PodIPPoolReconciler → PodIPPoolReconciler) : M unit :=
  λ w, Some ((), {| w_r := f (w_r w); w_routers := w_routers w; w_log := w_log w |}).

(** A call to the router of instance [i]. *)
Definition callRouter (i : BGPInstance) (c : RouterCall) : M (option error) :=
  λ w, let '(e, rt) := router_apply c (w_routers w (inst_Name i)) in
       Some (e, {| w_r := w_r w;
                   w_routers := <[inst_Name i := rt]> (w_routers w);
                   w_log := w_log w |}).

Fixpoint forM_ {A S} (l : list A) (s : S) (body : A → S → M S) : M S :=
  match l with
  | [] => retM s
  | x :: l' => letM s' := body x s in forM_ l' s' body
  end.

(** ** The diff and apply engines *)

(** Modelled from the spec: [ReconcileRoutePolicies] is not among the sources
    at hand.  For one resource key: when the desired set equals the current
    one by content the router is not called; otherwise the sub-diff is
    applied through the router, and the retained value advances to the
    desired set only if the apply succeeds. *)
Definition ReconcileRoutePolicies (i : BGPInstance) (poolKey : Key)
    (DesiredPolicies CurrentPolicies : RoutePolicyMap) : M (RoutePolicyMap * option error) :=
  let d := content DesiredPolicies in
  let c := content CurrentPolicies in
  if decide (d = c) then retM (CurrentPolicies, None)
  else
    letM rErr := callRouter i {| call_key := poolKey;
                                 call_delta := PolicyDelta (diff_remove c d) (diff_add c d) |} in
    match rErr with
    | None => retM (GoMap d, None)
    | Some err => retM (CurrentPolicies, Some err)
    end.

(** Modelled from the spec: [ReconcileAFPaths], the same for the paths of one
    resource key. *)
Definition ReconcileAFPaths (i : BGPInstance) (resKey : Key)
    (DesiredPaths CurrentPaths : AFPathsMap) : M (AFPathsMap * option error) :=
  let d := content DesiredPaths in
  let c := content CurrentPaths in
  if decide (d = c) then retM (CurrentPaths, None)
  else
    letM rErr := callRouter i {| call_key := resKey;
                                 call_delta := PathDelta (diff_remove c d) (diff_add c d) |} in
    match rErr with
    | None => retM (GoMap d, None)
    | Some err => retM (CurrentPaths, Some err)
    end.

Section reconcile.
Context `{Env}.

(** Modelled from the spec: [ReconcileResourceAFPaths] is not among the
    sources at hand.  The specification has it structurally identical to
    the route-policy engine below, over every resource key of either map: a
    key of the current map that the desired map does not have is withdrawn
    like one mapped to nil.  The errors of the keys are joined, and the
    updated current mapping is returned with them. *)
Definition ReconcileResourceAFPaths (i : BGPInstance)
    (DesiredResourceAFPaths CurrentResourceAFPaths : ResourceAFPathsMap)
    : M (ResourceAFPathsMap * option error) :=
  let desired : ResourceAFPathsMap :=
    GoMap (content DesiredResourceAFPaths ∪ ((λ _, GoNil) <$> content CurrentResourceAFPaths)) in
  let running : ResourceAFPathsMap := GoMap (content CurrentResourceAFPaths) in
  forM_ (range desired) (running, None) (λ '(resKey, desiredAFPaths) '(running, err),
    let '(currentAFPaths, exists_) :=
      match go_lookup running resKey with
      | Some c => (c, true)
      | None => (GoNil, false)
      end in
    if negb exists_ && bool_decide (go_len desiredAFPaths = 0) then retM (running, err)
    else
      letM (updatedAFPaths, rErr) :=
        ReconcileAFPaths i resKey desiredAFPaths currentAFPaths in
      letM running :=
        if bool_decide (rErr = None) && bool_decide (go_len desiredAFPaths = 0)
        then retM (go_delete running resKey)
        else derefM (go_store running resKey updatedAFPaths) in
      retM (running, errors_Join err rErr)).

Definition reconcilePaths (p : ReconcileParams) (desiredPeerAdverts : PeerAdvertisements)
    (lp : gomap string (list Prefix)) : M (option error) :=
  letM r := getR in
  letM poolsAFPaths := liftD (getDesiredPoolAFPaths r p desiredPeerAdverts lp) in
  match poolsAFPaths with
  | Err err => retM (Some err)
  | Ok poolsAFPaths =>
      letM i := derefM (p_BGPInstance p) in
      let metadata := getMetadata r i in
      letM _ := derefM (p_DesiredConfig p) in
      letM (updated, err) :=
        ReconcileResourceAFPaths i poolsAFPaths (PoolAFPaths metadata) in
      let metadata := {| PoolAFPaths := updated;
                         PoolRoutePolicies := PoolRoutePolicies metadata |} in
      letM _ := modifyR (λ r, setMetadata r i metadata) in
      retM err
  end.

(** The loop of [reconcileRoutePolicies] over the desired mapping; its
    state is the retained mapping and the error joined so far. *)
Definition reconcileRoutePolicies_loop (p : ReconcileParams) (i : BGPInstance)
    (desiredPoolsRPs : ResourceRoutePolicyMap) (PoolRoutePolicies : ResourceRoutePolicyMap)
    : M (ResourceRoutePolicyMap * option error) :=
  forM_ (range desiredPoolsRPs) (PoolRoutePolicies, None)
    (λ '(poolKey, desiredRPs) '(PoolRoutePolicies, err),
      let '(currentRPs, exists_) :=
        match go_lookup PoolRoutePolicies poolKey with
        | Some c => (c, true)
        | None => (GoNil, false)
        end in
      if negb exists_ && bool_decide (go_len desiredRPs = 0) then retM (PoolRoutePolicies, err)
      else
        letM _ := derefM (p_DesiredConfig p) in
        letM (updatedRPs, rErr) :=
          ReconcileRoutePolicies i poolKey desiredRPs currentRPs in
        letM PoolRoutePolicies :=
          if bool_decide (rErr = None) && bool_decide (go_len desiredRPs = 0)
          then retM (go_delete PoolRoutePolicies poolKey)
          else derefM (go_store PoolRoutePolicies poolKey updatedRPs) in
        retM (PoolRoutePolicies, errors_Join err rErr)).

Definition reconcileRoutePolicies (p : ReconcileParams) (desiredPeerAdverts : PeerAdvertisements)
    (lp : gomap string (list Prefix)) : M (option error) :=
  letM r := getR in
  letM desiredPoolsRPs := liftD (getDesiredPodIPPoolRoutePolicies r p desiredPeerAdverts lp) in
  match desiredPoolsRPs with
  | Err err => retM (Some err)
  | Ok desiredPoolsRPs =>
      letM i := derefM (p_BGPInstance p) in
      let metadata := getMetadata r i in
      letM (updated, err) :=
        reconcileRoutePolicies_loop p i desiredPoolsRPs (PoolRoutePolicies metadata) in
      let metadata := {| PoolAFPaths := PoolAFPaths metadata;
                         PoolRoutePolicies := updated |} in
      letM _ := modifyR (λ r, setMetadata r i metadata) in
      retM err
  end.

Definition Reconcile (p : ReconcileParams) : M (option error) :=
  match ValidateParams p with
  | Some err => retM (Some err)
  | None =>
      letM lp := liftD (populateLocalPools (p_CiliumNode p)) in
      letM r := getR in
      match peerAdvert r (p_DesiredConfig p) BGPCiliumPodIPPoolAdvert with
      | Err err => retM (Some err)
      | Ok desiredPeerAdverts =>
          letM err := reconcileRoutePolicies p desiredPeerAdverts lp in
          match err with
          | Some err => retM (Some err)
          | None => reconcilePaths p desiredPeerAdverts lp
          end
      end
  end.

End reconcile.

(** ** The order of iteration

    Go leaves the order in which [range] walks a map unspecified, and the
    order may differ from one [range] statement to the next.  A second
    call to [Reconcile] may so walk the advertisements of the peers and of
    their families, the retained mappings and the desired mappings in
    another order than the first call did. *)

(** An entry of the advertisements: the advertisements of a family of a
    peer. *)
Definition entry_of (adverts : PeerAdvertisements) (peer : PeerID) (fam : CiliumBGPFamily)
    (ads : list BGPAdvertisement) : Prop :=
  ∃ fams, (peer, fams) ∈ adverts ∧ (fam, ads) ∈ fams.

(** The same advertisements, walked in whatever order. *)
Definition same_entries (adverts1 adverts2 : PeerAdvertisements) : Prop :=
  ∀ peer fam ads, entry_of adverts1 peer fam ads ↔ entry_of adverts2 peer fam ads.

(** The same collaborators, with [range] walking the maps in another
    order. *)
Definition reorder (E : Env) (rg : ∀ V : Type, gmap Key V → list (Key * V))
    (Hrg : ∀ (V : Type) (m : gmap Key V), rg V m ≡ₚ map_to_list m) : Env :=
  {| PodIPPoolReconcilerName := @PodIPPoolReconcilerName E;
     ToPrefix := @ToPrefix E;
     ParseAddr := @ParseAddr E;
     LabelSelectorAsSelector := @LabelSelectorAsSelector E;
     ToAgentFamily := @ToAgentFamily E;
     Afi_String := @Afi_String E;
     PolicyName := @PolicyName E;
     CreatePolicy := @CreatePolicy E;
     ValidateParams := @ValidateParams E;
     go_range := rg;
     go_range_perm := Hrg |}.

(** The world in which the advertisements are looked up by [pa]: the store
    and the metadata of the reconciler, the routers and the log are the
    same. *)
Definition with_peerAdvert
    (pa : option DesiredConfig → string → result PeerAdvertisements) (w : World) : World :=
  {| w_r := {| poolStore := poolStore (w_r w);
               peerAdvert := pa;
               metadata := metadata (w_r w) |};
     w_routers := w_routers w;
     w_log := w_log w |}.

Section names.
Context `{Env}.

(** No two advertisements give the pool two different route policies of
    one name. *)
Definition names_agree (pool : CiliumPodIPPool) (adverts : PeerAdvertisements)
    (lp : gomap string (list Prefix)) : Prop :=
  ∀ peer fam ads advert policy peer' fam' ads' advert' policy',
    entry_of adverts peer fam ads → advert ∈ ads →
    entry_of adverts peer' fam' ads' → advert' ∈ ads' →
    getPodIPPoolPolicy peer (ToAgentFamily fam) pool advert lp = retD (Ok (Some policy)) →
    getPodIPPoolPolicy peer' (ToAgentFamily fam') pool advert' lp = retD (Ok (Some policy')) →
    rp_Name policy = rp_Name policy' →
    policy = policy'.

(** The same for every pool that the store of the reconciler lists, with
    the advertisements and the local pools of a call to [Reconcile]. *)
Definition names_unique (p : ReconcileParams) (r : PodIPPoolReconciler) : Prop :=
  ∀ lp lg adverts pools pool,
    populateLocalPools (p_CiliumNode p) = Some (lp, lg) →
    peerAdvert r (p_DesiredConfig p) BGPCiliumPodIPPoolAdvert = Ok adverts →
    List (poolStore r) = Ok pools → pool ∈ pools →
    names_agree pool adverts lp.
End names.

(** ** Test doubles

    Small stand-ins for the collaborators, in the manner of the fakes of the
    Go tests, on which the definitions above can be run. *)
Module Fixtures.

Definition testToPrefix (cidr : string) : result Prefix :=
  if decide (cidr = "10.0.0.0/24") then Ok (mkPrefix (AddrV4 167772160) 24)
  else if decide (cidr = "10.0.1.0/24") then Ok (mkPrefix (AddrV4 167772416) 24)
  else if decide (cidr = "10.0.2.0/24") then Ok (mkPrefix (AddrV4 167772672) 24)
  else if decide (cidr = "fd00::/64") then Ok (mkPrefix (AddrV6 0) 64)
  else Err (errors_New "no '/'").

Definition testParseAddr (a : string) : result Addr :=
  if decide (a = "192.0.2.1") then Ok (AddrV4 3221225985)
  else if decide (a = "192.0.2.2") then Ok (AddrV4 3221225986)
  else Err (errors_New "unable to parse IP").

(** A selector converts when every expression has a known operator; it
    matches when every label and every expression does.  The nil selector
    matches nothing. *)
Definition testRequirementOk (req : string * string * list string) : bool :=
  let op := req.1.2 in
  bool_decide (op = "In") || bool_decide (op = "NotIn")
  || bool_decide (op = "Exists") || bool_decide (op = "DoesNotExist").

Definition testRequirementMatches (req : string * string * list string) (l : Labels) : bool :=
  let '(k, op, vs) := req in
  if decide (op = "In") then
    match l !! k with Some v => bool_decide (v ∈ vs) | None => false end
  else if decide (op = "NotIn") then
    match l !! k with Some v => negb (bool_decide (v ∈ vs)) | None => true end
  else if decide (op = "Exists") then bool_decide (is_Some (l !! k))
  else negb (bool_decide (is_Some (l !! k))).

Definition testLabelSelectorAsSelector (ps : option LabelSelector) : result Selector :=
  match ps with
  | None => Ok (λ _, false)
  | Some ps =>
      if forallb testRequirementOk (MatchExpressions ps) then
        Ok (λ l,
          forallb (λ kv : string * string, bool_decide (l !! kv.1 = Some kv.2)) (MatchLabels ps)
          && forallb (λ req, testRequirementMatches req l) (MatchExpressions ps))
      else Err (errors_New "not a valid label selector operator")
  end.

Definition testToAgentFamily (f : CiliumBGPFamily) : Family :=
  {| fam_Afi := if decide (cfam_Afi f = "ipv4") then AfiIPv4
                else if decide (cfam_Afi f = "ipv6") then AfiIPv6 else AfiUnknown;
     fam_Safi := if decide (cfam_Safi f = "unicast") then SafiUnicast else SafiUnknown |}.

Definition testAfiString (a : Afi) : string :=
  match a with
  | AfiIPv4 => "ipv4" | AfiIPv6 => "ipv6" | AfiL2VPN => "l2vpn"
  | AfiLS => "ls" | AfiOpaque => "opaque" | AfiUnknown => "unknown"
  end.

Definition testPolicyName (peer family advertType resourceID : string) : string :=
  peer +:+ "-" +:+ family +:+ "-" +:+ advertType +:+ "-" +:+ resourceID.

Definition testCreatePolicy (name : string) (peerAddr : Addr)
    (v4Prefixes v6Prefixes : list RoutePolicyPrefixMatch) (advert : BGPAdvertisement)
    : result (option RoutePolicy) :=
  Ok (Some {| rp_Name := name; rp_Peer := peerAddr;
              rp_PrefixMatches := v4Prefixes ++ v6Prefixes;
              rp_AdvertType := AdvertisementType advert |}).

Definition testValidateParams (p : ReconcileParams) : option error :=
  match p_DesiredConfig p, p_BGPInstance p, p_CiliumNode p with
  | None, _, _ => Some (errors_New "BUG: reconciler called with nil CiliumBGPNodeInstance")
  | _, None, _ => Some (errors_New "BUG: reconciler called with nil BGPInstance")
  | _, _, None => Some (errors_New "BUG: reconciler called with nil CiliumNode")
  | _, _, _ => None
  end.

#[export] Instance testEnv : Env := {|
  PodIPPoolReconcilerName := "PodIPPool";
  ToPrefix := testToPrefix;
  ParseAddr := testParseAddr;
  LabelSelectorAsSelector := testLabelSelectorAsSelector;
  ToAgentFamily := testToAgentFamily;
  Afi_String := testAfiString;
  PolicyName := testPolicyName;
  CreatePolicy := testCreatePolicy;
  ValidateParams := testValidateParams;
  go_range := λ V m, map_to_list m;
  go_range_perm := λ V m, reflexivity _;
|}.

(** A store over a list of pools; [None] is the store before its first
    synchronisation. *)
Definition fakeStore (pools : option (list CiliumPodIPPool)) : Store :=
  match pools with
  | None => {| GetByKey := λ _, Err ErrStoreUninitialized; List := Err ErrStoreUninitialized |}
  | Some pools =>
      {| GetByKey := λ k,
           Ok (find (λ pool, bool_decide (mkKey (pool_Name pool) (pool_Namespace pool) = k)) pools);
         List := Ok pools |}
  end.

(** A router that accepts every call, and one that refuses the calls made
    for one resource key. *)
Definition acceptAll : Router :=
  {| router_calls := []; router_answer := λ _ _, None |}.
Definition rejectKey (k : Key) : Router :=
  {| router_calls := [];
     router_answer := λ _ c,
       if decide (call_key c = k) then Some (errors_New "rejected by the router") else None |}.

Definition selectAll : LabelSelector := {| MatchLabels := []; MatchExpressions := [] |}.
Definition selectTeam (t : string) : LabelSelector :=
  {| MatchLabels := [("team", t)]; MatchExpressions := [] |}.
Definition badSelector : LabelSelector :=
  {| MatchLabels := []; MatchExpressions := [("team", "Within", ["a"])] |}.

Definition poolAdvert (sel : option LabelSelector) : BGPAdvertisement :=
  {| AdvertisementType := BGPCiliumPodIPPoolAdvert; adv_Selector := sel |}.

Definition ipv4 : CiliumBGPFamily := {| cfam_Afi := "ipv4"; cfam_Safi := "unicast" |}.
Definition peer1 : PeerID := {| peer_Name := "peer1"; peer_Address := "192.0.2.1" |}.

Definition pool (name : string) (labels : list (string * string)) : CiliumPodIPPool :=
  {| pool_Name := name; pool_Namespace := "";
     pool_Labels := GoMap (list_to_map labels);
     pool_IPv4_MaskSize := Some 24%N; pool_IPv6_MaskSize := Some 64%N |}.

Definition node (allocated : list (string * list string)) : CiliumNode :=
  {| node_Allocated := (λ a, {| alloc_Pool := a.1; alloc_CIDRs := a.2 |}) <$> allocated |}.

Definition instance0 : BGPInstance := {| inst_Name := "instance-65001" |}.

Definition params (n : CiliumNode) : ReconcileParams :=
  {| p_BGPInstance := Some instance0;
     p_DesiredConfig := Some {| cfg_Name := "instance-65001" |};
     p_CiliumNode := Some n |}.

(** A reconciler as [NewPodIPPoolReconciler] makes it, over the given store
    and advertisements. *)
Definition newReconciler (st : Store) (adverts : PeerAdvertisements) : PodIPPoolReconciler :=
  {| poolStore := st; peerAdvert := λ _ _, Ok adverts; metadata := ∅ |}.

(** The world after [Init] of [instance0]. *)
Definition world (st : Store) (adverts : PeerAdvertisements) (rt : Router) : World :=
  {| w_r := (Init (newReconciler st adverts) (Some instance0)).2;
     w_routers := λ _, rt;
     w_log := [] |}.

(** Three pools, allocated on the node and all advertised to one peer. *)
Definition pools3 : list CiliumPodIPPool :=
  [pool "k1" [("team", "a")]; pool "k2" [("team", "a")]; pool "k3" [("team", "a")]].
Definition node3 : CiliumNode :=
  node [("k1", ["10.0.0.0/24"]); ("k2", ["10.0.1.0/24"]); ("k3", ["10.0.2.0/24"])].
Definition advertsAll : PeerAdvertisements :=
  [(peer1, [(ipv4, [poolAdvert (Some selectAll)])])].
Definition key2 : Key := mkKey "k2" "".

(** The calls that a run made to the router of [instance0]. *)
Definition calls_of (w : World) : list (RouterCall * option error) :=
  router_calls (w_routers w (inst_Name instance0)).

(** The world a computation leaves and the value it returns. *)
Definition run_state {A} (m : M A) (w : World) : World :=
  match m w with Some (_, w') => w' | None => w end.
Definition run_value {A} (d : A) (m : M A) (w : World) : A :=
  match m w with Some (a, _) => a | None => d end.

(** Whether a derivation returned a value, not an error. *)
Definition returns_Ok {A} (d : D (result A)) : bool :=
  match d with Some (Ok _, _) => true | _ => false end.

Definition p3 : ReconcileParams := params node3.
Definition lp3 : gomap string (list Prefix) :=
  match populateLocalPools (p_CiliumNode p3) with
  | Some (lp, _) => lp
  | None => GoNil
  end.

(** The three pools after [Init], with a router that accepts every call and
    with one that refuses the calls for the second pool. *)
Definition w_accept : World := world (fakeStore (Some pools3)) advertsAll acceptAll.
Definition w_reject : World := world (fakeStore (Some pools3)) advertsAll (rejectKey key2).

(** A store that is not initialised yet. *)
Definition w_uninitialized : World := world (fakeStore None) advertsAll acceptAll.

(** One pool with the label team=a, and advertisements that select team=b. *)
Definition poolA : CiliumPodIPPool := pool "P" [("team", "a")].
Definition advertsB : PeerAdvertisements :=
  [(peer1, [(ipv4, [poolAdvert (Some (selectTeam "b"))])])].
Definition rA : PodIPPoolReconciler :=
  (Init (newReconciler (fakeStore (Some [poolA])) advertsB) (Some instance0)).2.
Definition lpA : gomap string (list Prefix) :=
  GoMap {["P" := [mkPrefix (AddrV4 167772160) 24]]}.

(** A reconciler that retains something for a pool that the store no longer
    has. *)
Definition goneKey : Key := mkKey "gone" "".
Definition rGone : PodIPPoolReconciler :=
  {| poolStore := fakeStore (Some [poolA]);
     peerAdvert := λ _ _, Ok advertsAll;
     metadata :=
       {[ inst_Name instance0 :=
            {| PoolAFPaths := GoMap {[goneKey := GoMap ∅]};
               PoolRoutePolicies := GoMap {[goneKey := GoMap ∅]} |} ]} |}.

(** Advertisements of which the first has a selector that does not
    convert, and a peer whose address does not parse. *)
Definition advertsBad : PeerAdvertisements :=
  [(peer1, [(ipv4, [poolAdvert (Some badSelector); poolAdvert (Some selectAll)])])].
Definition advertsGood : PeerAdvertisements :=
  [(peer1, [(ipv4, [poolAdvert (Some selectAll)])])].
Definition peerBad : PeerID := {| peer_Name := "peer2"; peer_Address := "not-an-ip" |}.
Definition peerNone : PeerID := {| peer_Name := "peer3"; peer_Address := "" |}.

(** The pool [poolA], allocated on the node, with two peers.  In
    [advertsTwo] the peers have their own names; [advertsTwo'] has the
    same entries with the peers and the families in the other order.  In
    [advertsClash] the two peers share a name and differ in their
    address. *)
Definition peer2 : PeerID := {| peer_Name := "peer2"; peer_Address := "192.0.2.2" |}.
Definition peer1b : PeerID := {| peer_Name := "peer1"; peer_Address := "192.0.2.2" |}.
Definition ipv6 : CiliumBGPFamily := {| cfam_Afi := "ipv6"; cfam_Safi := "unicast" |}.
Definition advertsTwo : PeerAdvertisements :=
  [(peer1, [(ipv4, [poolAdvert (Some selectAll)]); (ipv6, [poolAdvert (Some selectAll)])]);
   (peer2, [(ipv4, [poolAdvert (Some selectAll)])])].
Definition advertsTwo' : PeerAdvertisements :=
  [(peer2, [(ipv4, [poolAdvert (Some selectAll)])]);
   (peer1, [(ipv6, [poolAdvert (Some selectAll)]); (ipv4, [poolAdvert (Some selectAll)])])].
Definition advertsClash : PeerAdvertisements :=
  [(peer1, [(ipv4, [poolAdvert (Some selectAll)])]);
   (peer1b, [(ipv4, [poolAdvert (Some selectAll)])])].
Definition pA : ReconcileParams := params (node [("P", ["10.0.0.0/24"])]).
Definition w_two : World := world (fakeStore (Some [poolA])) advertsTwo acceptAll.
Definition w_clash : World := world (fakeStore (Some [poolA])) advertsClash acceptAll.

(** The policy of [poolA] for a peer, over the IPv4 family. *)
Definition policyA (peer : PeerID) (addr : Addr) : RoutePolicy :=
  {| rp_Name := testPolicyName (peer_Name peer) "ipv4" BGPCiliumPodIPPoolAdvert "P";
     rp_Peer := addr;
     rp_PrefixMatches := [{| pm_CIDR := mkPrefix (AddrV4 167772160) 24;
                             pm_PrefixLenMin := 24; pm_PrefixLenMax := 24 |}];
     rp_AdvertType := BGPCiliumPodIPPoolAdvert |}.

(** Another order for [range]: the reverse of that of [testEnv]. *)
Definition range_reversed (V : Type) (m : gmap Key V) : list (Key * V) :=
  reverse (map_to_list m).

End Fixtures.

(** * Properties *)

(** ** Laws of the derivation monad and of its loops *)

Lemma bindD_retD_l {A B} (a : A) (k : A → D B) : bindD (retD a) k = k a.
Proof. unfold bindD, retD. by destruct (k a) as [[b l]|]. Qed.

Lemma bindD_try_Ok {A B} (a : A) (k : A → D (result B)) : bindD_try (retD (Ok a)) k = k a.
Proof. unfold bindD_try. by rewrite bindD_retD_l. Qed.

Lemma bindD_try_Err {A B} (e : error) (k : A → D (result B)) : bindD_try (retD (Err e)) k = retD (Err e).
Proof. unfold bindD_try. by rewrite bindD_retD_l. Qed.

Lemma bindD_Some {A B} (m : D A) (k : A → D B) b lg :
  bindD m k = Some (b, lg) ↔
  ∃ a l1 l2, m = Some (a, l1) ∧ k a = Some (b, l2) ∧ lg = l1 ++ l2.
Proof.
  unfold bindD. split.
  - destruct m as [[a l1]|]; [|done].
    destruct (k a) as [[b' l2]|] eqn:Hk; [|done].
    intros [= <- <-]. eauto 10.
  - intros (a & l1 & l2 & -> & Hk & ->). by rewrite Hk.
Qed.

Lemma bindD_try_Some_Ok {A B} (m : D (result A)) (k : A → D (result B)) b lg :
  bindD_try m k = Some (Ok b, lg) ↔
  ∃ a l1 l2, m = Some (Ok a, l1) ∧ k a = Some (Ok b, l2) ∧ lg = l1 ++ l2.
Proof.
  unfold bindD_try. rewrite bindD_Some. split.
  - intros ([a|e] & l1 & l2 & Hm & Hk & ->); [eauto 10|done].
  - intros (a & l1 & l2 & Hm & Hk & ->). eauto 10.
Qed.

Lemma bindD_try_ext {A B} (m : D (result A)) (k k' : A → D (result B)) :
  (∀ a, k a = k' a) → bindD_try m k = bindD_try m k'.
Proof.
  intros Hk. unfold bindD_try, bindD. destruct m as [[[a|e] l]|]; [|done..].
  by rewrite Hk.
Qed.

(** A loop whose body never changes the state nor fails does nothing. *)
Lemma forD_skip {A S} (l : list A) (s : S) (body : A → S → D (result S)) :
  (∀ x s, x ∈ l → body x s = retD (Ok s)) → forD l s body = retD (Ok s).
Proof.
  induction l as [|x l IH]; intros Hb; simpl; [done|].
  rewrite Hb; [|by left]. rewrite bindD_try_Ok. apply IH. intros; apply Hb. by right.
Qed.

(** Iterations that do nothing can be left out. *)
Lemma forD_filter {A S} (P : A → Prop) `{∀ x, Decision (P x)}
    (l : list A) (s : S) (body : A → S → D (result S)) :
  (∀ x s, x ∈ l → ¬ P x → body x s = retD (Ok s)) →
  forD l s body = forD (filter P l) s body.
Proof.
  revert s. induction l as [|x l IH]; intros s Hb; simpl; [done|].
  assert (∀ s', forD l s' body = forD (filter P l) s' body) as IH'.
  { intros s'. apply IH. intros; apply Hb; [by right|done]. }
  rewrite filter_cons. destruct (decide (P x)) as [Hx|Hx]; simpl.
  - by apply bindD_try_ext.
  - rewrite Hb; [|by left|done]. by rewrite bindD_try_Ok.
Qed.

(** The loops of a successful run: every iteration succeeded, and a property
    that each of them keeps holds at the end. *)
Lemma forD_Ok_inv {A S} (I : S → Prop) (l : list A) (s s' : S)
    (body : A → S → D (result S)) lg :
  forD l s body = Some (Ok s', lg) →
  I s →
  (∀ x s1 s2 lg1, x ∈ l → I s1 → body x s1 = Some (Ok s2, lg1) → I s2) →
  I s'.
Proof.
  revert s lg. induction l as [|x l IH]; intros s lg; simpl.
  - intros [= <- <-]. done.
  - rewrite bindD_try_Some_Ok. intros (s1 & l1 & l2 & Hx & Hl & ->) Hs Hstep.
    eapply IH; [exact Hl| |].
    + eapply Hstep; [by left|exact Hs|exact Hx].
    + intros y t1 t2 lg1 Hy. apply Hstep. by right.
Qed.

(** A loop with a failing iteration does not succeed. *)
Lemma forD_Ok_all {A S} (l : list A) (s s' : S) (body : A → S → D (result S)) lg :
  forD l s body = Some (Ok s', lg) →
  ∀ x, x ∈ l → ∃ s1 s2 lg1, body x s1 = Some (Ok s2, lg1).
Proof.
  revert s lg. induction l as [|x l IH]; intros s lg; simpl.
  - intros _ y Hy. by apply elem_of_nil in Hy.
  - rewrite bindD_try_Some_Ok. intros (s1 & l1 & l2 & Hx & Hl & ->) y Hy.
    apply elem_of_cons in Hy as [->|Hy]; [eauto|by eapply IH].
Qed.

(** The derivations that do not dereference anything do not panic. *)
Lemma forD_total {A S} (l : list A) (s : S) (body : A → S → D (result S)) :
  (∀ x s, x ∈ l → is_Some (body x s)) → is_Some (forD l s body).
Proof.
  revert s. induction l as [|x l IH]; intros s Hb; simpl; [by eexists|].
  destruct (Hb x s) as [[[s1|e] l1] Hx]; [by left| |].
  - destruct (IH s1) as [[r l2] Hl]; [intros; apply Hb; by right|].
    unfold bindD_try, bindD. rewrite Hx, Hl. by eexists.
  - unfold bindD_try, bindD. rewrite Hx. by eexists.
Qed.

(** ** [Init] *)

(** C8. [Init] with a nil instance returns an error whose message is tagged
    BUG and leaves the reconciler, so its metadata, as it was; [Init] with an
    instance returns nil, gives that instance two empty, non-nil mappings and
    leaves the metadata of every other instance, the store and the
    advertisement lookup as they were. *)
Theorem Init_spec `{Env} (r : PodIPPoolReconciler) :
  (∃ rest, Init r None = (Some (errors_New ("BUG: " +:+ rest)), r)) ∧
  (∀ i : BGPInstance,
     (Init r (Some i)).1 = None ∧
     metadata (Init r (Some i)).2 !! inst_Name i
       = Some {| PoolAFPaths := GoMap ∅; PoolRoutePolicies := GoMap ∅ |} ∧
     (∀ n, n ≠ inst_Name i → metadata (Init r (Some i)).2 !! n = metadata r !! n) ∧
     poolStore (Init r (Some i)).2 = poolStore r ∧
     peerAdvert (Init r (Some i)).2 = peerAdvert r).
Proof.
  split.
  - eexists. reflexivity.
  - intros i. simpl. split_and!; try done.
    + apply lookup_insert_eq.
    + intros n Hn. by apply lookup_insert_ne.
Qed.

(** ** The label set *)

Lemma podIPPoolLabels_distinct : podIPPoolNameLabel ≠ podIPPoolNamespaceLabel.
Proof. done. Qed.

Lemma podIPPoolLabelSet_lookup (pool : CiliumPodIPPool) :
  podIPPoolLabelSet pool !! podIPPoolNameLabel = Some (pool_Name pool) ∧
  podIPPoolLabelSet pool !! podIPPoolNamespaceLabel = Some (pool_Namespace pool) ∧
  (∀ k, k ≠ podIPPoolNameLabel → k ≠ podIPPoolNamespaceLabel →
        podIPPoolLabelSet pool !! k = content (pool_Labels pool) !! k).
Proof.
  unfold podIPPoolLabelSet, go_clone. split_and!.
  - rewrite lookup_insert_ne by (symmetry; apply podIPPoolLabels_distinct).
    apply lookup_insert_eq.
  - apply lookup_insert_eq.
  - intros k Hk1 Hk2. rewrite !lookup_insert_ne by done.
    by destruct (pool_Labels pool).
Qed.

(** C10. Computing the label set of a pool writes to a new map only: the map
    it returns is not one of the store, every map of the store, the pool's own
    among them, has the entries it had, and the new map holds the pool's
    labels with the name and namespace pseudo-labels written over any label
    of the same name. *)
Theorem podIPPoolLabelSet_frame (pool : LabelHeap.PoolRef) (h : LabelHeap.heap) :
  let res := LabelHeap.podIPPoolLabelSet pool h in
  let ls := podIPPoolLabelSet (LabelHeap.value pool h) in
  (res.1 ∉ dom h) ∧
  (∀ l, l ∈ dom h → res.2 !! l = h !! l) ∧
  res.2 !! res.1 = Some ls ∧
  ls !! podIPPoolNameLabel = Some (LabelHeap.ref_Name pool) ∧
  ls !! podIPPoolNamespaceLabel = Some (LabelHeap.ref_Namespace pool) ∧
  (∀ k, k ≠ podIPPoolNameLabel → k ≠ podIPPoolNamespaceLabel →
        ls !! k = content (pool_Labels (LabelHeap.value pool h)) !! k).
Proof.
  intros res ls.
  pose proof (is_fresh (dom h)) as Hfresh.
  assert (∀ l, l ∈ dom h → l ≠ fresh (dom h)) as Hne by (intros l Hl ->; done).
  destruct (podIPPoolLabelSet_lookup (LabelHeap.value pool h)) as (Hn & Hns & Hk).
  split_and!; try done.
  - subst res. unfold LabelHeap.podIPPoolLabelSet, LabelHeap.maps_Clone, LabelHeap.make.
    by destruct (LabelHeap.ref_Labels pool).
  - intros l Hl. specialize (Hne l Hl). subst res.
    unfold LabelHeap.podIPPoolLabelSet, LabelHeap.maps_Clone, LabelHeap.make, LabelHeap.store.
    destruct (LabelHeap.ref_Labels pool); simpl;
      by rewrite !lookup_alter_ne, lookup_insert_ne.
  - subst res ls.
    unfold LabelHeap.podIPPoolLabelSet, LabelHeap.maps_Clone, LabelHeap.make, LabelHeap.store,
      podIPPoolLabelSet, LabelHeap.value, go_clone.
    destruct (LabelHeap.ref_Labels pool); simpl;
      by rewrite !lookup_alter_eq, lookup_insert_eq.
Qed.

(** ** Peers without an address, peers with a bad address *)

Section peer_address.
Context `{Env}.

Lemma getPodIPPoolPolicy_empty_address peer family pool advert lp :
  peer_Address peer = "" → getPodIPPoolPolicy peer family pool advert lp = retD (Ok None).
Proof. intros Ha. unfold getPodIPPoolPolicy. by rewrite decide_True. Qed.

Lemma getPodIPPoolPolicy_bad_address peer family pool advert lp e :
  peer_Address peer ≠ "" → ParseAddr (peer_Address peer) = Err e →
  getPodIPPoolPolicy peer family pool advert lp
    = retD (Err (Errorf_w "failed to parse peer address" e)).
Proof. intros Ha He. unfold getPodIPPoolPolicy. by rewrite decide_False, He. Qed.

Lemma getPodIPPoolPolicies_not_Ok p pool adverts lp peer fams fam ads advert e :
  (peer, fams) ∈ adverts → (fam, ads) ∈ fams → advert ∈ ads →
  getPodIPPoolPolicy peer (ToAgentFamily fam) pool advert lp = retD (Err e) →
  ∀ m lg, getPodIPPoolPolicies p pool adverts lp ≠ Some (Ok m, lg).
Proof.
  intros Hp Hf Ha Hbad m lg. unfold getPodIPPoolPolicies.
  rewrite bindD_try_Some_Ok. intros (a & l1 & l2 & Hloop & _).
  destruct (forD_Ok_all _ _ _ _ _ Hloop _ Hp) as (s1 & s2 & lg1 & Hfams).
  destruct (forD_Ok_all _ _ _ _ _ Hfams _ Hf) as (t1 & t2 & lg2 & Hads).
  destruct (forD_Ok_all _ _ _ _ _ Hads _ Ha) as (u1 & u2 & lg3 & Hone).
  rewrite Hbad, bindD_try_Err in Hone. done.
Qed.

Lemma getDesiredPodIPPoolRoutePolicies_not_Ok r p adverts lp pools pool :
  List (poolStore r) = Ok pools → pool ∈ pools →
  (∀ m lg, getPodIPPoolPolicies p pool adverts lp ≠ Some (Ok m, lg)) →
  ∀ m lg, getDesiredPodIPPoolRoutePolicies r p adverts lp ≠ Some (Ok m, lg).
Proof.
  intros HL Hpool Hbad m lg. unfold getDesiredPodIPPoolRoutePolicies.
  rewrite bindD_Some. intros (i & l1 & l2 & _ & Hrest & _).
  apply bindD_try_Some_Ok in Hrest as (d1 & l3 & l4 & _ & Hrest & _).
  rewrite HL in Hrest.
  apply bindD_try_Some_Ok in Hrest as (d2 & l5 & l6 & Hloop & _).
  destruct (forD_Ok_all _ _ _ _ _ Hloop _ Hpool) as (s1 & s2 & lg1 & Hone).
  apply bindD_try_Some_Ok in Hone as (v & l7 & l8 & Hv & _).
  by eapply Hbad.
Qed.

(** C9. A peer whose address is the empty string yields no policy and no
    error, for any pool, family and advertisement, and the policies of a
    pool are those computed without such peers.  A peer whose address is
    not empty and does not parse makes [getPodIPPoolPolicy] return an error
    that wraps the parse error; with one advertisement for such a peer the
    policies of a pool are not computed (the error is returned at once when
    that advertisement is the first), nor is the desired mapping as soon as
    the store lists a pool. *)
Theorem getPodIPPoolPolicy_peer_address (p : ReconcileParams) (lp : gomap string (list Prefix)) :
  (∀ peer family pool advert,
     peer_Address peer = "" →
     getPodIPPoolPolicy peer family pool advert lp = retD (Ok None)) ∧
  (∀ pool adverts,
     getPodIPPoolPolicies p pool adverts lp
     = getPodIPPoolPolicies p pool (filter (λ pa, peer_Address pa.1 ≠ "") adverts) lp) ∧
  (∀ peer family pool advert e,
     peer_Address peer ≠ "" → ParseAddr (peer_Address peer) = Err e →
     getPodIPPoolPolicy peer family pool advert lp
     = retD (Err (Errorf_w "failed to parse peer address" e))) ∧
  (∀ peer e pool fam advert ads fams rest,
     peer_Address peer ≠ "" → ParseAddr (peer_Address peer) = Err e →
     getPodIPPoolPolicies p pool ((peer, (fam, advert :: ads) :: fams) :: rest) lp
     = retD (Err (Errorf_w "failed to parse peer address" e))) ∧
  (∀ peer e pool adverts fams fam ads advert,
     peer_Address peer ≠ "" → ParseAddr (peer_Address peer) = Err e →
     (peer, fams) ∈ adverts → (fam, ads) ∈ fams → advert ∈ ads →
     (∀ m lg, getPodIPPoolPolicies p pool adverts lp ≠ Some (Ok m, lg)) ∧
     (∀ r pools, List (poolStore r) = Ok pools → pool ∈ pools →
        ∀ m lg, getDesiredPodIPPoolRoutePolicies r p adverts lp ≠ Some (Ok m, lg))).
Proof.
  split_and!.
  - intros. by apply getPodIPPoolPolicy_empty_address.
  - intros pool adverts. unfold getPodIPPoolPolicies. f_equal.
    apply (forD_filter (λ pa : PeerID * FamilyAdvertisements, peer_Address pa.1 ≠ "")).
    intros [peer fams] s _ Ha. simpl in Ha.
    apply dec_stable in Ha.
    apply forD_skip. intros [fam ads] s1 _.
    apply forD_skip. intros advert s2 _.
    by rewrite getPodIPPoolPolicy_empty_address, bindD_try_Ok.
  - intros. by apply getPodIPPoolPolicy_bad_address.
  - intros peer e pool fam advert ads fams rest Ha He.
    unfold getPodIPPoolPolicies. simpl.
    rewrite (getPodIPPoolPolicy_bad_address _ _ _ _ _ _ Ha He).
    by rewrite !bindD_try_Err.
  - intros peer e pool adverts fams fam ads advert Ha He Hp Hf Hadv.
    assert (∀ m lg, getPodIPPoolPolicies p pool adverts lp ≠ Some (Ok m, lg)) as Hno.
    { eapply getPodIPPoolPolicies_not_Ok; [done..|].
      by apply getPodIPPoolPolicy_bad_address. }
    split; [done|]. intros r pools HL Hpool.
    by eapply getDesiredPodIPPoolRoutePolicies_not_Ok.
Qed.

End peer_address.

(** ** Items that fail to parse or to convert *)

Section single_item_failures.
Context `{Env}.

(** The prefixes of the CIDR strings that parse, in their order, and the
    log lines of those that do not. *)
Definition parsedPrefixes (cidrs : list string) : list Prefix :=
  omap (λ cidr, match ToPrefix cidr with Ok p => Some p | Err _ => None end) cidrs.
Definition invalidCIDRLogs (cidrs : list string) : list LogEntry :=
  omap (λ cidr, match ToPrefix cidr with
                | Ok _ => None
                | Err err => Some (LogInvalidCIDR err cidr)
                end) cidrs.

Lemma populateLocalPools_cidrs cidrs prefixes :
  forD_ cidrs prefixes (λ cidr prefixes,
    match ToPrefix cidr with
    | Ok p => retD (prefixes ++ [p])
    | Err err => letD _ := logD (LogInvalidCIDR err cidr) in retD prefixes
    end)
  = Some (prefixes ++ parsedPrefixes cidrs, invalidCIDRLogs cidrs).
Proof.
  revert prefixes. induction cidrs as [|cidr cidrs IH]; intros prefixes; simpl.
  - unfold retD. by rewrite app_nil_r.
  - unfold parsedPrefixes, invalidCIDRLogs. simpl.
    destruct (ToPrefix cidr) as [q|err].
    + rewrite bindD_retD_l, IH. simpl. by rewrite <- app_assoc.
    + unfold bindD at 1. simpl. by rewrite IH.
Qed.

Lemma populateLocalPools_pools allocated (lp : gmap string (list Prefix)) :
  forD_ allocated lp (λ pool lp,
    letD prefixes :=
      forD_ (alloc_CIDRs pool) [] (λ cidr prefixes,
        match ToPrefix cidr with
        | Ok p => retD (prefixes ++ [p])
        | Err err => letD _ := logD (LogInvalidCIDR err cidr) in retD prefixes
        end) in
    retD (<[alloc_Pool pool := prefixes]> lp))
  = Some (fold_left (λ lp pool, <[alloc_Pool pool := parsedPrefixes (alloc_CIDRs pool)]> lp)
                    allocated lp,
          concat ((λ pool, invalidCIDRLogs (alloc_CIDRs pool)) <$> allocated)).
Proof.
  revert lp. induction allocated as [|pool allocated IH]; intros lp; simpl; [done|].
  rewrite populateLocalPools_cidrs. simpl.
  unfold bindD at 1. simpl. rewrite IH. by rewrite app_nil_r.
Qed.

Lemma populateLocalPools_spec node :
  populateLocalPools (Some node)
  = Some (GoMap (fold_left (λ lp pool, <[alloc_Pool pool := parsedPrefixes (alloc_CIDRs pool)]> lp)
                           (node_Allocated node) ∅),
          concat ((λ pool, invalidCIDRLogs (alloc_CIDRs pool)) <$> node_Allocated node)).
Proof.
  unfold populateLocalPools. rewrite populateLocalPools_pools.
  unfold bindD. simpl. by rewrite app_nil_r.
Qed.

Lemma fold_left_insert_lookup {A} (key : A → string) (val : A → list Prefix)
    (l : list A) (m : gmap string (list Prefix)) :
  (∀ k, k ∉ key <$> l →
     fold_left (λ m x, <[key x := val x]> m) l m !! k = m !! k) ∧
  (NoDup (key <$> l) → ∀ x, x ∈ l →
     fold_left (λ m x, <[key x := val x]> m) l m !! key x = Some (val x)).
Proof.
  revert m. induction l as [|y l IH]; intros m; simpl.
  - split; [done|]. intros _ x Hx. by apply elem_of_nil in Hx.
  - destruct (IH (<[key y := val y]> m)) as [IH1 IH2]. split.
    + intros k Hk. apply not_elem_of_cons in Hk as [Hky Hk].
      rewrite IH1 by done. by apply lookup_insert_ne.
    + intros Hnd x Hx. apply NoDup_cons in Hnd as [Hy Hnd].
      apply elem_of_cons in Hx as [->|Hx]; [|by apply IH2].
      rewrite IH1 by done. apply lookup_insert_eq.
Qed.

Lemma getDesiredAFPaths_total pool adverts lp :
  is_Some (getDesiredAFPaths pool adverts lp).
Proof.
  unfold getDesiredAFPaths, bindD_try.
  match goal with
  | |- is_Some (bindD ?m _) => assert (is_Some m) as [[[m'|e] lg] ->]
  end; [|by eexists..].
  apply forD_total. intros [peer fams] s _.
  apply forD_total. intros [fam ads] s1 _.
  apply forD_total. intros advert s2 _.
  repeat (case_match; try by eexists).
Qed.

Lemma getDesiredAFPaths_not_Ok pool adverts lp peer fams fam ads advert err :
  (peer, fams) ∈ adverts → (fam, ads) ∈ fams → advert ∈ ads →
  AdvertisementType advert = BGPCiliumPodIPPoolAdvert →
  LabelSelectorAsSelector (adv_Selector advert) = Err err →
  ∀ m lg, getDesiredAFPaths pool adverts lp ≠ Some (Ok m, lg).
Proof.
  intros Hp Hf Ha Hty Hsel m lg. unfold getDesiredAFPaths.
  rewrite bindD_try_Some_Ok. intros (a & l1 & l2 & Hloop & _).
  destruct (forD_Ok_all _ _ _ _ _ Hloop _ Hp) as (s1 & s2 & lg1 & Hfams).
  destruct (forD_Ok_all _ _ _ _ _ Hfams _ Hf) as (t1 & t2 & lg2 & Hads).
  destruct (forD_Ok_all _ _ _ _ _ Hads _ Ha) as (u1 & u2 & lg3 & Hone).
  rewrite decide_False, Hsel in Hone by (by intros ?). done.
Qed.

Lemma getDesiredPoolAFPaths_not_Ok r p adverts lp pools pool :
  List (poolStore r) = Ok pools → pool ∈ pools →
  (∀ m lg, getDesiredAFPaths pool adverts lp ≠ Some (Ok m, lg)) →
  ∀ m lg, getDesiredPoolAFPaths r p adverts lp ≠ Some (Ok m, lg).
Proof.
  intros HL Hpool Hbad m lg. unfold getDesiredPoolAFPaths.
  rewrite bindD_Some. intros (i & l1 & l2 & _ & Hrest & _).
  apply bindD_try_Some_Ok in Hrest as (d1 & l3 & l4 & _ & Hrest & _).
  rewrite HL in Hrest.
  apply bindD_try_Some_Ok in Hrest as (d2 & l5 & l6 & Hloop & _).
  destruct (forD_Ok_all _ _ _ _ _ Hloop _ Hpool) as (s1 & s2 & lg1 & Hone).
  apply bindD_try_Some_Ok in Hone as (v & l7 & l8 & Hv & _).
  by eapply Hbad.
Qed.

(** C7, as the code has it.  A CIDR string of the local node that fails to
    parse is logged and left out while the other prefixes of its pool are
    kept, and [populateLocalPools] never fails.  An advertisement whose
    label selector fails to convert is not skipped: [getDesiredAFPaths]
    returns an error (the conversion error, wrapped, when that
    advertisement is met first), and the desired paths are not computed as
    soon as the store lists a pool. *)
Theorem single_item_failures :
  (∀ node, ∃ lp,
     populateLocalPools (Some node)
     = Some (GoMap lp, concat ((λ pool, invalidCIDRLogs (alloc_CIDRs pool)) <$> node_Allocated node)) ∧
     (∀ name, name ∉ alloc_Pool <$> node_Allocated node → lp !! name = None) ∧
     (NoDup (alloc_Pool <$> node_Allocated node) →
      ∀ pool, pool ∈ node_Allocated node →
        lp !! alloc_Pool pool = Some (parsedPrefixes (alloc_CIDRs pool)))) ∧
  (∀ cidrs q, q ∈ parsedPrefixes cidrs ↔ ∃ cidr, cidr ∈ cidrs ∧ ToPrefix cidr = Ok q) ∧
  (∀ cidrs l, l ∈ invalidCIDRLogs cidrs ↔
     ∃ cidr err, cidr ∈ cidrs ∧ ToPrefix cidr = Err err ∧ l = LogInvalidCIDR err cidr) ∧
  (∀ pool lp peer fam advert ads fams rest err,
     AdvertisementType advert = BGPCiliumPodIPPoolAdvert →
     LabelSelectorAsSelector (adv_Selector advert) = Err err →
     getDesiredAFPaths pool ((peer, (fam, advert :: ads) :: fams) :: rest) lp
     = retD (Err (Errorf_w "failed to convert label selector" err))) ∧
  (∀ pool lp adverts peer fams fam ads advert err,
     (peer, fams) ∈ adverts → (fam, ads) ∈ fams → advert ∈ ads →
     AdvertisementType advert = BGPCiliumPodIPPoolAdvert →
     LabelSelectorAsSelector (adv_Selector advert) = Err err →
     (∃ e lg, getDesiredAFPaths pool adverts lp = Some (Err e, lg)) ∧
     (∀ r p pools, List (poolStore r) = Ok pools → pool ∈ pools →
        ∀ m lg, getDesiredPoolAFPaths r p adverts lp ≠ Some (Ok m, lg))).
Proof.
  split_and!.
  - intros node. eexists. split; [apply populateLocalPools_spec|].
    destruct (fold_left_insert_lookup alloc_Pool (λ pool, parsedPrefixes (alloc_CIDRs pool))
                (node_Allocated node) ∅) as [H1 H2].
    split; [|done]. intros name Hname. by rewrite H1.
  - intros cidrs q. unfold parsedPrefixes. rewrite list_elem_of_omap.
    split; intros (cidr & Hc & Hq); exists cidr; (split; [done|]);
      by destruct (ToPrefix cidr); simplify_eq.
  - intros cidrs l. unfold invalidCIDRLogs. rewrite list_elem_of_omap. split.
    + intros (cidr & Hc & Hq). destruct (ToPrefix cidr) as [|err] eqn:He; [done|].
      exists cidr, err. by simplify_eq.
    + intros (cidr & err & Hc & He & ->). exists cidr. by rewrite He.
  - intros pool lp peer fam advert ads fams rest err Hty Hsel.
    unfold getDesiredAFPaths. simpl.
    rewrite decide_False, Hsel by (by intros ?).
    by rewrite !bindD_try_Err.
  - intros pool lp adverts peer fams fam ads advert err Hp Hf Ha Hty Hsel.
    pose proof (getDesiredAFPaths_not_Ok pool adverts lp _ _ _ _ _ _ Hp Hf Ha Hty Hsel) as Hno.
    split.
    + destruct (getDesiredAFPaths_total pool adverts lp) as [[[m|e] lg] Hr]; [|by eauto].
      by apply Hno in Hr.
    + intros r p pools HL Hpool. by eapply getDesiredPoolAFPaths_not_Ok.
Qed.

End single_item_failures.

(** ** The desired mappings *)

(** The resource key of a pool. *)
Definition keyOf (pool : CiliumPodIPPool) : Key :=
  {| key_Name := pool_Name pool; key_Namespace := pool_Namespace pool |}.

(** The loop that marks the deleted pools: what the mapping holds after it. *)
Lemma mark_deleted_spec {U W} `{Countable W} {V}
    (get : Key → result (option CiliumPodIPPool))
    (fixerr : error → error) (l : list (Key * U)) (d0 d1 : gmap Key (gomap W V)) lg :
  forD l d0 (λ '(poolKey, _) d,
    match get poolKey with
    | Err err => retD (Err (fixerr err))
    | Ok None => retD (Ok (<[poolKey := GoNil]> d))
    | Ok (Some _) => retD (Ok d)
    end) = Some (Ok d1, lg) →
  lg = [] ∧
  (∀ k, k ∈ l.*1 → ∃ o, get k = Ok o) ∧
  (∀ k, k ∈ l.*1 → get k = Ok None → d1 !! k = Some GoNil) ∧
  (∀ k, ¬ (k ∈ l.*1 ∧ get k = Ok None) → d1 !! k = d0 !! k).
Proof.
  revert d0 lg. induction l as [|[k v] l IH]; intros d0 lg; simpl.
  - intros [= <- <-]. split_and!; [done| | |done]; intros k Hk; by apply elem_of_nil in Hk.
  - rewrite bindD_try_Some_Ok. intros (d & l1 & l2 & Hk & Hl & ->).
    destruct (IH _ _ Hl) as (-> & Hget & Hmark & Hkeep).
    assert (l1 = [] ∧ ((get k = Ok None ∧ d = <[k := GoNil]> d0) ∨
                       ((∃ x, get k = Ok (Some x)) ∧ d = d0))) as [-> Hcase].
    { unfold retD in Hk. destruct (get k) as [[x|]|e]; simplify_eq; eauto 10. }
    split_and!; [done| | |].
    + intros k' Hk'. apply elem_of_cons in Hk' as [->|Hk']; [|by apply Hget].
      destruct Hcase as [[-> _]|[[x ->] _]]; eauto.
    + intros k' Hk' Hnone.
      destruct (decide (k' ∈ l.*1)) as [Hin|Hnin]; [by apply Hmark|].
      apply elem_of_cons in Hk' as [->|Hk']; [|done].
      rewrite Hkeep by (by intros [? _]).
      destruct Hcase as [[_ ->]|[[x Hx] _]]; [apply lookup_insert_eq|congruence].
    + intros k' Hk'. rewrite Hkeep.
      * destruct Hcase as [[Hnone ->]|[_ ->]]; [|done].
        apply lookup_insert_ne. intros ->. apply Hk'. split; [by left|done].
      * intros [Hin Hnone]. apply Hk'. split; [by right|done].
Qed.

(** The loop over the listed pools: what the mapping holds after it. *)
Lemma insert_pools_spec {A V} (f : A → D (result V)) (key : A → Key)
    (l : list A) (d0 d : gmap Key V) lg :
  forD l d0 (λ x d, tryD v := f x in retD (Ok (<[key x := v]> d))) = Some (Ok d, lg) →
  (∀ k, k ∉ key <$> l → d !! k = d0 !! k) ∧
  (∀ x, x ∈ l → ∃ v lg', f x = Some (Ok v, lg')) ∧
  (NoDup (key <$> l) → ∀ x v lg', x ∈ l → f x = Some (Ok v, lg') → d !! key x = Some v).
Proof.
  revert d0 lg. induction l as [|y l IH]; intros d0 lg; simpl.
  - intros [= <- <-]. split_and!; [done| |]; [intros x Hx|intros _ x v lg' Hx]; by apply elem_of_nil in Hx.
  - rewrite bindD_try_Some_Ok. intros (d1 & l1 & l2 & Hy & Hl & ->).
    apply bindD_try_Some_Ok in Hy as (v & l3 & l4 & Hv & [= <- <-] & ->).
    destruct (IH _ _ Hl) as (Hout & Hall & Hin).
    split_and!.
    + intros k Hk. apply not_elem_of_cons in Hk as [Hky Hk].
      rewrite Hout by done. by apply lookup_insert_ne.
    + intros x Hx. apply elem_of_cons in Hx as [->|Hx]; eauto.
    + intros Hnd x v' lg' Hx Hfx. apply NoDup_cons in Hnd as [Hy Hnd].
      apply elem_of_cons in Hx as [->|Hx]; [|by eapply Hin].
      rewrite Hout by done. rewrite Hfx in Hv. simplify_eq. apply lookup_insert_eq.
Qed.

Section desired.
Context `{Env}.

(** No advertisement selects the pool. *)
Definition unmatched (pool : CiliumPodIPPool) (adverts : PeerAdvertisements) : Prop :=
  ∀ peer fams fam ads advert sel,
    (peer, fams) ∈ adverts → (fam, ads) ∈ fams → advert ∈ ads →
    LabelSelectorAsSelector (adv_Selector advert) = Ok sel →
    sel (podIPPoolLabelSet pool) = false.

Lemma getDesiredAFPaths_unmatched pool adverts lp m lg :
  unmatched pool adverts →
  getDesiredAFPaths pool adverts lp = Some (Ok m, lg) → m = GoMap ∅.
Proof.
  intros Hun. unfold getDesiredAFPaths. rewrite bindD_try_Some_Ok.
  intros (a & l1 & l2 & Hloop & [= <- <-] & ->). f_equal.
  apply (forD_Ok_inv (λ s, s = ∅) _ _ _ _ _ Hloop); [done|].
  intros [peer fams] s1 s2 lg1 Hp -> Hfams.
  apply (forD_Ok_inv (λ s, s = ∅) _ _ _ _ _ Hfams); [done|].
  intros [fam ads] t1 t2 lg2 Hf -> Hads.
  apply (forD_Ok_inv (λ s, s = ∅) _ _ _ _ _ Hads); [done|].
  intros advert u1 u2 lg3 Ha -> Hone.
  unfold bindD, logD, retD in Hone.
  destruct (decide _); [by simplify_eq|].
  destruct (LabelSelectorAsSelector _) as [sel|] eqn:Hsel; [|done].
  rewrite (Hun _ _ _ _ _ _ Hp Hf Ha Hsel) in Hone. simpl in Hone. by simplify_eq.
Qed.

Lemma getPodIPPoolPolicy_unmatched peer fams fam ads advert pool adverts lp o lg :
  unmatched pool adverts →
  (peer, fams) ∈ adverts → (fam, ads) ∈ fams → advert ∈ ads →
  getPodIPPoolPolicy peer (ToAgentFamily fam) pool advert lp = Some (Ok o, lg) → o = None.
Proof.
  intros Hun Hp Hf Ha. unfold getPodIPPoolPolicy, retD.
  destruct (decide _); [by intros; simplify_eq|].
  destruct (ParseAddr _); [|done].
  destruct (LabelSelectorAsSelector _) as [sel|] eqn:Hsel; [|done].
  rewrite (Hun _ _ _ _ _ _ Hp Hf Ha Hsel). simpl. by intros; simplify_eq.
Qed.

Lemma getPodIPPoolPolicies_unmatched p pool adverts lp m lg :
  unmatched pool adverts →
  getPodIPPoolPolicies p pool adverts lp = Some (Ok m, lg) → m = GoMap ∅.
Proof.
  intros Hun. unfold getPodIPPoolPolicies. rewrite bindD_try_Some_Ok.
  intros (a & l1 & l2 & Hloop & [= <- <-] & ->). f_equal.
  apply (forD_Ok_inv (λ s, s = ∅) _ _ _ _ _ Hloop); [done|].
  intros [peer fams] s1 s2 lg1 Hp -> Hfams.
  apply (forD_Ok_inv (λ s, s = ∅) _ _ _ _ _ Hfams); [done|].
  intros [fam ads] t1 t2 lg2 Hf -> Hads.
  apply (forD_Ok_inv (λ s, s = ∅) _ _ _ _ _ Hads); [done|].
  intros advert u1 u2 lg3 Ha -> Hone.
  apply bindD_try_Some_Ok in Hone as (o & l3 & l4 & Ho & Hret & _).
  apply (getPodIPPoolPolicy_unmatched _ _ _ _ _ _ _ _ _ _ Hun Hp Hf Ha) in Ho as ->.
  unfold retD in Hret. by simplify_eq.
Qed.

(** The two derivations, taken apart. *)
Lemma getDesiredPoolAFPaths_Ok r p adverts lp m lg :
  getDesiredPoolAFPaths r p adverts lp = Some (Ok m, lg) →
  ∃ i d1 pools d2 lg2,
    p_BGPInstance p = Some i ∧
    forD (range (PoolAFPaths (getMetadata r i))) (∅ : gmap Key AFPathsMap)
      (λ '(poolKey, _) d,
        match GetByKey (poolStore r) poolKey with
        | Err err => retD (Err (if errors_Is err ErrStoreUninitialized
                                then joinError2 err ErrAbortReconcile else err))
        | Ok None => retD (Ok (<[poolKey := GoNil]> d))
        | Ok (Some _) => retD (Ok d)
        end) = Some (Ok d1, []) ∧
    List (poolStore r) = Ok pools ∧
    forD pools d1 (λ pool d,
      tryD v := getDesiredAFPaths pool adverts lp in retD (Ok (<[keyOf pool := v]> d)))
      = Some (Ok d2, lg2) ∧
    m = GoMap d2 ∧ lg = lg2.
Proof.
  unfold getDesiredPoolAFPaths. rewrite bindD_Some.
  intros (i & l1 & l2 & Hi & Hrest & ->).
  unfold derefD, retD, panicD in Hi.
  destruct (p_BGPInstance p) as [i'|]; [|done]. simplify_eq.
  apply bindD_try_Some_Ok in Hrest as (d1 & l3 & l4 & Hmark & Hrest & ->).
  destruct (mark_deleted_spec _ (λ err, if errors_Is err ErrStoreUninitialized
              then joinError2 err ErrAbortReconcile else err) _ _ _ _ Hmark) as (-> & _).
  destruct (List (poolStore r)) as [pools|] eqn:HL; [|done].
  apply bindD_try_Some_Ok in Hrest as (d2 & l5 & l6 & Hloop & [= <- <-] & ->).
  exists i, d1, pools, d2, l5. by rewrite app_nil_r.
Qed.

Lemma getDesiredPodIPPoolRoutePolicies_Ok r p adverts lp m lg :
  getDesiredPodIPPoolRoutePolicies r p adverts lp = Some (Ok m, lg) →
  ∃ i d1 pools d2 lg2,
    p_BGPInstance p = Some i ∧
    forD (range (PoolRoutePolicies (getMetadata r i))) (∅ : gmap Key RoutePolicyMap)
      (λ '(poolKey, _) d,
        match GetByKey (poolStore r) poolKey with
        | Err err => retD (Err err)
        | Ok None => retD (Ok (<[poolKey := GoNil]> d))
        | Ok (Some _) => retD (Ok d)
        end) = Some (Ok d1, []) ∧
    List (poolStore r) = Ok pools ∧
    forD pools d1 (λ pool d,
      tryD v := getPodIPPoolPolicies p pool adverts lp in retD (Ok (<[keyOf pool := v]> d)))
      = Some (Ok d2, lg2) ∧
    m = GoMap d2 ∧ lg = lg2.
Proof.
  unfold getDesiredPodIPPoolRoutePolicies. rewrite bindD_Some.
  intros (i & l1 & l2 & Hi & Hrest & ->).
  unfold derefD, retD, panicD in Hi.
  destruct (p_BGPInstance p) as [i'|]; [|done]. simplify_eq.
  apply bindD_try_Some_Ok in Hrest as (d1 & l3 & l4 & Hmark & Hrest & ->).
  destruct (mark_deleted_spec _ (λ err, err) _ _ _ _ Hmark) as (-> & _).
  destruct (List (poolStore r)) as [pools|] eqn:HL; [|done].
  apply bindD_try_Some_Ok in Hrest as (d2 & l5 & l6 & Hloop & [= <- <-] & ->).
  exists i, d1, pools, d2, l5. by rewrite app_nil_r.
Qed.

End desired.

Section desired_entries.
Context `{Env}.

Lemma elem_of_range_keys {V} (m : gomap Key V) k :
  k ∈ (range m).*1 ↔ is_Some (go_lookup m k).
Proof.
  unfold go_lookup. rewrite list_elem_of_fmap. split.
  - intros ([k' v] & -> & Hin). apply elem_of_range in Hin. by eexists.
  - intros [v Hv]. exists (k, v). split; [done|]. by apply elem_of_range.
Qed.

(** C6. A resource key of the retained metadata whose pool the store no
    longer has ([GetByKey] reports that it does not exist, [List] does not
    return it) is mapped to nil, not left out, in the desired paths and in
    the desired route policies. *)
Theorem deleted_pool_mapped_to_nil (r : PodIPPoolReconciler) (p : ReconcileParams)
    (adverts : PeerAdvertisements) (lp : gomap string (list Prefix))
    (i : BGPInstance) (k : Key) :
  p_BGPInstance p = Some i →
  GetByKey (poolStore r) k = Ok None →
  (∀ pools pool, List (poolStore r) = Ok pools → pool ∈ pools → keyOf pool ≠ k) →
  (is_Some (go_lookup (PoolAFPaths (getMetadata r i)) k) →
   ∀ m lg, getDesiredPoolAFPaths r p adverts lp = Some (Ok m, lg) →
           go_lookup m k = Some GoNil) ∧
  (is_Some (go_lookup (PoolRoutePolicies (getMetadata r i)) k) →
   ∀ m lg, getDesiredPodIPPoolRoutePolicies r p adverts lp = Some (Ok m, lg) →
           go_lookup m k = Some GoNil).
Proof.
  intros Hi Hget Hlist. split; intros Hk m lg Hm.
  - apply getDesiredPoolAFPaths_Ok in Hm
      as (i' & d1 & pools & d2 & lg2 & Hi' & Hmark & HL & Hloop & -> & ->).
    rewrite Hi in Hi'. simplify_eq.
    apply (mark_deleted_spec _ (λ err, if errors_Is err ErrStoreUninitialized
             then joinError2 err ErrAbortReconcile else err)) in Hmark
      as (_ & _ & Hmarked & _).
    apply insert_pools_spec in Hloop as (Hout & _).
    unfold go_lookup. simpl. rewrite Hout.
    + apply Hmarked; [by apply elem_of_range_keys|done].
    + intros (pool & -> & Hpool)%list_elem_of_fmap. by eapply Hlist.
  - apply getDesiredPodIPPoolRoutePolicies_Ok in Hm
      as (i' & d1 & pools & d2 & lg2 & Hi' & Hmark & HL & Hloop & -> & ->).
    rewrite Hi in Hi'. simplify_eq.
    apply (mark_deleted_spec _ (λ err, err)) in Hmark as (_ & _ & Hmarked & _).
    apply insert_pools_spec in Hloop as (Hout & _).
    unfold go_lookup. simpl. rewrite Hout.
    + apply Hmarked; [by apply elem_of_range_keys|done].
    + intros (pool & -> & Hpool)%list_elem_of_fmap. by eapply Hlist.
Qed.

(** C5, as the code has it.  A pool that the store returns and that no
    advertisement selects has an entry in the desired paths and in the
    desired route policies: its resource key is mapped to an empty mapping
    that is not nil. *)
Theorem unmatched_pool_empty_entry (r : PodIPPoolReconciler) (p : ReconcileParams)
    (adverts : PeerAdvertisements) (lp : gomap string (list Prefix))
    (pools : list CiliumPodIPPool) (pool : CiliumPodIPPool) :
  List (poolStore r) = Ok pools → pool ∈ pools → NoDup (keyOf <$> pools) →
  unmatched pool adverts →
  (∀ m lg, getDesiredPoolAFPaths r p adverts lp = Some (Ok m, lg) →
           go_lookup m (keyOf pool) = Some (GoMap ∅)) ∧
  (∀ m lg, getDesiredPodIPPoolRoutePolicies r p adverts lp = Some (Ok m, lg) →
           go_lookup m (keyOf pool) = Some (GoMap ∅)).
Proof.
  intros HL Hpool Hnd Hun. split; intros m lg Hm.
  - apply getDesiredPoolAFPaths_Ok in Hm
      as (i' & d1 & pools' & d2 & lg2 & Hi' & Hmark & HL' & Hloop & -> & ->).
    rewrite HL in HL'. simplify_eq.
    apply insert_pools_spec in Hloop as (_ & Hall & Hin).
    destruct (Hall _ Hpool) as (v & lg' & Hv).
    unfold go_lookup. simpl. rewrite (Hin Hnd _ _ _ Hpool Hv).
    by rewrite (getDesiredAFPaths_unmatched _ _ _ _ _ Hun Hv).
  - apply getDesiredPodIPPoolRoutePolicies_Ok in Hm
      as (i' & d1 & pools' & d2 & lg2 & Hi' & Hmark & HL' & Hloop & -> & ->).
    rewrite HL in HL'. simplify_eq.
    apply insert_pools_spec in Hloop as (_ & Hall & Hin).
    destruct (Hall _ Hpool) as (v & lg' & Hv).
    unfold go_lookup. simpl. rewrite (Hin Hnd _ _ _ Hpool Hv).
    by rewrite (getPodIPPoolPolicies_unmatched _ _ _ _ _ _ Hun Hv).
Qed.

End desired_entries.

(** ** The diff and apply loop, once for both engines *)

Lemma diff_apply {K} `{Countable K} {V} `{EqDecision V} (c d : gmap K V) :
  apply_delta (diff_remove c d) (diff_add c d) c = d.
Proof.
  apply map_eq. intros k. unfold apply_delta, diff_remove, diff_add.
  destruct (d !! k) as [v|] eqn:Hd.
  - destruct (decide (c !! k = Some v)) as [Hc|Hc].
    + apply lookup_union_Some_raw. right. split.
      * apply map_lookup_filter_None. right. intros v' Hv' Hne. simpl in *. congruence.
      * apply lookup_difference_Some. split; [done|].
        apply map_lookup_filter_None. right. intros v' Hv' Hne. simpl in *. congruence.
    + apply lookup_union_Some_raw. left.
      apply map_lookup_filter_Some. done.
  - apply lookup_union_None. split.
    + apply map_lookup_filter_None. by left.
    + apply lookup_difference_None. destruct (c !! k) as [v'|] eqn:Hc; [|by left].
      right. exists v'. apply map_lookup_filter_Some. split; [done|]. simpl. congruence.
Qed.

Lemma errors_Is_unfold e t :
  errors_Is e t =
  if decide (e = t) then true
  else match e with
       | Errorf_w _ e' => errors_Is e' t
       | joinError1 e1 => errors_Is e1 t
       | joinError2 e1 e2 => errors_Is e1 t || errors_Is e2 t
       | _ => false
       end.
Proof. by destruct e. Qed.

Lemma errors_Is_refl e : errors_Is e e = true.
Proof. by rewrite errors_Is_unfold, decide_True. Qed.

Lemma errors_Is_joinError1 e t : errors_Is e t = true → errors_Is (joinError1 e) t = true.
Proof. intros He. rewrite errors_Is_unfold. by destruct (decide _). Qed.

Lemma errors_Is_joinError2_l e1 e2 t :
  errors_Is e1 t = true → errors_Is (joinError2 e1 e2) t = true.
Proof. intros He. rewrite errors_Is_unfold. destruct (decide _); [done|]. by rewrite He. Qed.

Lemma errors_Is_joinError2_r e1 e2 t :
  errors_Is e2 t = true → errors_Is (joinError2 e1 e2) t = true.
Proof.
  intros He. rewrite errors_Is_unfold. destruct (decide _); [done|].
  rewrite He. apply orb_true_r.
Qed.

Lemma errors_Join_None a b : errors_Join a b = None → a = None ∧ b = None.
Proof. by destruct a, b. Qed.

Lemma errors_Join_l a b e t :
  a = Some e → errors_Is e t = true → ∃ e', errors_Join a b = Some e' ∧ errors_Is e' t = true.
Proof.
  intros -> He. destruct b; simpl; eexists; (split; [done|]).
  - by apply errors_Is_joinError2_l.
  - by apply errors_Is_joinError1.
Qed.

Lemma errors_Join_r a e t :
  errors_Is e t = true → ∃ e', errors_Join a (Some e) = Some e' ∧ errors_Is e' t = true.
Proof.
  intros He. destruct a; simpl; eexists; (split; [done|]).
  - by apply errors_Is_joinError2_r.
  - by apply errors_Is_joinError1.
Qed.

Lemma bindM_Some {A B} (m : M A) (k : A → M B) w b w' :
  bindM m k w = Some (b, w') ↔ ∃ a w1, m w = Some (a, w1) ∧ k a w1 = Some (b, w').
Proof.
  unfold bindM. split.
  - destruct (m w) as [[a w1]|]; [|done]. eauto.
  - intros (a & w1 & -> & Hk). done.
Qed.

(** ** What has been pushed to a router

    The state a router holds for a resource key is what its successful calls
    for that key add up to; a failed call leaves it as it was. *)
Definition policyDelta_of (d : RouterDelta)
    : option (gmap string RoutePolicy * gmap string RoutePolicy) :=
  match d with PolicyDelta r a => Some (r, a) | PathDelta _ _ => None end.
Definition pathDelta_of (d : RouterDelta)
    : option (gmap (Family * Prefix) Path * gmap (Family * Prefix) Path) :=
  match d with PathDelta r a => Some (r, a) | PolicyDelta _ _ => None end.

Section pushed.
Context {KV : Type} `{Countable KV} {V : Type}.
Variable getDelta : RouterDelta → option (gmap KV V * gmap KV V).

Definition replay_step (k : Key) (s : gmap KV V) (ca : RouterCall * option error) : gmap KV V :=
  match ca.2, getDelta (call_delta ca.1) with
  | None, Some (rem, add) =>
      if decide (call_key ca.1 = k) then apply_delta rem add s else s
  | _, _ => s
  end.

Definition pushed (calls : list (RouterCall * option error)) (k : Key) : gmap KV V :=
  fold_left (replay_step k) calls ∅.

Lemma pushed_app calls new k :
  pushed (calls ++ new) k = fold_left (replay_step k) new (pushed calls k).
Proof. unfold pushed. by rewrite fold_left_app. Qed.

Lemma replay_filter k new s :
  fold_left (replay_step k) new s
  = fold_left (replay_step k)
      (filter (λ ca : RouterCall * option error, call_key ca.1 = k) new) s.
Proof.
  revert s. induction new as [|ca new IH]; intros s; [done|]. simpl.
  destruct (decide (call_key ca.1 = k)) as [Hk|Hk].
  - rewrite filter_cons_True by done. simpl. apply IH.
  - rewrite filter_cons_False by done. rewrite <- IH. f_equal.
    unfold replay_step. destruct ca.2; [done|].
    destruct (getDelta _) as [[rem add]|]; [|done]. by rewrite decide_False.
Qed.

Lemma replay_no_success k new s :
  (∀ ca, ca ∈ new → call_key ca.1 = k → ca.2 ≠ None) →
  fold_left (replay_step k) new s = s.
Proof.
  revert s. induction new as [|ca new IH]; intros s Hno; [done|]. simpl.
  rewrite IH by (intros; apply Hno; [by right|done]).
  unfold replay_step. destruct ca.2 eqn:Hans; [done|].
  destruct (getDelta _) as [[rem add]|]; [|done].
  destruct (decide _) as [Hk|]; [|done]. exfalso. by apply (Hno ca); [left|..].
Qed.

Lemma replay_other_kind k new s :
  (∀ ca, ca ∈ new → getDelta (call_delta ca.1) = None) →
  fold_left (replay_step k) new s = s.
Proof.
  revert s. induction new as [|ca new IH]; intros s Hno; [done|]. simpl.
  rewrite IH by (intros; apply Hno; by right).
  unfold replay_step. rewrite (Hno ca) by (by left). by destruct ca.2.
Qed.
End pushed.

Section engine.
Context `{Env} {KV : Type} `{Countable KV} {V : Type} `{EqDecision V} {P : Type}.
Variable pre : M P.
Variable mkDelta : gmap KV V → gmap KV V → RouterDelta.
Variable getDelta : RouterDelta → option (gmap KV V * gmap KV V).
Variable i : BGPInstance.
Hypothesis getDelta_mkDelta : ∀ r a, getDelta (mkDelta r a) = Some (r, a).
Hypothesis pre_pure : ∀ w x w', pre w = Some (x, w') → w' = w.

(** The shape the two per-key operations share. *)
Definition applyOne (k : Key) (Desired Current : gomap KV V)
    : M (gomap KV V * option error) :=
  let d := content Desired in
  let c := content Current in
  if decide (d = c) then retM (Current, None)
  else
    letM rErr := callRouter i {| call_key := k;
                                 call_delta := mkDelta (diff_remove c d) (diff_add c d) |} in
    match rErr with
    | None => retM (GoMap d, None)
    | Some err => retM (Current, Some err)
    end.

(** The shape the bodies of the two loops share. *)
Definition engineBody : Key * gomap KV V → gomap Key (gomap KV V) * option error →
    M (gomap Key (gomap KV V) * option error) :=
  λ '(k, desired) '(m, err),
    let '(current, exists_) :=
      match go_lookup m k with
      | Some c => (c, true)
      | None => (GoNil, false)
      end in
    if negb exists_ && bool_decide (go_len desired = 0) then retM (m, err)
    else
      letM _ := pre in
      letM (updated, rErr) := applyOne k desired current in
      letM m :=
        if bool_decide (rErr = None) && bool_decide (go_len desired = 0)
        then retM (go_delete m k)
        else derefM (go_store m k updated) in
      retM (m, errors_Join err rErr).

(** The world [w'] is the world [w] after the calls [new] to the router of
    the instance. *)
Definition after_calls (w : World) (new : list (RouterCall * option error)) (w' : World) : Prop :=
  w_r w' = w_r w ∧ w_log w' = w_log w ∧
  (∀ n, n ≠ inst_Name i → w_routers w' n = w_routers w n) ∧
  router_calls (w_routers w' (inst_Name i))
    = router_calls (w_routers w (inst_Name i)) ++ new ∧
  router_answer (w_routers w' (inst_Name i)) = router_answer (w_routers w (inst_Name i)).

Lemma after_calls_refl w : after_calls w [] w.
Proof. unfold after_calls. by rewrite app_nil_r. Qed.

Lemma after_calls_trans w w1 w2 n1 n2 :
  after_calls w n1 w1 → after_calls w1 n2 w2 → after_calls w (n1 ++ n2) w2.
Proof.
  intros (Hr1 & Hl1 & Ho1 & Hc1 & Ha1) (Hr2 & Hl2 & Ho2 & Hc2 & Ha2).
  unfold after_calls. split_and!; try congruence.
  - intros n Hn. rewrite Ho2, Ho1 by done. done.
  - rewrite Hc2, Hc1. by rewrite app_assoc.
Qed.

Definition mkCall (k : Key) (c d : gmap KV V) : RouterCall :=
  {| call_key := k; call_delta := mkDelta (diff_remove c d) (diff_add c d) |}.

Lemma callRouter_spec c w :
  ∃ w', callRouter i c w
        = Some (router_answer (w_routers w (inst_Name i))
                              (router_calls (w_routers w (inst_Name i))) c, w') ∧
        after_calls w [(c, router_answer (w_routers w (inst_Name i))
                              (router_calls (w_routers w (inst_Name i))) c)] w'.
Proof.
  eexists. split; [reflexivity|]. unfold after_calls. simpl.
  split_and!; try done.
  - intros n Hn. by rewrite fn_lookup_insert_ne.
  - by rewrite fn_lookup_insert.
  - by rewrite fn_lookup_insert.
Qed.

(** What one per-key operation does: nothing when the contents agree, one
    call otherwise, and the value it returns. *)
Lemma applyOne_spec k d c w :
  (content d = content c ∧ applyOne k d c w = Some ((c, None), w)) ∨
  (content d ≠ content c ∧
   ∃ w', let ans := router_answer (w_routers w (inst_Name i))
                      (router_calls (w_routers w (inst_Name i)))
                      (mkCall k (content c) (content d)) in
     applyOne k d c w
       = Some ((match ans with None => GoMap (content d) | Some _ => c end, ans), w') ∧
     after_calls w [(mkCall k (content c) (content d), ans)] w').
Proof.
  unfold applyOne. destruct (decide (content d = content c)) as [Heq|Hne]; [by left|].
  right. split; [done|].
  destruct (callRouter_spec (mkCall k (content c) (content d)) w) as (w' & Hcall & Hafter).
  exists w'. simpl. split; [|done].
  unfold bindM. fold (mkCall k (content c) (content d)). rewrite Hcall.
  by destruct (router_answer _ _ _).
Qed.

(** The joined error keeps what it already held. *)
Definition includes (err err' : option error) : Prop :=
  ∀ e t, err = Some e → errors_Is e t = true → ∃ e', err' = Some e' ∧ errors_Is e' t = true.

Lemma includes_refl err : includes err err.
Proof. intros e t -> He. eauto. Qed.

Lemma includes_trans a b c : includes a b → includes b c → includes a c.
Proof. intros Hab Hbc e t Ha He. destruct (Hab e t Ha He) as (e' & Hb & He'). eauto. Qed.

Lemma includes_Join err rErr : includes err (errors_Join err rErr).
Proof. intros e t He Ht. by eapply errors_Join_l. Qed.

Lemma filter_key_nil (k : Key) (new : list (RouterCall * option error)) :
  (∀ ca, ca ∈ new → call_key ca.1 ≠ k) →
  filter (λ ca : RouterCall * option error, call_key ca.1 = k) new = [].
Proof.
  induction new as [|ca new IH]; intros Hne; [done|].
  rewrite filter_cons_False by (apply Hne; by left).
  apply IH. intros; apply Hne. by right.
Qed.

Lemma go_lookup_go_delete (m : gomap Key (gomap KV V)) k k' :
  go_lookup (go_delete m k) k' = if decide (k = k') then None else go_lookup m k'.
Proof.
  unfold go_lookup. rewrite content_go_delete.
  destruct (decide (k = k')) as [->|Hne];
    [apply lookup_delete_eq|by apply lookup_delete_ne].
Qed.

Lemma go_lookup_go_store (m m' : gomap Key (gomap KV V)) k v k' :
  go_store m k v = Some m' →
  go_lookup m' k' = if decide (k = k') then Some v else go_lookup m k'.
Proof.
  intros Hst. unfold go_lookup. rewrite (content_go_store _ _ _ _ Hst).
  destruct (decide (k = k')) as [->|Hne];
    [apply lookup_insert_eq|by apply lookup_insert_ne].
Qed.

Lemma go_len_bool (d : gomap KV V) :
  bool_decide (go_len d = 0) = bool_decide (content d = ∅).
Proof. apply bool_decide_ext, go_len_0. Qed.

Lemma engine_update_spec (m : gomap Key (gomap KV V)) k (updated : gomap KV V)
    (b : bool) w m2 w2 :
  (if b then retM (go_delete m k) else derefM (go_store m k updated)) w = Some (m2, w2) →
  w2 = w ∧
  (∀ k', k' ≠ k → go_lookup m2 k' = go_lookup m k') ∧
  go_lookup m2 k = if b then None else Some updated.
Proof.
  destruct b.
  - unfold retM. intros [= <- <-]. split_and!; [done| |].
    + intros k' Hk'. rewrite go_lookup_go_delete. by rewrite decide_False.
    + rewrite go_lookup_go_delete. by rewrite decide_True.
  - unfold derefM. destruct (go_store m k updated) as [m3|] eqn:Hst; [|done].
    intros [= <- <-]. split_and!; [done| |].
    + intros k' Hk'. rewrite (go_lookup_go_store _ _ _ _ _ Hst). by rewrite decide_False.
    + rewrite (go_lookup_go_store _ _ _ _ _ Hst). by rewrite decide_True.
Qed.

(** An iteration that is not skipped. *)
Lemma engine_apply_spec (b : bool) k d cur m err w m' err' w' :
  b = bool_decide (content d = ∅) →
  (letM _ := pre in
   letM (updated, rErr) := applyOne k d cur in
   letM m :=
     if bool_decide (rErr = None) && b
     then retM (go_delete m k)
     else derefM (go_store m k updated) in
   retM (m, errors_Join err rErr)) w = Some ((m', err'), w') →
  (∀ k', k' ≠ k → go_lookup m' k' = go_lookup m k') ∧
  ((content d = content cur ∧ w' = w ∧ err' = errors_Join err None ∧
    go_lookup m' k = (if decide (content d = ∅) then None else Some cur)) ∨
   (content d ≠ content cur ∧
    ∃ ans, after_calls w [(mkCall k (content cur) (content d), ans)] w' ∧
           err' = errors_Join err ans ∧
           go_lookup m' k =
             match ans with
             | None => if decide (content d = ∅) then None else Some (GoMap (content d))
             | Some _ => Some cur
             end)).
Proof.
  intros -> Hbody.
  apply bindM_Some in Hbody as (x & w1 & Hpre & Hbody).
  apply pre_pure in Hpre as ->.
  apply bindM_Some in Hbody as ([updated rErr] & w2 & Happly & Hbody).
  apply bindM_Some in Hbody as (m2 & w3 & Hupd & Hret).
  unfold retM in Hret. simplify_eq.
  apply engine_update_spec in Hupd as (-> & Hframe & Hk).
  split; [done|].
  destruct (applyOne_spec k d cur w)
    as [[Heq Hsame]|[Hne (w2' & Hcall & Hafter)]].
  - rewrite Hsame in Happly. simplify_eq. left. split_and!; [done..|].
    rewrite Hk. simpl. by destruct (bool_decide_reflect (content d = ∅)); simplify_option_eq.
  - rewrite Hcall in Happly. simplify_eq. right. split; [done|].
    eexists. split_and!; [exact Hafter|done|].
    rewrite Hk. destruct (router_answer _ _ _); simpl; [done|].
    by destruct (bool_decide_reflect (content d = ∅)); simplify_option_eq.
Qed.

(** One iteration. *)
Lemma engineBody_spec k d m err w m' err' w' :
  engineBody (k, d) (m, err) w = Some ((m', err'), w') →
  let cur := default GoNil (go_lookup m k) in
  (∀ k', k' ≠ k → go_lookup m' k' = go_lookup m k') ∧
  ((content d = content cur ∧ w' = w ∧ (err' = err ∨ err' = errors_Join err None) ∧
    go_lookup m' k = (if decide (content d = ∅) then None else Some cur)) ∨
   (content d ≠ content cur ∧
    ∃ ans, after_calls w [(mkCall k (content cur) (content d), ans)] w' ∧
           err' = errors_Join err ans ∧
           go_lookup m' k =
             match ans with
             | None => if decide (content d = ∅) then None else Some (GoMap (content d))
             | Some _ => Some cur
             end)).
Proof.
  intros Hbody cur. unfold engineBody in Hbody. rewrite go_len_bool in Hbody.
  subst cur. destruct (go_lookup m k) as [c|] eqn:Hlook; simpl in *.
  - apply (engine_apply_spec _ _ _ _ _ _ _ _ _ _ eq_refl) in Hbody
      as (Hframe & [(?&?&?&?)|?]); split; eauto 10.
  - destruct (bool_decide (content d = ∅)) eqn:Hb; simpl in Hbody.
    + apply bool_decide_eq_true in Hb.
      unfold retM in Hbody. simplify_eq. split; [done|]. left.
      rewrite decide_True by done. split_and!; eauto.
    + apply (engine_apply_spec _ _ _ _ _ _ _ _ _ _ (eq_sym Hb)) in Hbody
        as (Hframe & [(?&?&?&?)|?]); split; eauto 10.
Qed.

(** What the loop did for one entry of the desired mapping: nothing but
    tidying when the contents agreed, one call otherwise; after a
    successful call the retained value is the desired one (no entry for an
    empty one), after a failed call it is the value from before and the
    joined error holds the failure. *)
Definition outcome (m0 m' : gomap Key (gomap KV V)) (new : list (RouterCall * option error))
    (err' : option error) (k : Key) (d : gomap KV V) : Prop :=
  let cur := default GoNil (go_lookup m0 k) in
  let mine := filter (λ ca : RouterCall * option error, call_key ca.1 = k) new in
  (content d = content cur ∧ mine = [] ∧
   go_lookup m' k = (if decide (content d = ∅) then None else Some cur)) ∨
  (content d ≠ content cur ∧
   ∃ ans, mine = [(mkCall k (content cur) (content d), ans)] ∧
     match ans with
     | None =>
         go_lookup m' k = (if decide (content d = ∅) then None else Some (GoMap (content d)))
     | Some e =>
         go_lookup m' k = Some cur ∧ ∃ e', err' = Some e' ∧ errors_Is e' e = true
     end).

Lemma engine_loop_spec l m0 err0 w0 m' err' w' :
  NoDup l.*1 →
  forM_ l (m0, err0) engineBody w0 = Some ((m', err'), w') →
  ∃ new,
    after_calls w0 new w' ∧
    (∀ k, k ∉ l.*1 → go_lookup m' k = go_lookup m0 k) ∧
    (∀ ca, ca ∈ new → call_key ca.1 ∈ l.*1) ∧
    (err' = None → err0 = None ∧ ∀ ca, ca ∈ new → ca.2 = None) ∧
    (err0 = None → (∀ ca, ca ∈ new → ca.2 = None) → err' = None) ∧
    includes err0 err' ∧
    (∀ k d, (k, d) ∈ l → outcome m0 m' new err' k d).
Proof.
  revert m0 err0 w0. induction l as [|[k0 d0] l IH]; intros m0 err0 w0 Hnd; simpl.
  - intros [= <- <- <-]. exists []. split_and!.
    + apply after_calls_refl.
    + done.
    + intros ca Hca. by apply elem_of_nil in Hca.
    + intros ->. split; [done|]. intros ca Hca. by apply elem_of_nil in Hca.
    + done.
    + apply includes_refl.
    + intros k d Hkd. by apply elem_of_nil in Hkd.
  - intros Hrun. apply bindM_Some in Hrun as ([m1 err1] & w1 & Hbody & Hrest).
    apply NoDup_cons in Hnd as [Hk0 Hnd].
    destruct (IH _ _ _ Hnd Hrest) as (new2 & Hafter2 & Hframe2 & Hkeys2 & Hnone2 & Hok2 & Hinc2 & Hout2).
    apply engineBody_spec in Hbody as (Hframe1 & Hcase).
    assert (filter (λ ca : RouterCall * option error, call_key ca.1 = k0) new2 = []) as Hf2.
    { apply filter_key_nil. intros ca Hca Heq. apply Hk0. rewrite <- Heq. by apply Hkeys2. }
    assert (∀ k d, (k, d) ∈ l → k ≠ k0) as Hne.
    { intros k d Hkd ->. apply Hk0. apply list_elem_of_fmap. by exists (k0, d). }
    destruct Hcase as [(Heq & -> & Herr1 & Hlook1)|(Hneq & ans & Hafter1 & -> & Hlook1)].
    + (* no call for the first entry *)
      exists new2. split_and!; [done| | | | | |].
      * intros k Hk. apply not_elem_of_cons in Hk as [Hkk0 Hk].
        rewrite Hframe2 by done. by apply Hframe1.
      * intros ca Hca. right. by apply Hkeys2.
      * intros Herr'. destruct (Hnone2 Herr') as [H1 H2]. split; [|done].
        destruct Herr1 as [->| ->]; [done|]. by apply errors_Join_None in H1 as [? _].
      * intros -> Hall. apply Hok2; [|done]. by destruct Herr1 as [->| ->].
      * eapply includes_trans; [|exact Hinc2].
        destruct Herr1 as [->| ->]; [apply includes_refl|apply includes_Join].
      * intros k d Hkd. apply elem_of_cons in Hkd as [[= -> ->]|Hkd].
        -- left. split; [done|]. split; [done|]. rewrite Hframe2 by done. done.
        -- specialize (Hout2 k d Hkd). unfold outcome in *.
           rewrite Hframe1 in Hout2 by (by eapply Hne). done.
    + (* one call for the first entry *)
      set (call := (mkCall k0 (content (default GoNil (go_lookup m0 k0))) (content d0), ans)) in *.
      exists (call :: new2). split_and!.
      * by apply (after_calls_trans _ w1 _ [call] new2).
      * intros k Hk. apply not_elem_of_cons in Hk as [Hkk0 Hk].
        rewrite Hframe2 by done. by apply Hframe1.
      * intros ca Hca. apply elem_of_cons in Hca as [->|Hca]; [by left|].
        right. by apply Hkeys2.
      * intros Herr'. destruct (Hnone2 Herr') as [H1 H2].
        apply errors_Join_None in H1 as [-> ->]. split; [done|].
        intros ca Hca. apply elem_of_cons in Hca as [->|Hca]; [done|by apply H2].
      * intros -> Hall. apply Hok2.
        -- assert (ans = None) as -> by (apply (Hall call); by left). done.
        -- intros ca Hca. apply Hall. by right.
      * eapply includes_trans; [apply includes_Join|exact Hinc2].
      * intros k d Hkd. apply elem_of_cons in Hkd as [[= -> ->]|Hkd].
        -- right. split; [done|]. exists ans.
           rewrite filter_cons_True by done. rewrite Hf2. split; [done|].
           rewrite Hframe2 by done. destruct ans as [e|]; [|done].
           split; [done|].
           destruct (errors_Join_r err0 e e (errors_Is_refl e)) as (e1 & He1 & His1).
           by apply (Hinc2 e1 e).
        -- specialize (Hout2 k d Hkd). unfold outcome in *.
           rewrite Hframe1 in Hout2 by (by eapply Hne).
           rewrite filter_cons_False; [done|]. simpl. intros Heq. by eapply Hne.
Qed.


(** The value retained for a key: the entry of the mapping, nothing when
    there is none or when it is nil. *)
Definition content_at (m : gomap Key (gomap KV V)) (k : Key) : gmap KV V :=
  content (default GoNil (go_lookup m k)).

Lemma outcome_calls m0 m' new err' k d ca :
  outcome m0 m' new err' k d → ca ∈ new → call_key ca.1 = k →
  ∃ c d', ca.1 = mkCall k c d'.
Proof.
  intros Hout Hca Hk.
  assert (ca ∈ filter (λ ca : RouterCall * option error, call_key ca.1 = k) new) as Hin.
  { by apply list_elem_of_filter. }
  destruct Hout as [(_ & Hnil & _)|(_ & ans & Hone & _)].
  - rewrite Hnil in Hin. by apply elem_of_nil in Hin.
  - rewrite Hone in Hin. apply list_elem_of_singleton in Hin as ->. eauto.
Qed.

(** After the loop the retained value of a key is again what the router
    holds for it, when it was before. *)
Lemma outcome_pushed m0 m' new err' k d calls :
  outcome m0 m' new err' k d →
  content_at m0 k = pushed getDelta calls k →
  content_at m' k = pushed getDelta (calls ++ new) k.
Proof.
  intros Hout Hinv. rewrite pushed_app, replay_filter. unfold content_at in *.
  destruct Hout as [(Heq & -> & Hlook)|(Hne & ans & -> & Hlook)]; simpl.
  - rewrite Hlook, <- Hinv. destruct (decide (content d = ∅)) as [He|He]; simpl; congruence.
  - unfold replay_step. simpl. rewrite getDelta_mkDelta.
    destruct ans as [e|].
    + destruct Hlook as [-> _]. done.
    + rewrite decide_True by done. rewrite <- Hinv, diff_apply.
      rewrite Hlook. by destruct (decide (content d = ∅)) as [->|He].
Qed.

Lemma engine_loop_pushed l m0 err0 w0 m' err' w' :
  NoDup l.*1 →
  forM_ l (m0, err0) engineBody w0 = Some ((m', err'), w') →
  (∀ k, content_at m0 k = pushed getDelta (router_calls (w_routers w0 (inst_Name i))) k) →
  (∀ k, content_at m' k = pushed getDelta (router_calls (w_routers w' (inst_Name i))) k).
Proof.
  intros Hnd Hrun Hinv k.
  destruct (engine_loop_spec _ _ _ _ _ _ _ Hnd Hrun)
    as (new & (_ & _ & _ & -> & _) & Hframe & Hkeys & _ & _ & _ & Hout).
  destruct (decide (k ∈ l.*1)) as [Hin|Hnin].
  - apply list_elem_of_fmap in Hin as ([k' d] & -> & Hkd).
    eapply outcome_pushed; [by apply Hout|apply Hinv].
  - unfold content_at. rewrite Hframe by done. fold (content_at m0 k). rewrite Hinv.
    rewrite pushed_app, replay_filter, filter_key_nil; [done|].
    intros ca Hca Heq. apply Hnin. rewrite <- Heq. by apply Hkeys.
Qed.

(** The calls of the loop are of the kind of the engine. *)
Lemma engine_loop_calls l m0 m' err' new :
  (∀ ca, ca ∈ new → call_key ca.1 ∈ l.*1) →
  (∀ k d, (k, d) ∈ l → outcome m0 m' new err' k d) →
  ∀ ca, ca ∈ new → ∃ c d, ca.1 = mkCall (call_key ca.1) c d.
Proof.
  intros Hkeys Hout ca Hca.
  destruct (proj1 (list_elem_of_fmap _ _ _) (Hkeys ca Hca)) as ([k d] & Hk & Hkd).
  simpl in Hk. eapply outcome_calls; [apply Hout; by rewrite Hk|done|done].
Qed.

End engine.

(** What a run of the loop amounts to, in terms of the calls it made. *)
Section loop_result.
Context {KV : Type} `{Countable KV} {V : Type} `{EqDecision V}.
Variable mkDelta : gmap KV V → gmap KV V → RouterDelta.

Definition loop_result (l : list (Key * gomap KV V)) (m0 : gomap Key (gomap KV V))
    (err0 : option error) (m' : gomap Key (gomap KV V)) (err' : option error)
    (new : list (RouterCall * option error)) : Prop :=
  (∀ k, k ∉ l.*1 → go_lookup m' k = go_lookup m0 k) ∧
  (∀ ca, ca ∈ new → call_key ca.1 ∈ l.*1) ∧
  (err' = None → err0 = None ∧ ∀ ca, ca ∈ new → ca.2 = None) ∧
  (err0 = None → (∀ ca, ca ∈ new → ca.2 = None) → err' = None) ∧
  includes err0 err' ∧
  (∀ k d, (k, d) ∈ l → outcome mkDelta m0 m' new err' k d).

Lemma engine_loop_result {P} (pre : M P) i l m0 err0 w0 m' err' w' :
  (∀ w x w', pre w = Some (x, w') → w' = w) →
  NoDup l.*1 →
  forM_ l (m0, err0) (engineBody pre mkDelta i) w0 = Some ((m', err'), w') →
  ∃ new, after_calls i w0 new w' ∧ loop_result l m0 err0 m' err' new.
Proof. intros Hpre Hnd Hrun. by eapply engine_loop_spec. Qed.

Variable getDelta : RouterDelta → option (gmap KV V * gmap KV V).
Hypothesis getDelta_mkDelta : ∀ r a, getDelta (mkDelta r a) = Some (r, a).

Lemma loop_result_pushed l m0 err0 m' err' new calls :
  loop_result l m0 err0 m' err' new →
  (∀ k, content_at m0 k = pushed getDelta calls k) →
  (∀ k, content_at m' k = pushed getDelta (calls ++ new) k).
Proof.
  intros (Hframe & Hkeys & _ & _ & _ & Hout) Hinv k.
  destruct (decide (k ∈ l.*1)) as [Hin|Hnin].
  - apply list_elem_of_fmap in Hin as ([k' d] & -> & Hkd).
    eapply outcome_pushed; [done|by apply Hout|apply Hinv].
  - unfold content_at. rewrite Hframe by done. fold (content_at m0 k). rewrite Hinv.
    rewrite pushed_app, replay_filter, filter_key_nil; [done|].
    intros ca Hca Heq. apply Hnin. rewrite <- Heq. by apply Hkeys.
Qed.

(** The calls of one engine do not touch what the router holds of the
    other kind. *)
Lemma loop_result_other_kind {KV' : Type} `{Countable KV'} {V' : Type}
    (getDelta' : RouterDelta → option (gmap KV' V' * gmap KV' V'))
    l m0 err0 m' err' new calls k :
  (∀ r a, getDelta' (mkDelta r a) = None) →
  loop_result l m0 err0 m' err' new →
  pushed getDelta' (calls ++ new) k = pushed getDelta' calls k.
Proof.
  intros Hother (_ & Hkeys & _ & _ & _ & Hout).
  rewrite pushed_app. apply replay_other_kind. intros ca Hca.
  destruct (engine_loop_calls mkDelta _ _ _ _ _ Hkeys Hout ca Hca) as (c & d & ->).
  apply Hother.
Qed.
End loop_result.

(** ** A second run finds nothing to do *)

Section converged.
Context {KV : Type} `{Countable KV} {V : Type} `{EqDecision V} {P : Type}.
Variable pre : M P.
Variable mkDelta : gmap KV V → gmap KV V → RouterDelta.
Variable i : BGPInstance.

(** The retained mapping agrees with a desired entry: no entry for an empty
    desired value, an entry with the same content otherwise. *)
Definition conv_entry (m : gomap Key (gomap KV V)) (k : Key) (d : gomap KV V) : Prop :=
  (go_lookup m k = None ∧ content d = ∅) ∨
  (∃ c, go_lookup m k = Some c ∧ content c = content d ∧ content d ≠ ∅).

(** After a run without error the retained mapping agrees with every
    entry the loop went over. *)
Lemma loop_result_conv l m0 m' new k d :
  loop_result mkDelta l m0 None m' None new → (k, d) ∈ l → conv_entry m' k d.
Proof.
  intros (_ & _ & Hnone & _ & _ & Hout) Hkd.
  destruct (Hnone eq_refl) as [_ Hall].
  destruct (Hout k d Hkd) as [(Heq & _ & Hlook)|(Hne & ans & Hmine & Hlook)].
  - destruct (decide (content d = ∅)) as [He|He]; [by left|].
    right. eexists. split; [exact Hlook|]. by split.
  - assert (ans = None) as ->.
    { apply (Hall (mkCall mkDelta k (content (default GoNil (go_lookup m0 k))) (content d), ans)).
      eapply (list_elem_of_filter (λ ca : RouterCall * option error, call_key ca.1 = k)).
      rewrite Hmine. by left. }
    destruct (decide (content d = ∅)) as [He|He]; [by left|].
    right. eexists. split; [exact Hlook|]. by split.
Qed.

(** When the retained mapping agrees with every entry, the loop calls no
    router and changes nothing. *)
Lemma engine_noop l (m : gomap Key (gomap KV V)) w :
  (∀ w, ∃ x, pre w = Some (x, w)) →
  (∀ k d, (k, d) ∈ l → conv_entry m k d) →
  forM_ l (m, None) (engineBody pre mkDelta i) w = Some ((m, None), w).
Proof.
  intros Hpre. induction l as [|[k d] l IH]; intros Hconv; cbn [forM_]; [done|].
  assert (engineBody pre mkDelta i (k, d) (m, None) w = Some ((m, None), w)) as Hbody.
  { unfold engineBody. rewrite go_len_bool.
    destruct (Hconv k d) as [[Hlook He]|(c & Hlook & Hc & He)]; [by left| |].
    - rewrite Hlook. simpl. by rewrite bool_decide_true.
    - rewrite Hlook. simpl. unfold bindM. destruct (Hpre w) as [x ->].
      unfold applyOne. rewrite decide_True by done. simpl.
      rewrite (bool_decide_false (content d = ∅)) by done. simpl.
      destruct m as [|t]; [done|]. simpl. unfold go_lookup in Hlook. simpl in Hlook.
      by rewrite insert_id. }
  unfold bindM. rewrite Hbody. apply IH. intros k' d' Hin. apply Hconv. by right.
Qed.

(** The loop never makes the nil map of a map. *)
Lemma engineBody_GoMap kd (m : gomap Key (gomap KV V)) err w m' err' w' t :
  engineBody pre mkDelta i kd (m, err) w = Some ((m', err'), w') →
  m = GoMap t → ∃ t', m' = GoMap t'.
Proof.
  destruct kd as [k d]. unfold engineBody. intros Hbody ->.
  assert (∀ current,
    bindM pre
      (λ _ : P,
         bindM (applyOne mkDelta i k d current)
           (λ '(updated, rErr),
              bindM
                (if bool_decide (rErr = None) && bool_decide (go_len d = 0)
                 then retM (go_delete (GoMap t) k)
                 else derefM (go_store (GoMap t) k updated))
                (λ m : gomap Key (gomap KV V), retM (m, errors_Join err rErr)))) w
    = Some ((m', err'), w') → ∃ t', m' = GoMap t') as Hrun.
  { intros current Hrun.
    apply bindM_Some in Hrun as (x & w1 & _ & Hrun).
    apply bindM_Some in Hrun as ([updated rErr] & w2 & _ & Hrun).
    apply bindM_Some in Hrun as (m2 & w3 & Hupd & [= <- _ _]).
    destruct (_ && _); simpl in Hupd; injection Hupd as <- _; eauto. }
  destruct (go_lookup (GoMap t) k); simpl in Hbody; [by eapply Hrun|].
  destruct (bool_decide (go_len d = 0)); simpl in Hbody; [|by eapply Hrun].
  injection Hbody as <- _ _. eauto.
Qed.

(** On a map that is not nil the loop does not panic. *)
Lemma engineBody_total kd (t : gmap Key (gomap KV V)) err w :
  (∀ w, ∃ x, pre w = Some (x, w)) →
  ∃ t' err' w', engineBody pre mkDelta i kd (GoMap t, err) w = Some ((GoMap t', err'), w').
Proof.
  intros Hpre. destruct kd as [k d]. unfold engineBody.
  assert (∀ current, ∃ t' err' w',
    bindM pre
      (λ _ : P,
         bindM (applyOne mkDelta i k d current)
           (λ '(updated, rErr),
              bindM
                (if bool_decide (rErr = None) && bool_decide (go_len d = 0)
                 then retM (go_delete (GoMap t) k)
                 else derefM (go_store (GoMap t) k updated))
                (λ m : gomap Key (gomap KV V), retM (m, errors_Join err rErr)))) w
    = Some ((GoMap t', err'), w')) as Hrun.
  { intros current. unfold bindM at 1. destruct (Hpre w) as [x ->].
    destruct (applyOne_spec mkDelta i k d current w) as [[_ Happ]|(_ & w' & Happ & _)];
      unfold bindM at 1; simpl in Happ; rewrite Happ;
      destruct (_ && _); simpl; eauto. }
  destruct (go_lookup (GoMap t) k); simpl; [apply Hrun|].
  destruct (bool_decide (go_len d = 0)); simpl; [eauto|apply Hrun].
Qed.

Lemma engine_loop_total l (t : gmap Key (gomap KV V)) err w :
  (∀ w, ∃ x, pre w = Some (x, w)) →
  ∃ m' err' w', forM_ l (GoMap t, err) (engineBody pre mkDelta i) w = Some ((m', err'), w').
Proof.
  intros Hpre. revert t err w. induction l as [|kd l IH]; intros t err w; cbn [forM_].
  - unfold retM. eauto.
  - destruct (engineBody_total kd t err w Hpre) as (t1 & err1 & w1 & Hbody).
    unfold bindM. rewrite Hbody. apply IH.
Qed.

Lemma engine_loop_GoMap l (m : gomap Key (gomap KV V)) err w m' err' w' t :
  forM_ l (m, err) (engineBody pre mkDelta i) w = Some ((m', err'), w') →
  m = GoMap t → ∃ t', m' = GoMap t'.
Proof.
  revert m err w t. induction l as [|kd l IH]; intros m err w t; cbn [forM_].
  - intros [= <- _ _] ->. eauto.
  - intros Hrun Hm. apply bindM_Some in Hrun as ([m1 err1] & w1 & Hbody & Hrest).
    destruct (engineBody_GoMap _ _ _ _ _ _ _ _ Hbody Hm) as [t1 Ht1].
    by eapply IH.
Qed.
End converged.

(** ** The two passes of [Reconcile] *)

Section passes.
Context `{Env}.

Lemma reconcileRoutePolicies_loop_engine p (i : BGPInstance) (Des m : ResourceRoutePolicyMap) :
  reconcileRoutePolicies_loop p i Des m
  = forM_ (range Des) (m, None) (engineBody (derefM (p_DesiredConfig p)) PolicyDelta i).
Proof. reflexivity. Qed.

Lemma ReconcileResourceAFPaths_engine (i : BGPInstance) (Des Cur : ResourceAFPathsMap) :
  ReconcileResourceAFPaths i Des Cur
  = forM_ (range (GoMap (content Des ∪ ((λ _, GoNil) <$> content Cur))))
          (GoMap (content Cur), None) (engineBody (retM ()) PathDelta i).
Proof. reflexivity. Qed.

Lemma derefM_pure {A} (o : option A) w x w' : derefM o w = Some (x, w') → w' = w.
Proof. unfold derefM. destruct o; by intros [= _ <-]. Qed.

Lemma retM_pure {A} (a : A) w x w' : retM a w = Some (x, w') → w' = w.
Proof. by intros [= _ <-]. Qed.

Lemma liftD_Some {A} (m : D A) w a w' :
  liftD m w = Some (a, w') ↔ ∃ lg, m = Some (a, lg) ∧ w' = add_log w lg.
Proof.
  unfold liftD. split.
  - destruct m as [[a' lg]|]; [|done]. intros [= <- <-]. eauto.
  - intros (lg & -> & ->). done.
Qed.

(** The route-policy pass, taken apart: the derivation failed, or the loop
    ran over the desired mapping and its result was stored. *)
Lemma reconcileRoutePolicies_inv p adverts lp w res w' :
  reconcileRoutePolicies p adverts lp w = Some (res, w') →
  (∃ e lg, getDesiredPodIPPoolRoutePolicies (w_r w) p adverts lp = Some (Err e, lg) ∧
           res = Some e ∧ w' = add_log w lg) ∨
  (∃ i Des lg m' w1,
     p_BGPInstance p = Some i ∧
     getDesiredPodIPPoolRoutePolicies (w_r w) p adverts lp = Some (Ok Des, lg) ∧
     forM_ (range Des) (PoolRoutePolicies (getMetadata (w_r w) i), None)
           (engineBody (derefM (p_DesiredConfig p)) PolicyDelta i) (add_log w lg)
       = Some ((m', res), w1) ∧
     w' = {| w_r := setMetadata (w_r w1) i
                      {| PoolAFPaths := PoolAFPaths (getMetadata (w_r w) i);
                         PoolRoutePolicies := m' |};
             w_routers := w_routers w1;
             w_log := w_log w1 |}).
Proof.
  unfold reconcileRoutePolicies. intros Hrun.
  apply bindM_Some in Hrun as (r & w0 & [= <- <-] & Hrun).
  apply bindM_Some in Hrun as (Des & w1 & (lg & HD & ->)%liftD_Some & Hrun).
  destruct Des as [Des|e].
  - right. apply bindM_Some in Hrun as (i & w2 & Hi & Hrun).
    unfold derefM in Hi. destruct (p_BGPInstance p) as [i'|] eqn:Hinst; [|done].
    simplify_eq.
    apply bindM_Some in Hrun as ([m' err] & w3 & Hloop & Hrun).
    apply bindM_Some in Hrun as ([] & w4 & [= <-] & [= <- <-]).
    exists i, Des, lg, m', w3. done.
  - left. injection Hrun as <- <-. eauto.
Qed.

Lemma reconcilePaths_inv p adverts lp w res w' :
  reconcilePaths p adverts lp w = Some (res, w') →
  (∃ e lg, getDesiredPoolAFPaths (w_r w) p adverts lp = Some (Err e, lg) ∧
           res = Some e ∧ w' = add_log w lg) ∨
  (∃ i cfg Des lg m' w1,
     p_BGPInstance p = Some i ∧ p_DesiredConfig p = Some cfg ∧
     getDesiredPoolAFPaths (w_r w) p adverts lp = Some (Ok Des, lg) ∧
     forM_ (range (GoMap (content Des ∪ ((λ _, GoNil) <$> content (PoolAFPaths (getMetadata (w_r w) i))))))
           (GoMap (content (PoolAFPaths (getMetadata (w_r w) i))), None)
           (engineBody (retM ()) PathDelta i) (add_log w lg)
       = Some ((m', res), w1) ∧
     w' = {| w_r := setMetadata (w_r w1) i
                      {| PoolAFPaths := m';
                         PoolRoutePolicies := PoolRoutePolicies (getMetadata (w_r w) i) |};
             w_routers := w_routers w1;
             w_log := w_log w1 |}).
Proof.
  unfold reconcilePaths. intros Hrun.
  apply bindM_Some in Hrun as (r & w0 & [= <- <-] & Hrun).
  apply bindM_Some in Hrun as (Des & w1 & (lg & HD & ->)%liftD_Some & Hrun).
  destruct Des as [Des|e].
  - right. apply bindM_Some in Hrun as (i & w2 & Hi & Hrun).
    unfold derefM in Hi. destruct (p_BGPInstance p) as [i'|] eqn:Hinst; [|done].
    simplify_eq.
    apply bindM_Some in Hrun as (cfg & w2 & Hcfg & Hrun).
    unfold derefM in Hcfg. destruct (p_DesiredConfig p) as [cfg'|] eqn:Hc; [|done].
    simplify_eq.
    apply bindM_Some in Hrun as ([m' err] & w3 & Hloop & Hrun).
    apply bindM_Some in Hrun as ([] & w4 & [= <-] & [= <- <-]).
    exists i, cfg, Des, lg, m', w3. done.
  - left. injection Hrun as <- <-. eauto.
Qed.


Lemma reconcileRoutePolicies_summary p adverts lp w res w' :
  reconcileRoutePolicies p adverts lp w = Some (res, w') →
  (∃ e lg, getDesiredPodIPPoolRoutePolicies (w_r w) p adverts lp = Some (Err e, lg) ∧
           res = Some e ∧ w' = add_log w lg) ∨
  (∃ i Des lg m' new,
     p_BGPInstance p = Some i ∧
     getDesiredPodIPPoolRoutePolicies (w_r w) p adverts lp = Some (Ok Des, lg) ∧
     w_log w' = w_log w ++ lg ∧
     w_r w' = setMetadata (w_r w) i
                {| PoolAFPaths := PoolAFPaths (getMetadata (w_r w) i);
                   PoolRoutePolicies := m' |} ∧
     after_calls i (add_log w lg)
       new {| w_r := w_r w; w_routers := w_routers w'; w_log := w_log w' |} ∧
     loop_result PolicyDelta (range Des) (PoolRoutePolicies (getMetadata (w_r w) i))
                 None m' res new).
Proof.
  intros [?|(i & Des & lg & m' & w1 & Hi & HD & Hloop & ->)]%reconcileRoutePolicies_inv;
    [by left|right].
  apply engine_loop_result in Hloop as (new & Hafter & Hres);
    [|apply derefM_pure|apply NoDup_fst_range].
  exists i, Des, lg, m', new.
  destruct Hafter as (Hr & Hl & Ho & Hc & Ha). simpl in *.
  split_and!; [done|done|done|by rewrite Hr| |done].
  unfold after_calls. simpl. by rewrite Hl.
Qed.

Lemma reconcilePaths_summary p adverts lp w res w' :
  reconcilePaths p adverts lp w = Some (res, w') →
  (∃ e lg, getDesiredPoolAFPaths (w_r w) p adverts lp = Some (Err e, lg) ∧
           res = Some e ∧ w' = add_log w lg) ∨
  (∃ i cfg Des lg m' new,
     p_BGPInstance p = Some i ∧ p_DesiredConfig p = Some cfg ∧
     getDesiredPoolAFPaths (w_r w) p adverts lp = Some (Ok Des, lg) ∧
     w_log w' = w_log w ++ lg ∧
     w_r w' = setMetadata (w_r w) i
                {| PoolAFPaths := m';
                   PoolRoutePolicies := PoolRoutePolicies (getMetadata (w_r w) i) |} ∧
     after_calls i (add_log w lg)
       new {| w_r := w_r w; w_routers := w_routers w'; w_log := w_log w' |} ∧
     loop_result PathDelta
       (range (GoMap (content Des ∪
                      ((λ _, GoNil) <$> content (PoolAFPaths (getMetadata (w_r w) i))))))
       (GoMap (content (PoolAFPaths (getMetadata (w_r w) i)))) None m' res new ∧
     ∃ t, m' = GoMap t).
Proof.
  intros [?|(i & cfg & Des & lg & m' & w1 & Hi & Hcfg & HD & Hloop & ->)]%reconcilePaths_inv;
    [by left|right].
  pose proof (engine_loop_GoMap _ _ _ _ _ _ _ _ _ _ _ Hloop eq_refl) as Hmap.
  apply engine_loop_result in Hloop as (new & Hafter & Hres);
    [|apply retM_pure|apply NoDup_fst_range].
  exists i, cfg, Des, lg, m', new.
  destruct Hafter as (Hr & Hl & Ho & Hc & Ha). simpl in *.
  split_and!; [done|done|done|done|by rewrite Hr| |done|done].
  unfold after_calls. simpl. by rewrite Hl.
Qed.

(** [Reconcile], taken apart. *)
Lemma Reconcile_inv p w res w' :
  Reconcile p w = Some (res, w') →
  (∃ e, ValidateParams p = Some e ∧ res = Some e ∧ w' = w) ∨
  (ValidateParams p = None ∧
   ∃ lp lg0, populateLocalPools (p_CiliumNode p) = Some (lp, lg0) ∧
     ((∃ e, peerAdvert (w_r w) (p_DesiredConfig p) BGPCiliumPodIPPoolAdvert = Err e ∧
            res = Some e ∧ w' = add_log w lg0) ∨
      (∃ adverts,
         peerAdvert (w_r w) (p_DesiredConfig p) BGPCiliumPodIPPoolAdvert = Ok adverts ∧
         ((∃ e, reconcileRoutePolicies p adverts lp (add_log w lg0) = Some (Some e, w') ∧
                res = Some e) ∨
          (∃ w1, reconcileRoutePolicies p adverts lp (add_log w lg0) = Some (None, w1) ∧
                 reconcilePaths p adverts lp w1 = Some (res, w')))))).
Proof.
  unfold Reconcile. destruct (ValidateParams p) as [e|].
  { intros [= <- <-]. left. eauto. }
  intros Hrun. right. split; [done|].
  apply bindM_Some in Hrun as (lp & w0 & (lg0 & Hlp & ->)%liftD_Some & Hrun).
  apply bindM_Some in Hrun as (r & w1 & [= <- <-] & Hrun).
  exists lp, lg0. split; [done|]. simpl in Hrun.
  destruct (peerAdvert (w_r w) _ _) as [adverts|e].
  - right. exists adverts. split; [done|].
    apply bindM_Some in Hrun as ([e|] & w1 & Hrp & Hrun).
    + injection Hrun as <- <-. left. eauto.
    + right. eauto.
  - injection Hrun as <- <-. left. eauto.
Qed.

End passes.

(** ** The retained metadata mirrors the router *)

(** What the reconciler retains for a resource key of an instance. *)
Definition retained_policies (r : PodIPPoolReconciler) (name : string) (k : Key)
    : gmap string RoutePolicy :=
  content_at (PoolRoutePolicies
    (default {| PoolAFPaths := GoNil; PoolRoutePolicies := GoNil |} (metadata r !! name))) k.
Definition retained_paths (r : PodIPPoolReconciler) (name : string) (k : Key)
    : gmap (Family * Prefix) Path :=
  content_at (PoolAFPaths
    (default {| PoolAFPaths := GoNil; PoolRoutePolicies := GoNil |} (metadata r !! name))) k.

(** The metadata of an instance equals what has been pushed with success to
    the router of that instance, key by key. *)
Definition consistent_at (w : World) (name : string) : Prop :=
  ∀ k, retained_policies (w_r w) name k
         = pushed policyDelta_of (router_calls (w_routers w name)) k ∧
       retained_paths (w_r w) name k
         = pushed pathDelta_of (router_calls (w_routers w name)) k.

(** A step of the reconciler: calls are only added, and the metadata stays
    the mirror of the router. *)
Definition advances (w w' : World) : Prop :=
  ∀ name,
    (∃ new, router_calls (w_routers w' name) = router_calls (w_routers w name) ++ new) ∧
    (consistent_at w name → consistent_at w' name).

Lemma advances_refl w : advances w w.
Proof. intros name. split; [|done]. exists []. by rewrite app_nil_r. Qed.

Lemma advances_trans w1 w2 w3 : advances w1 w2 → advances w2 w3 → advances w1 w3.
Proof.
  intros H12 H23 name. destruct (H12 name) as [[n1 Hn1] Hc1].
  destruct (H23 name) as [[n2 Hn2] Hc2]. split; [|by auto].
  exists (n1 ++ n2). by rewrite Hn2, Hn1, app_assoc.
Qed.

Lemma advances_add_log w lg : advances w (add_log w lg).
Proof. intros name. split; [|done]. exists []. simpl. by rewrite app_nil_r. Qed.

Section consistency.
Context `{Env}.

Lemma reconcileRoutePolicies_advances p adverts lp w res w' :
  reconcileRoutePolicies p adverts lp w = Some (res, w') → advances w w'.
Proof.
  intros [(e & lg & _ & _ & ->)|(i & Des & lg & m' & new & Hi & HD & Hlog & Hr & Hafter & Hres)]
    %reconcileRoutePolicies_summary; [apply advances_add_log|].
  destruct Hafter as (_ & _ & Ho & Hc & Ha). simpl in *.
  intros name. destruct (decide (name = inst_Name i)) as [->|Hne].
  - split; [by exists new|]. intros Hcons k.
    unfold retained_policies, retained_paths. rewrite Hr, Hc. simpl.
    rewrite lookup_insert_eq. simpl. split.
    + apply (loop_result_pushed PolicyDelta policyDelta_of (λ _ _, eq_refl) _ _ _ _ _ _ _ Hres).
      intros k'. apply Hcons.
    + rewrite (loop_result_other_kind PolicyDelta pathDelta_of _ _ _ _ _ _ _ _
                 (λ _ _, eq_refl) Hres).
      apply Hcons.
  - split; [exists []; rewrite (Ho name Hne); by rewrite app_nil_r|]. intros Hcons k.
    unfold retained_policies, retained_paths. rewrite Hr, (Ho name Hne). simpl.
    rewrite lookup_insert_ne; [|by apply not_eq_sym]. apply Hcons.
Qed.

Lemma reconcilePaths_advances p adverts lp w res w' :
  reconcilePaths p adverts lp w = Some (res, w') → advances w w'.
Proof.
  intros [(e & lg & _ & _ & ->)
         |(i & cfg & Des & lg & m' & new & Hi & Hcfg & HD & Hlog & Hr & Hafter & Hres & _)]
    %reconcilePaths_summary; [apply advances_add_log|].
  destruct Hafter as (_ & _ & Ho & Hc & Ha). simpl in *.
  intros name. destruct (decide (name = inst_Name i)) as [->|Hne].
  - split; [by exists new|]. intros Hcons k.
    unfold retained_policies, retained_paths. rewrite Hr, Hc. simpl.
    rewrite lookup_insert_eq. simpl. split.
    + rewrite (loop_result_other_kind PathDelta policyDelta_of _ _ _ _ _ _ _ _
                 (λ _ _, eq_refl) Hres).
      apply Hcons.
    + apply (loop_result_pushed PathDelta pathDelta_of (λ _ _, eq_refl) _ _ _ _ _ _ _ Hres).
      intros k'. apply Hcons.
  - split; [exists []; rewrite (Ho name Hne); by rewrite app_nil_r|]. intros Hcons k.
    unfold retained_policies, retained_paths. rewrite Hr, (Ho name Hne). simpl.
    rewrite lookup_insert_ne; [|by apply not_eq_sym]. apply Hcons.
Qed.

Lemma Reconcile_advances p w res w' :
  Reconcile p w = Some (res, w') → advances w w'.
Proof.
  intros [(e & _ & _ & ->)|(_ & lp & lg0 & _ & Hrest)]%Reconcile_inv;
    [apply advances_refl|].
  destruct Hrest as [(e & _ & _ & ->)|(adverts & _ & Hrest)]; [apply advances_add_log|].
  eapply advances_trans; [apply advances_add_log|].
  destruct Hrest as [(e & Hrp & _)|(w1 & Hrp & Haf)].
  - by eapply reconcileRoutePolicies_advances.
  - eapply advances_trans;
      [by eapply reconcileRoutePolicies_advances|by eapply reconcilePaths_advances].
Qed.

(** C1. The retained metadata of every instance mirrors the router of that
    instance: it does after [Init] when nothing has been pushed to the
    router, and a call to [Reconcile], whatever it returns, keeps it so.
    The call only adds calls to the routers, and for a resource key without
    a successful call among the added ones (none at all, or only failed
    ones) the retained policies and paths are those from before. *)
Theorem metadata_mirrors_router (p : ReconcileParams) (w : World) (name : string) :
  (∀ i : BGPInstance,
     inst_Name i = name →
     (∀ k, pushed policyDelta_of (router_calls (w_routers w name)) k = ∅ ∧
           pushed pathDelta_of (router_calls (w_routers w name)) k = ∅) →
     consistent_at {| w_r := (Init (w_r w) (Some i)).2;
                      w_routers := w_routers w; w_log := w_log w |} name) ∧
  (∀ res w',
     Reconcile p w = Some (res, w') →
     consistent_at w name →
     consistent_at w' name ∧
     ∃ new,
       router_calls (w_routers w' name) = router_calls (w_routers w name) ++ new ∧
       ∀ k, (∀ ca, ca ∈ new → call_key ca.1 = k → ca.2 ≠ None) →
            retained_policies (w_r w') name k = retained_policies (w_r w) name k ∧
            retained_paths (w_r w') name k = retained_paths (w_r w) name k).
Proof.
  split.
  - intros i <- Hempty k. unfold retained_policies, retained_paths. simpl.
    rewrite lookup_insert_eq. simpl. destruct (Hempty k) as [-> ->].
    unfold content_at, go_lookup. simpl. by rewrite lookup_empty.
  - intros res w' Hrun Hcons.
    destruct (Reconcile_advances _ _ _ _ Hrun name) as [[new Hnew] Hkeep].
    specialize (Hkeep Hcons). split; [done|].
    exists new. split; [done|]. intros k Hno.
    destruct (Hkeep k) as [-> ->]. destruct (Hcons k) as [-> ->].
    rewrite Hnew, !pushed_app. by rewrite !replay_no_success.
Qed.

End consistency.

(** ** The derivations, run again *)

(** The loop over the listed pools run again from another mapping, with a
    function that gives every one of them what the first one gave: the same
    pools succeed, and the entries of their keys are the same. *)
Lemma insert_pools_rerun {A V} (f f' : A → D (result V)) (key : A → Key)
    (l : list A) (d0 d d0' : gmap Key V) lg :
  (∀ x v lg1, x ∈ l → f x = Some (Ok v, lg1) → ∃ lg2, f' x = Some (Ok v, lg2)) →
  forD l d0 (λ x d, tryD v := f x in retD (Ok (<[key x := v]> d))) = Some (Ok d, lg) →
  ∃ d' lg',
    forD l d0' (λ x d, tryD v := f' x in retD (Ok (<[key x := v]> d))) = Some (Ok d', lg') ∧
    (∀ k, k ∈ key <$> l → d' !! k = d !! k) ∧
    (∀ k, k ∉ key <$> l → d' !! k = d0' !! k).
Proof.
  revert d0 d0' lg. induction l as [|y l IH]; intros d0 d0' lg Hf'; simpl.
  - intros [= <- <-]. exists d0', []. split_and!; [done| |done].
    intros k Hk. by apply elem_of_nil in Hk.
  - intros Hrun. pose proof Hrun as Hrun'.
    apply bindD_try_Some_Ok in Hrun as (d1 & l1 & l2 & Hy & Hl & ->).
    apply bindD_try_Some_Ok in Hy as (v & l3 & l4 & Hv & [= <- <-] & ->).
    destruct (Hf' y v l3) as [l3' Hv']; [by left|done|].
    assert (∀ x v0 lg1, x ∈ l → f x = Some (Ok v0, lg1) → ∃ lg2, f' x = Some (Ok v0, lg2))
      as Hf'l.
    { intros x v0 lg1 Hx. apply Hf'. by right. }
    destruct (IH _ (<[key y := v]> d0') _ Hf'l Hl) as (d' & lg' & Hrun2 & Hagree & Hframe).
    destruct (insert_pools_spec _ _ _ _ _ _ Hl) as (Hframe1 & _).
    exists d', ((l3' ++ []) ++ lg'). split_and!.
    + unfold bindD_try at 1 2. unfold bindD at 1 2. rewrite Hv'. simpl.
      unfold bindD. by rewrite Hrun2.
    + intros k Hk. destruct (decide (k ∈ key <$> l)) as [Hin|Hnin]; [by apply Hagree|].
      apply elem_of_cons in Hk as [->|Hk]; [|done].
      rewrite Hframe, Hframe1 by done. by rewrite !lookup_insert_eq.
    + intros k Hk. apply not_elem_of_cons in Hk as [Hky Hk].
      rewrite Hframe by done. by apply lookup_insert_ne.
Qed.

(** The marking loop does not panic. *)
Lemma mark_deleted_total {U W} `{Countable W} {V}
    (get : Key → result (option CiliumPodIPPool))
    (fixerr : error → error) (l : list (Key * U)) (d0 : gmap Key (gomap W V)) :
  ∃ r, forD l d0 (λ '(poolKey, _) d,
         match get poolKey with
         | Err err => retD (Err (fixerr err))
         | Ok None => retD (Ok (<[poolKey := GoNil]> d))
         | Ok (Some _) => retD (Ok d)
         end) = Some (r, []).
Proof.
  revert d0. induction l as [|[k v] l IH]; intros d0; simpl; [by eexists|].
  destruct (get k) as [[x|]|e].
  - rewrite bindD_try_Ok. apply IH.
  - rewrite bindD_try_Ok. apply IH.
  - rewrite bindD_try_Err. by eexists.
Qed.

Section rerun.
Context {KV : Type} `{Countable KV} {V : Type}.
Variable get : Key → result (option CiliumPodIPPool).
Variable fixerr : error → error.
Variable pools : list CiliumPodIPPool.
Variables f f' : CiliumPodIPPool → D (result (gomap KV V)).
Variables cur0 cur1 : gomap Key (gomap KV V).
Variables range0 range1 l1 : list (Key * gomap KV V).
Variables dm1 d1f : gmap Key (gomap KV V).
Variable lg1 : list LogEntry.

Hypothesis range0_keys : ∀ k, k ∈ range0.*1 ↔ is_Some (go_lookup cur0 k).
Hypothesis range1_keys : ∀ k, k ∈ range1.*1 ↔ is_Some (go_lookup cur1 k).
Hypothesis Hmark1 :
  forD range0 (∅ : gmap Key (gomap KV V)) (λ '(poolKey, _) d,
    match get poolKey with
    | Err err => retD (Err (fixerr err))
    | Ok None => retD (Ok (<[poolKey := GoNil]> d))
    | Ok (Some _) => retD (Ok d)
    end) = Some (Ok dm1, []).
Hypothesis Hpools1 :
  forD pools dm1 (λ pool d, tryD v := f pool in retD (Ok (<[keyOf pool := v]> d)))
  = Some (Ok d1f, lg1).
Hypothesis Hf' :
  ∀ pool v lg, pool ∈ pools → f pool = Some (Ok v, lg) → ∃ lg', f' pool = Some (Ok v, lg').
Hypothesis l1_desired : ∀ k d, d1f !! k = Some d → (k, d) ∈ l1.
Hypothesis l1_entries : ∀ k d, (k, d) ∈ l1 → d1f !! k = Some d ∨ content d = ∅.
Hypothesis l1_conv : ∀ k d, (k, d) ∈ l1 → conv_entry cur1 k d.
Hypothesis l1_frame : ∀ k, k ∉ l1.*1 → go_lookup cur1 k = go_lookup cur0 k.

Lemma unlisted_is_nil k d :
  k ∉ keyOf <$> pools → d1f !! k = Some d → d = GoNil.
Proof using Hmark1 Hpools1.
  intros Hk Hd.
  destruct (insert_pools_spec _ _ _ _ _ _ Hpools1) as (Hframe1 & _).
  destruct (mark_deleted_spec _ _ _ _ _ _ Hmark1) as (_ & _ & Hmarked & Hkeep).
  rewrite Hframe1 in Hd by done.
  destruct (get k) as [[x|]|e] eqn:Hget.
  - rewrite Hkeep in Hd by (intros [_ ?]; congruence). by rewrite lookup_empty in Hd.
  - destruct (decide (k ∈ range0.*1)) as [Hin|Hnin].
    + rewrite (Hmarked k Hin Hget) in Hd. by simplify_eq.
    + rewrite Hkeep in Hd by (by intros [? _]). by rewrite lookup_empty in Hd.
  - rewrite Hkeep in Hd by (intros [_ ?]; congruence). by rewrite lookup_empty in Hd.
Qed.

Lemma retained_is_listed k :
  is_Some (go_lookup cur1 k) → k ∈ l1.*1 →
  k ∈ keyOf <$> pools ∧ ∃ d, d1f !! k = Some d.
Proof using Hmark1 Hpools1 l1_entries l1_conv.
  intros Hsome Hin.
  apply list_elem_of_fmap in Hin as ([k' d'] & -> & Hkd). simpl in *.
  destruct (l1_conv _ _ Hkd) as [[Hnone _]|(c & _ & _ & Hne)].
  { rewrite Hnone in Hsome. by destruct Hsome. }
  destruct (l1_entries _ _ Hkd) as [Hd|He]; [|done].
  split; [|by eauto].
  destruct (decide (k' ∈ keyOf <$> pools)) as [|Hnin]; [done|].
  rewrite (unlisted_is_nil _ _ Hnin Hd) in Hne. done.
Qed.

(** The desired mapping of a second run, computed from the retained
    mapping that the first run without error left, with a function [f']
    that gives every listed pool what [f] gave it in the first run: it
    exists, every entry of it agrees with the retained mapping, and (when
    that run went over every retained key) it has an entry for every
    retained key. *)
Lemma rerun_desired dm2 :
  forD range1 (∅ : gmap Key (gomap KV V)) (λ '(poolKey, _) d,
    match get poolKey with
    | Err err => retD (Err (fixerr err))
    | Ok None => retD (Ok (<[poolKey := GoNil]> d))
    | Ok (Some _) => retD (Ok d)
    end) = Some (Ok dm2, []) →
  ∃ d2f lg2,
    forD pools dm2 (λ pool d, tryD v := f' pool in retD (Ok (<[keyOf pool := v]> d)))
    = Some (Ok d2f, lg2) ∧
    (∀ k d, d2f !! k = Some d → conv_entry cur1 k d) ∧
    ((∀ k, is_Some (go_lookup cur0 k) → k ∈ l1.*1) →
     ∀ k, is_Some (go_lookup cur1 k) → is_Some (d2f !! k)).
Proof using All.
  intros Hmark2.
  destruct (insert_pools_rerun f f' keyOf pools dm1 d1f dm2 lg1 Hf' Hpools1)
    as (d2f & lg2 & Hrun2 & Hagree & Hframe2).
  destruct (insert_pools_spec _ _ _ _ _ _ Hpools1) as (Hframe1 & _).
  destruct (mark_deleted_spec _ _ _ _ _ _ Hmark1) as (_ & _ & Hmarked1 & _).
  destruct (mark_deleted_spec _ _ _ _ _ _ Hmark2) as (_ & _ & _ & Hkeep2).
  exists d2f, lg2. split_and!; [done| |].
  - intros k d Hd. destruct (decide (k ∈ keyOf <$> pools)) as [Hin|Hnin].
    { rewrite Hagree in Hd by done. by apply l1_conv, l1_desired. }
    exfalso. rewrite Hframe2 in Hd by done.
    destruct (get k) as [[x|]|e] eqn:Hget;
      [rewrite Hkeep2 in Hd by (intros [_ ?]; congruence); by rewrite lookup_empty in Hd| |
       rewrite Hkeep2 in Hd by (intros [_ ?]; congruence); by rewrite lookup_empty in Hd].
    destruct (decide (k ∈ range1.*1)) as [Hr1|Hr1];
      [|rewrite Hkeep2 in Hd by (by intros [? _]); by rewrite lookup_empty in Hd].
    apply range1_keys in Hr1.
    destruct (decide (k ∈ l1.*1)) as [Hl1|Hl1].
    + by destruct (retained_is_listed k Hr1 Hl1).
    + rewrite l1_frame in Hr1 by done. apply range0_keys in Hr1.
      apply Hl1. apply list_elem_of_fmap. exists (k, GoNil). split; [done|].
      apply l1_desired. rewrite Hframe1 by done. by apply Hmarked1.
  - intros Hcover k Hsome. destruct (decide (k ∈ l1.*1)) as [Hl1|Hl1].
    + destruct (retained_is_listed k Hsome Hl1) as [Hin [d Hd]].
      rewrite Hagree by done. by eexists.
    + exfalso. apply Hl1, Hcover. by rewrite <- l1_frame.
Qed.
End rerun.

(** ** The two passes in the two cases of their derivation *)

Section pass_results.
Context `{Env}.

Lemma reconcileRoutePolicies_err p adverts lp w e lg :
  getDesiredPodIPPoolRoutePolicies (w_r w) p adverts lp = Some (Err e, lg) →
  reconcileRoutePolicies p adverts lp w = Some (Some e, add_log w lg).
Proof. intros HD. unfold reconcileRoutePolicies, bindM, getR, liftD. by rewrite HD. Qed.

Lemma reconcileRoutePolicies_ok p adverts lp w i Des lg m' res w1 :
  p_BGPInstance p = Some i →
  getDesiredPodIPPoolRoutePolicies (w_r w) p adverts lp = Some (Ok Des, lg) →
  forM_ (range Des) (PoolRoutePolicies (getMetadata (w_r w) i), None)
        (engineBody (derefM (p_DesiredConfig p)) PolicyDelta i) (add_log w lg)
    = Some ((m', res), w1) →
  reconcileRoutePolicies p adverts lp w
  = Some (res, {| w_r := setMetadata (w_r w1) i
                           {| PoolAFPaths := PoolAFPaths (getMetadata (w_r w) i);
                              PoolRoutePolicies := m' |};
                  w_routers := w_routers w1;
                  w_log := w_log w1 |}).
Proof.
  intros Hi HD Hloop. unfold reconcileRoutePolicies, bindM, getR, liftD.
  rewrite HD, Hi. simpl. rewrite reconcileRoutePolicies_loop_engine.
  simpl in Hloop. by rewrite Hloop.
Qed.

Lemma reconcilePaths_err p adverts lp w e lg :
  getDesiredPoolAFPaths (w_r w) p adverts lp = Some (Err e, lg) →
  reconcilePaths p adverts lp w = Some (Some e, add_log w lg).
Proof. intros HD. unfold reconcilePaths, bindM, getR, liftD. by rewrite HD. Qed.

Lemma reconcilePaths_ok p adverts lp w i cfg Des lg m' res w1 :
  p_BGPInstance p = Some i → p_DesiredConfig p = Some cfg →
  getDesiredPoolAFPaths (w_r w) p adverts lp = Some (Ok Des, lg) →
  forM_ (range (GoMap (content Des ∪
                       ((λ _, GoNil) <$> content (PoolAFPaths (getMetadata (w_r w) i))))))
        (GoMap (content (PoolAFPaths (getMetadata (w_r w) i))), None)
        (engineBody (retM ()) PathDelta i) (add_log w lg)
    = Some ((m', res), w1) →
  reconcilePaths p adverts lp w
  = Some (res, {| w_r := setMetadata (w_r w1) i
                           {| PoolAFPaths := m';
                              PoolRoutePolicies := PoolRoutePolicies (getMetadata (w_r w) i) |};
                  w_routers := w_routers w1;
                  w_log := w_log w1 |}).
Proof.
  intros Hi Hcfg HD Hloop. unfold reconcilePaths, bindM, getR, liftD.
  rewrite HD, Hi, Hcfg. simpl. rewrite ReconcileResourceAFPaths_engine.
  simpl in Hloop. by rewrite Hloop.
Qed.

Lemma setMetadata_same r i md :
  metadata r !! inst_Name i = Some md → setMetadata r i md = r.
Proof.
  intros Hmd. unfold setMetadata, with_metadata. rewrite insert_id by done. by destruct r.
Qed.

Lemma getMetadata_Some r i md :
  metadata r !! inst_Name i = Some md → getMetadata r i = md.
Proof. intros Hmd. unfold getMetadata. by rewrite Hmd. Qed.

Lemma getMetadata_setMetadata r i md : getMetadata (setMetadata r i md) i = md.
Proof. unfold getMetadata, setMetadata. simpl. by rewrite lookup_insert_eq. Qed.

End pass_results.

(** ** One failing key does not hold up the others *)

Section partial_failure.
Context `{Env}.

(** The route-policy pass returns when the instance has been initialised and
    the desired configuration is there. *)
Lemma reconcileRoutePolicies_returns p adverts lp w (i : BGPInstance) Des lg :
  p_BGPInstance p = Some i →
  is_Some (p_DesiredConfig p) →
  is_Some (metadata (w_r w) !! inst_Name i) →
  (∀ md, metadata (w_r w) !! inst_Name i = Some md → PoolRoutePolicies md ≠ GoNil) →
  getDesiredPodIPPoolRoutePolicies (w_r w) p adverts lp = Some (Ok Des, lg) →
  ∃ res w', reconcileRoutePolicies p adverts lp w = Some (res, w').
Proof.
  intros Hi [c Hc] [md Hmd] Hinit HD.
  specialize (Hinit md Hmd).
  unfold reconcileRoutePolicies. unfold bindM at 1, getR.
  unfold bindM at 1, liftD. rewrite HD, Hi.
  unfold bindM at 1, derefM at 1.
  rewrite reconcileRoutePolicies_loop_engine.
  unfold getMetadata at 1. rewrite Hmd. simpl.
  destruct (PoolRoutePolicies md) as [|t] eqn:Ht; [done|].
  destruct (engine_loop_total (derefM (p_DesiredConfig p)) PolicyDelta i (range Des) t None
              (add_log w lg)) as (m' & err' & w' & Hloop).
  { intros w0. rewrite Hc. by eexists. }
  unfold bindM at 1. rewrite Hloop. simpl. eauto.
Qed.

Lemma Reconcile_returns_policy_error p w0 lp lg0 adverts e w' :
  ValidateParams p = None →
  populateLocalPools (p_CiliumNode p) = Some (lp, lg0) →
  peerAdvert (w_r w0) (p_DesiredConfig p) BGPCiliumPodIPPoolAdvert = Ok adverts →
  reconcileRoutePolicies p adverts lp (add_log w0 lg0) = Some (Some e, w') →
  Reconcile p w0 = Some (Some e, w').
Proof.
  intros Hval Hlp Hadv Hrp. unfold Reconcile. rewrite Hval.
  unfold bindM at 1. unfold liftD. rewrite Hlp.
  unfold bindM at 1. unfold getR. simpl. rewrite Hadv.
  unfold bindM. by rewrite Hrp.
Qed.

(** C3. In the route-policy pass, once the desired mapping is computed.
    The pass returns when the instance has been initialised and the desired
    configuration is there.  When it returns, for every entry of the desired
    mapping: if its content differs from what is retained for its key, the
    router is called for that key, once, whatever happens to the other keys;
    after a successful call the retained policies of the key are the desired
    ones; after a failed call they are those from before, and the error the
    pass returns holds the error of that call.  If the content does not
    differ the router is not called for the key and the retained policies
    stay.  The error of the pass is the error [Reconcile] returns. *)
Theorem partial_failure_isolation (p : ReconcileParams) (adverts : PeerAdvertisements)
    (lp : gomap string (list Prefix)) (w : World)
    (i : BGPInstance) (Des : ResourceRoutePolicyMap) (lg : list LogEntry) :
  p_BGPInstance p = Some i →
  getDesiredPodIPPoolRoutePolicies (w_r w) p adverts lp = Some (Ok Des, lg) →
  (is_Some (p_DesiredConfig p) →
   is_Some (metadata (w_r w) !! inst_Name i) →
   (∀ md, metadata (w_r w) !! inst_Name i = Some md → PoolRoutePolicies md ≠ GoNil) →
   ∃ res w', reconcileRoutePolicies p adverts lp w = Some (res, w')) ∧
  (∀ res w',
     reconcileRoutePolicies p adverts lp w = Some (res, w') →
     (∃ new,
        router_calls (w_routers w' (inst_Name i))
          = router_calls (w_routers w (inst_Name i)) ++ new ∧
        ∀ k d, go_lookup Des k = Some d →
          let cur := retained_policies (w_r w) (inst_Name i) k in
          let mine := filter (λ ca : RouterCall * option error, call_key ca.1 = k) new in
          (content d = cur →
             mine = [] ∧ retained_policies (w_r w') (inst_Name i) k = cur) ∧
          (content d ≠ cur →
             ∃ ans,
               mine = [({| call_key := k;
                           call_delta := PolicyDelta (diff_remove cur (content d))
                                                     (diff_add cur (content d)) |}, ans)] ∧
               match ans with
               | None => retained_policies (w_r w') (inst_Name i) k = content d
               | Some e =>
                   retained_policies (w_r w') (inst_Name i) k = cur ∧
                   ∃ e', res = Some e' ∧ errors_Is e' e = true
               end)) ∧
     (∀ e' w0 lg0,
        res = Some e' → w = add_log w0 lg0 → ValidateParams p = None →
        populateLocalPools (p_CiliumNode p) = Some (lp, lg0) →
        peerAdvert (w_r w0) (p_DesiredConfig p) BGPCiliumPodIPPoolAdvert = Ok adverts →
        Reconcile p w0 = Some (Some e', w'))).
Proof.
  intros Hi HD. split; [intros Hc Hmd Hinit; by eapply reconcileRoutePolicies_returns|].
  intros res w' Hrun. split.
  - apply reconcileRoutePolicies_summary in Hrun
      as [(e & lg' & HD' & _)
         |(i1 & Des1 & lg1 & m' & new & Hi1 & HD1 & _ & Hr & Hafter & Hres)];
      [by rewrite HD in HD'|].
    rewrite Hi in Hi1. injection Hi1 as <-.
    rewrite HD in HD1. injection HD1 as <- <-.
    destruct Hafter as (_ & _ & _ & Hc & _). simpl in Hc.
    exists new. split; [done|]. intros k d Hd cur mine.
    assert (retained_policies (w_r w') (inst_Name i) k = content_at m' k) as Hafter.
    { unfold retained_policies. rewrite Hr. simpl. by rewrite lookup_insert_eq. }
    destruct Hres as (_ & _ & _ & _ & _ & Hout).
    assert ((k, d) ∈ range Des) as Hkd by (by apply elem_of_range).
    rewrite Hafter. unfold content_at.
    destruct (Hout k d Hkd) as [(Heq & Hmine & Hlook)|(Hne & ans & Hmine & Hlook)].
    + split; [|done]. intros _. split; [done|]. rewrite Hlook.
      destruct (decide (content d = ∅)) as [He|He]; [|done]. simpl.
      rewrite <- He. exact Heq.
    + split; [done|]. intros _. exists ans. split; [done|].
      destruct ans as [e|].
      * destruct Hlook as [-> Herr]. done.
      * rewrite Hlook. by destruct (decide (content d = ∅)) as [->|He].
  - intros e' w0 lg0 -> -> Hval Hlp Hadv.
    by eapply Reconcile_returns_policy_error.
Qed.

End partial_failure.

(** * Further properties of the reconciler *)

(** ** The life cycle of the metadata *)

Section lifecycle.
Context `{Env}.

Lemma with_metadata_id (r : PodIPPoolReconciler) : with_metadata r (metadata r) = r.
Proof. by destruct r. Qed.

(** X1. [Cleanup] with a nil instance does nothing.  [Cleanup] of an
    instance removes the metadata of that instance and of no other, keeps the
    store and the advertisement lookup, and leaves [getMetadata] with the
    zero value, two nil maps; on an instance without metadata, and when
    called again, it changes nothing. *)
Theorem Cleanup_spec (r : PodIPPoolReconciler) :
  Cleanup r None = r ∧
  ∀ i : BGPInstance,
    metadata (Cleanup r (Some i)) !! inst_Name i = None ∧
    (∀ n, n ≠ inst_Name i → metadata (Cleanup r (Some i)) !! n = metadata r !! n) ∧
    poolStore (Cleanup r (Some i)) = poolStore r ∧
    peerAdvert (Cleanup r (Some i)) = peerAdvert r ∧
    getMetadata (Cleanup r (Some i)) i = {| PoolAFPaths := GoNil; PoolRoutePolicies := GoNil |} ∧
    (metadata r !! inst_Name i = None → Cleanup r (Some i) = r) ∧
    Cleanup (Cleanup r (Some i)) (Some i) = Cleanup r (Some i).
Proof.
  split; [done|]. intros i. simpl. split_and!; try done.
  - apply lookup_delete_eq.
  - intros n Hn. by apply lookup_delete_ne.
  - unfold getMetadata. simpl. by rewrite lookup_delete_eq.
  - intros Hnone. rewrite delete_id by done. apply with_metadata_id.
  - unfold with_metadata. simpl. f_equal. apply delete_id, lookup_delete_eq.
Qed.

(** X2. [Init] followed by [Cleanup] of an instance that the reconciler did
    not know gives back the reconciler as it was. *)
Theorem Init_Cleanup (r : PodIPPoolReconciler) (i : BGPInstance) :
  metadata r !! inst_Name i = None →
  Cleanup (Init r (Some i)).2 (Some i) = r.
Proof.
  intros Hnone. simpl. unfold with_metadata. simpl.
  rewrite delete_insert_eq, delete_id by done. by destruct r.
Qed.

(** X3. [NewPodIPPoolReconciler] makes no reconciler without a pool
    store; with one it makes a reconciler over that store and the given
    advertisement lookup that has metadata for no instance: [getMetadata]
    is the zero value for every instance, and after [Init] of an instance
    it is the two empty maps of that instance. *)
Theorem NewPodIPPoolReconciler_spec (in_ : PodIPPoolReconcilerIn) :
  (in_PoolStore in_ = None → NewPodIPPoolReconciler in_ = None) ∧
  (∀ st, in_PoolStore in_ = Some st →
     ∃ r, NewPodIPPoolReconciler in_ = Some r ∧
          poolStore r = st ∧ peerAdvert r = in_PeerAdvert in_ ∧
          ∀ i : BGPInstance,
            getMetadata r i = {| PoolAFPaths := GoNil; PoolRoutePolicies := GoNil |} ∧
            getMetadata (Init r (Some i)).2 i
              = {| PoolAFPaths := GoMap ∅; PoolRoutePolicies := GoMap ∅ |} ∧
            Cleanup (Init r (Some i)).2 (Some i) = r).
Proof.
  unfold NewPodIPPoolReconciler. split; [by intros ->|].
  intros st ->. eexists. split; [done|]. split_and!; [done..|].
  intros i. split_and!.
  - done.
  - unfold getMetadata. simpl. by rewrite lookup_insert_eq.
  - by apply Init_Cleanup.
Qed.

(** X4. The metadata is kept by the name of the instance: [getMetadata]
    gives what [setMetadata] stored, for every instance of that name, the
    metadata of the other names is not changed, a second [setMetadata]
    replaces the first, and without an entry [getMetadata] is the zero
    value. *)
Theorem metadata_set_get (r : PodIPPoolReconciler) (i : BGPInstance)
    (m : PodIPPoolReconcilerMetadata) :
  getMetadata (setMetadata r i m) i = m ∧
  (∀ j : BGPInstance, inst_Name j = inst_Name i → getMetadata (setMetadata r i m) j = m) ∧
  (∀ j : BGPInstance, inst_Name j ≠ inst_Name i →
     getMetadata (setMetadata r i m) j = getMetadata r j) ∧
  (∀ m', setMetadata (setMetadata r i m) i m' = setMetadata r i m') ∧
  (metadata r !! inst_Name i = Some m → setMetadata r i m = r) ∧
  (metadata r !! inst_Name i = None →
     getMetadata r i = {| PoolAFPaths := GoNil; PoolRoutePolicies := GoNil |}).
Proof.
  unfold getMetadata, setMetadata, with_metadata. simpl. split_and!.
  - by rewrite lookup_insert_eq.
  - intros j ->. by rewrite lookup_insert_eq.
  - intros j Hj. by rewrite lookup_insert_ne.
  - intros m'. by rewrite insert_insert_eq.
  - intros Hm. rewrite insert_id by done. by destruct r.
  - by intros ->.
Qed.
End lifecycle.


(** ** The pools of the local node *)

(** Inserting one after the other: the last value inserted under a key is
    the one found. *)
Lemma fold_left_insert_last {A K V} `{Countable K} (key : A → K) (val : A → V)
    (l : list A) (m : gmap K V) (k : K) :
  fold_left (λ m x, <[key x := val x]> m) l m !! k
  = match last (filter (λ x, key x = k) l) with
    | Some x => Some (val x)
    | None => m !! k
    end.
Proof.
  revert m. induction l as [|y l IH]; intros m; simpl; [done|].
  rewrite IH, filter_cons. destruct (decide (key y = k)) as [<-|Hne].
  - rewrite last_cons. destruct (last _); [done|]. apply lookup_insert_eq.
  - destruct (last _); [done|]. by apply lookup_insert_ne.
Qed.

Section local_pools.
Context `{Env}.

(** X5. [populateLocalPools] gives the nil map for a nil node.  For a node
    it gives a map that, under a pool name, holds the prefixes of the CIDR
    strings that parse of the last allocation with that name, and nothing
    under a name that no allocation has. *)
Theorem populateLocalPools_lookup :
  populateLocalPools None = retD GoNil ∧
  ∀ node, ∃ lp lg,
    populateLocalPools (Some node) = Some (GoMap lp, lg) ∧
    ∀ name,
      lp !! name
      = (λ a, parsedPrefixes (alloc_CIDRs a))
          <$> last (filter (λ a, alloc_Pool a = name) (node_Allocated node)).
Proof.
  split; [done|]. intros node. eexists _, _. split; [apply populateLocalPools_spec|].
  intros name.
  rewrite (fold_left_insert_last alloc_Pool (λ a, parsedPrefixes (alloc_CIDRs a))).
  by destruct (last _).
Qed.

(** A pool without prefixes on the local node. *)
Definition noPrefixes (lp : gomap string (list Prefix)) (pool : CiliumPodIPPool) : Prop :=
  default [] (go_lookup lp (pool_Name pool)) = [].

(** X6. A pool without prefixes on the local node (the local pools are nil,
    have no entry for its name, or an empty one) has no desired path, and no
    route policy, whatever the advertisements select. *)
Theorem not_allocated_not_advertised (pool : CiliumPodIPPool) (lp : gomap string (list Prefix)) :
  noPrefixes lp pool →
  (∀ adverts m lg, getDesiredAFPaths pool adverts lp = Some (Ok m, lg) → m = GoMap ∅) ∧
  (∀ peer fam advert o lg,
     getPodIPPoolPolicy peer fam pool advert lp = Some (Ok o, lg) → o = None) ∧
  (∀ p adverts m lg, getPodIPPoolPolicies p pool adverts lp = Some (Ok m, lg) → m = GoMap ∅).
Proof.
  intros Hno. unfold noPrefixes in Hno.
  assert (∀ peer fam advert o lg,
     getPodIPPoolPolicy peer fam pool advert lp = Some (Ok o, lg) → o = None) as Hpol.
  { intros peer fam advert o lg. unfold getPodIPPoolPolicy, retD.
    destruct (decide _); [by intros; simplify_eq|].
    destruct (ParseAddr _); [|done].
    destruct (LabelSelectorAsSelector _) as [sel|]; [|done].
    destruct (negb _); [by intros; simplify_eq|].
    destruct (go_lookup lp (pool_Name pool)) as [prefixes|]; [|by intros; simplify_eq].
    simpl in Hno. subst prefixes. simpl. by intros; simplify_eq. }
  split_and!; [|done|].
  - intros adverts m lg. unfold getDesiredAFPaths. rewrite bindD_try_Some_Ok.
    intros (a & l1 & l2 & Hloop & [= <- <-] & ->). f_equal.
    apply (forD_Ok_inv (λ s, s = ∅) _ _ _ _ _ Hloop); [done|].
    intros [peer fams] s1 s2 lg1 Hp -> Hfams.
    apply (forD_Ok_inv (λ s, s = ∅) _ _ _ _ _ Hfams); [done|].
    intros [fam ads] t1 t2 lg2 Hf -> Hads.
    apply (forD_Ok_inv (λ s, s = ∅) _ _ _ _ _ Hads); [done|].
    intros advert u1 u2 lg3 Ha -> Hone.
    unfold bindD, logD, retD in Hone.
    destruct (decide _); [by simplify_eq|].
    destruct (LabelSelectorAsSelector _) as [sel|]; [|done].
    destruct (negb _); [by simplify_eq|].
    destruct (go_lookup lp (pool_Name pool)) as [prefixes|]; [|by simplify_eq].
    simpl in Hno. subst prefixes. simpl in Hone. by simplify_eq.
  - intros p adverts m lg. unfold getPodIPPoolPolicies. rewrite bindD_try_Some_Ok.
    intros (a & l1 & l2 & Hloop & [= <- <-] & ->). f_equal.
    apply (forD_Ok_inv (λ s, s = ∅) _ _ _ _ _ Hloop); [done|].
    intros [peer fams] s1 s2 lg1 Hp -> Hfams.
    apply (forD_Ok_inv (λ s, s = ∅) _ _ _ _ _ Hfams); [done|].
    intros [fam ads] t1 t2 lg2 Hf -> Hads.
    apply (forD_Ok_inv (λ s, s = ∅) _ _ _ _ _ Hads); [done|].
    intros advert u1 u2 lg3 Ha -> Hone.
    apply bindD_try_Some_Ok in Hone as (o & l3 & l4 & Ho & Hret & _).
    apply Hpol in Ho as ->. unfold retD in Hret. by simplify_eq.
Qed.
End local_pools.

(** ** More laws of the loops *)

(** A property that one iteration establishes and every iteration keeps
    holds after a successful loop. *)
Lemma forD_Ok_reach {A S} (Q : S → Prop) (l : list A) (s s' : S)
    (body : A → S → D (result S)) lg x :
  forD l s body = Some (Ok s', lg) →
  x ∈ l →
  (∀ s1 s2 lg1, body x s1 = Some (Ok s2, lg1) → Q s2) →
  (∀ y s1 s2 lg1, y ∈ l → Q s1 → body y s1 = Some (Ok s2, lg1) → Q s2) →
  Q s'.
Proof.
  revert s lg. induction l as [|y l IH]; intros s lg; simpl.
  - intros _ Hx. by apply elem_of_nil in Hx.
  - rewrite bindD_try_Some_Ok. intros (s1 & l1 & l2 & Hy & Hl & ->) Hx Hat Hkeep.
    apply elem_of_cons in Hx as [->|Hx].
    + apply (forD_Ok_inv Q _ _ _ _ _ Hl); [by eapply Hat|].
      intros z t1 t2 lg1 Hz. apply Hkeep. by right.
    + eapply IH; [exact Hl|exact Hx|exact Hat|].
      intros z t1 t2 lg1 Hz. apply Hkeep. by right.
Qed.

(** A loop that fails fails in one of its iterations. *)
Lemma forD_Err {A S} (l : list A) (s : S) (body : A → S → D (result S)) e lg :
  forD l s body = Some (Err e, lg) →
  ∃ x s1 lg1, x ∈ l ∧ body x s1 = Some (Err e, lg1).
Proof.
  revert s lg. induction l as [|x l IH]; intros s lg; simpl; [done|].
  unfold bindD_try. rewrite bindD_Some. intros ([s1|e1] & l1 & l2 & Hx & Hl & ->).
  - destruct (IH _ _ Hl) as (y & s2 & lg2 & Hy & Hbody).
    exists y, s2, lg2. split; [by right|done].
  - injection Hl as <- <-. exists x, s, l1. split; [by left|done].
Qed.

(** The lines a loop logs are lines that its iterations log. *)
Lemma forD_log {A S} (P : LogEntry → Prop) (l : list A) (s : S)
    (body : A → S → D (result S)) r lg :
  forD l s body = Some (r, lg) →
  (∀ x s1 r1 lg1, x ∈ l → body x s1 = Some (r1, lg1) → Forall P lg1) →
  Forall P lg.
Proof.
  revert s lg. induction l as [|x l IH]; intros s lg; simpl.
  - intros [= <- <-] _. constructor.
  - unfold bindD_try. rewrite bindD_Some. intros ([s1|e1] & l1 & l2 & Hx & Hl & ->) Hb.
    + apply Forall_app. split; [eapply Hb; [by left|done]|].
      eapply IH; [done|]. intros y t1 r1 lg1 Hy. apply Hb. by right.
    + injection Hl as <- <-. rewrite app_nil_r. eapply Hb; [by left|done].
Qed.




(** ** The desired paths of a pool *)

Section desired_paths.
Context `{Env}.

(** The IP version of the prefix is that of the address family. *)
Definition versionMatches (f : Family) (q : Prefix) : Prop :=
  (fam_Afi f = AfiIPv4 ∧ Is4 (prefix_Addr q) = true) ∨
  (fam_Afi f = AfiIPv6 ∧ Is6 (prefix_Addr q) = true).

(** An advertisement of the pool type whose selector matches the pool
    advertises the family. *)
Definition advertised (pool : CiliumPodIPPool) (adverts : PeerAdvertisements) (f : Family)
    : Prop :=
  ∃ peer fams fam ads advert sel,
    (peer, fams) ∈ adverts ∧ (fam, ads) ∈ fams ∧ advert ∈ ads ∧
    ToAgentFamily fam = f ∧
    AdvertisementType advert = BGPCiliumPodIPPoolAdvert ∧
    LabelSelectorAsSelector (adv_Selector advert) = Ok sel ∧
    sel (podIPPoolLabelSet pool) = true.

(** The paths that one matching advertisement adds for the prefixes of the
    pool. *)
Definition addPrefixPaths (agentFamily : Family) (prefixes : list Prefix)
    (m : gmap (Family * Prefix) Path) : gmap (Family * Prefix) Path :=
  fold_left (λ desiredFamilyAdverts prefix,
    let path := NewPathForPrefix prefix in
    let path := {| path_NLRI := path_NLRI path; path_Family := agentFamily |} in
    let desiredFamilyAdverts :=
      if bool_decide (fam_Afi agentFamily = AfiIPv4) && Is4 (prefix_Addr prefix)
      then addPathToAFPathsMap desiredFamilyAdverts agentFamily path
      else desiredFamilyAdverts in
    if bool_decide (fam_Afi agentFamily = AfiIPv6) && Is6 (prefix_Addr prefix)
    then addPathToAFPathsMap desiredFamilyAdverts agentFamily path
    else desiredFamilyAdverts)
    prefixes m.

Lemma addPrefixPaths_lookup agentFamily prefixes m f q :
  addPrefixPaths agentFamily prefixes m !! (f, q)
  = if decide (f = agentFamily ∧ q ∈ prefixes ∧ versionMatches f q)
    then Some (mkPath q f) else m !! (f, q).
Proof.
  unfold addPrefixPaths. revert m.
  induction prefixes as [|q0 prefixes IH]; intros m; simpl.
  - rewrite decide_False; [done|]. intros (_ & Hq & _). by apply elem_of_nil in Hq.
  - rewrite IH. clear IH.
    destruct (decide (f = agentFamily ∧ q ∈ prefixes ∧ versionMatches f q))
      as [(-> & Hq & Hv)|Hno].
    + rewrite decide_True; [done|]. split_and!; [done|by right|done].
    + destruct (decide (f = agentFamily ∧ q ∈ q0 :: prefixes ∧ versionMatches f q))
        as [(-> & Hq & Hv)|Hno'].
      * apply elem_of_cons in Hq as [->|Hq]; [|by destruct Hno].
        unfold addPathToAFPathsMap. simpl.
        destruct Hv as [[Ha H4]|[Ha H6]]; rewrite Ha, ?H4, ?H6; simpl.
        -- destruct (prefix_Addr q0); simplify_eq/=. apply lookup_insert_eq.
        -- apply lookup_insert_eq.
      * unfold addPathToAFPathsMap. simpl.
        assert (∀ m' : gmap (Family * Prefix) Path,
                  <[(agentFamily, q0) := mkPath q0 agentFamily]> m' !! (f, q) = m' !! (f, q)
                      ∨ (f = agentFamily ∧ q = q0)) as Hins.
        { intros m'. destruct (decide ((agentFamily, q0) = (f, q))) as [[= <- <-]|Hne];
            [by right|left; by apply lookup_insert_ne]. }
        destruct (bool_decide (fam_Afi agentFamily = AfiIPv4) && Is4 (prefix_Addr q0)) eqn:H4;
          destruct (bool_decide (fam_Afi agentFamily = AfiIPv6) && Is6 (prefix_Addr q0)) eqn:H6;
          try done.
        -- apply andb_true_iff in H4 as [Ha%bool_decide_eq_true _].
           apply andb_true_iff in H6 as [Hb%bool_decide_eq_true _]. congruence.
        -- destruct (Hins m) as [->|[-> ->]]; [done|]. destruct Hno'.
           apply andb_true_iff in H4 as [Ha%bool_decide_eq_true H4].
           split_and!; [done|by left|by left].
        -- destruct (Hins m) as [->|[-> ->]]; [done|]. destruct Hno'.
           apply andb_true_iff in H6 as [Ha%bool_decide_eq_true H6].
           split_and!; [done|by left|by right].
Qed.

(** Every desired path comes from a prefix of the pool and an advertisement
    that selects it. *)
Lemma getDesiredAFPaths_sound (pool : CiliumPodIPPool) (adverts : PeerAdvertisements)
    (lp : gomap string (list Prefix)) (t : gmap (Family * Prefix) Path) (lg : list LogEntry) :
  getDesiredAFPaths pool adverts lp = Some (Ok (GoMap t), lg) →
  ∀ f q path,
    t !! (f, q) = Some path →
    path = mkPath q f ∧
    q ∈ default [] (go_lookup lp (pool_Name pool)) ∧
    versionMatches f q ∧
    advertised pool adverts f.
Proof.
  unfold getDesiredAFPaths. rewrite bindD_try_Some_Ok.
  intros (a & l1 & l2 & Hloop & [= <-] & _).
  pose (Inv := λ s : gmap (Family * Prefix) Path, ∀ f q path, s !! (f, q) = Some path →
           path = mkPath q f ∧ q ∈ default [] (go_lookup lp (pool_Name pool)) ∧
           versionMatches f q ∧ advertised pool adverts f).
  apply (forD_Ok_inv Inv _ _ _ _ _ Hloop); [done|].
  intros [peer fams] s1 s2 lg1 Hp Hs1 Hfams.
  apply (forD_Ok_inv Inv _ _ _ _ _ Hfams); [done|].
  intros [fam ads] t1 t2 lg2 Hf Ht1 Hads.
  apply (forD_Ok_inv Inv _ _ _ _ _ Hads); [done|].
  intros advert u1 u2 lg3 Ha Hu1 Hone f q path.
  unfold bindD, logD, retD in Hone.
  destruct (decide _) as [|Hty%dec_stable]; [simplify_eq; by apply Hu1|].
  destruct (LabelSelectorAsSelector _) as [sel|] eqn:Hsel; [|done].
  destruct (sel (podIPPoolLabelSet pool)) eqn:Hmatch; simpl in Hone;
    [|simplify_eq; by apply Hu1].
  destruct (go_lookup lp (pool_Name pool)) as [prefixes|] eqn:Hlp;
    [|simplify_eq; by apply Hu1].
  injection Hone as <- <-. intros Hpath.
  assert (addPrefixPaths (ToAgentFamily fam) prefixes u1 !! (f, q) = Some path) as Hlook
    by exact Hpath.
  rewrite addPrefixPaths_lookup in Hlook.
  destruct (decide _) as [(-> & Hq & Hv)|_]; [|by apply Hu1].
  injection Hlook as <-. split_and!; [done|done|done|].
  exists peer, fams, fam, ads, advert, sel. done.
Qed.

(** Every prefix of the pool has its path under every family that an
    advertisement selecting the pool advertises, when the IP versions
    agree. *)
Lemma getDesiredAFPaths_complete (pool : CiliumPodIPPool) (adverts : PeerAdvertisements)
    (lp : gomap string (list Prefix)) (t : gmap (Family * Prefix) Path) (lg : list LogEntry) :
  getDesiredAFPaths pool adverts lp = Some (Ok (GoMap t), lg) →
  ∀ f q,
    q ∈ default [] (go_lookup lp (pool_Name pool)) →
    versionMatches f q →
    advertised pool adverts f →
    t !! (f, q) = Some (mkPath q f).
Proof.
  unfold getDesiredAFPaths. rewrite bindD_try_Some_Ok.
  intros (a & l1 & l2 & Hloop & [= <-] & _) f q Hq Hv
    (peer & fams & fam & ads & advert & sel & Hp & Hf & Ha & <- & Hty & Hsel & Hmatch).
  assert (∀ agentFamily advert' u1 u2 lg3,
    (if decide (AdvertisementType advert' ≠ BGPCiliumPodIPPoolAdvert) then
       letD _ := logD (LogUnexpectedAdvertType (AdvertisementType advert')) in
       retD (Ok u1)
     else
       match LabelSelectorAsSelector (adv_Selector advert') with
       | Err err => retD (Err (Errorf_w "failed to convert label selector" err))
       | Ok poolSelector =>
           if negb (poolSelector (podIPPoolLabelSet pool)) then retD (Ok u1)
           else
             match go_lookup lp (pool_Name pool) with
             | Some prefixes => retD (Ok (addPrefixPaths agentFamily prefixes u1))
             | None => retD (Ok u1)
             end
       end) = Some (Ok u2, lg3) →
    u1 !! (ToAgentFamily fam, q) = Some (mkPath q (ToAgentFamily fam)) →
    u2 !! (ToAgentFamily fam, q) = Some (mkPath q (ToAgentFamily fam))) as Hkeep.
  { intros agentFamily advert' u1 u2 lg3 Hone Hu1.
    unfold bindD, logD, retD in Hone.
    destruct (decide _); [by simplify_eq|].
    destruct (LabelSelectorAsSelector (adv_Selector advert')) as [sel'|]; [|done].
    destruct (negb (sel' (podIPPoolLabelSet pool))); [by simplify_eq|].
    destruct (go_lookup lp (pool_Name pool)) as [prefixes|]; [|by simplify_eq].
    injection Hone as <- <-. rewrite addPrefixPaths_lookup.
    by destruct (decide _) as [(-> & _)|_]. }
  pose (Q := λ s : gmap (Family * Prefix) Path,
          s !! (ToAgentFamily fam, q) = Some (mkPath q (ToAgentFamily fam))).
  apply (forD_Ok_reach Q _ _ _ _ _ _ Hloop Hp).
  - intros s1 s2 lg1 Hfams.
    apply (forD_Ok_reach Q _ _ _ _ _ _ Hfams Hf).
    + intros t1 t2 lg2 Hads.
      apply (forD_Ok_reach Q _ _ _ _ _ _ Hads Ha).
      * intros u1 u2 lg3 Hone. unfold retD in Hone.
        rewrite decide_False, Hsel, Hmatch in Hone by (by intros ?). simpl in Hone.
        destruct (go_lookup lp (pool_Name pool)) as [prefixes|] eqn:Hlp;
          [|by apply elem_of_nil in Hq].
        injection Hone as <- <-. unfold Q.
        change (addPrefixPaths (ToAgentFamily fam) prefixes u1 !! (ToAgentFamily fam, q)
                = Some (mkPath q (ToAgentFamily fam))).
        rewrite addPrefixPaths_lookup. by rewrite decide_True.
      * intros advert' u1 u2 lg3 _ Hu1 Hone. by eapply Hkeep.
    + intros [fam' ads'] t1 t2 lg2 _ Ht1 Hads.
      apply (forD_Ok_inv Q _ _ _ _ _ Hads); [done|].
      intros advert' u1 u2 lg3 _ Hu1 Hone. by eapply Hkeep.
  - intros [peer' fams'] s1 s2 lg1 _ Hs1 Hfams.
    apply (forD_Ok_inv Q _ _ _ _ _ Hfams); [done|].
    intros [fam' ads'] t1 t2 lg2 _ Ht1 Hads.
    apply (forD_Ok_inv Q _ _ _ _ _ Hads); [done|].
    intros advert' u1 u2 lg3 _ Hu1 Hone. by eapply Hkeep.
Qed.

(** X7. The desired paths of a pool, when [getDesiredAFPaths] returns them,
    are a map that is not nil and holds, under a family and a prefix, the
    path of that prefix and family, exactly when the prefix is one of the
    pool on the local node, its IP version is that of the family (IPv4 or
    IPv6), and an advertisement of the pool type whose selector matches the
    pool advertises the family. *)
Theorem getDesiredAFPaths_paths (pool : CiliumPodIPPool) (adverts : PeerAdvertisements)
    (lp : gomap string (list Prefix)) (m : AFPathsMap) (lg : list LogEntry) :
  getDesiredAFPaths pool adverts lp = Some (Ok m, lg) →
  m ≠ GoNil ∧
  ∀ f q path,
    go_lookup m (f, q) = Some path ↔
    path = mkPath q f ∧
    q ∈ default [] (go_lookup lp (pool_Name pool)) ∧
    versionMatches f q ∧
    advertised pool adverts f.
Proof.
  intros Hm.
  assert (m ≠ GoNil) as Hnil.
  { unfold getDesiredAFPaths in Hm.
    by apply bindD_try_Some_Ok in Hm as (a & l1 & l2 & _ & [= <- <-] & _). }
  split; [exact Hnil|]. destruct m as [|t]; [done|].
  intros f q path. unfold go_lookup at 1. simpl. split.
  - by apply (getDesiredAFPaths_sound pool adverts lp t lg).
  - intros (-> & Hq & Hv & Hadv). by eapply getDesiredAFPaths_complete.
Qed.

Lemma advertised_perm pool adverts1 adverts2 f :
  adverts1 ≡ₚ adverts2 → advertised pool adverts1 f → advertised pool adverts2 f.
Proof.
  intros Hperm (peer & fams & fam & ads & advert & sel & Hp & Hrest).
  exists peer, fams, fam, ads, advert, sel. split; [by rewrite <- Hperm|done].
Qed.

(** X8. The desired paths of a pool do not depend on the order in which the
    peers are iterated over: with the peers in another order
    [getDesiredAFPaths] succeeds if and only if it did, with the same
    paths. *)
Theorem getDesiredAFPaths_order (pool : CiliumPodIPPool) (adverts1 adverts2 : PeerAdvertisements)
    (lp : gomap string (list Prefix)) :
  adverts1 ≡ₚ adverts2 →
  ((∃ m lg, getDesiredAFPaths pool adverts1 lp = Some (Ok m, lg)) ↔
   (∃ m lg, getDesiredAFPaths pool adverts2 lp = Some (Ok m, lg))) ∧
  (∀ m1 lg1 m2 lg2,
     getDesiredAFPaths pool adverts1 lp = Some (Ok m1, lg1) →
     getDesiredAFPaths pool adverts2 lp = Some (Ok m2, lg2) →
     m1 = m2).
Proof.
  intros Hperm.
  assert (∀ a1 a2, a1 ≡ₚ a2 →
    (∃ m lg, getDesiredAFPaths pool a1 lp = Some (Ok m, lg)) →
    (∃ m lg, getDesiredAFPaths pool a2 lp = Some (Ok m, lg))) as Hok.
  { intros a1 a2 Hp (m & lg & Hm).
    destruct (getDesiredAFPaths_total pool a2 lp) as [[[m2|e] lg2] Hr]; [by eauto|].
    exfalso. unfold getDesiredAFPaths, bindD_try at 1 in Hr. apply bindD_Some in Hr
      as ([a|e1] & l1 & l2 & Hloop & Hret & _); [done|].
    apply forD_Err in Hloop as ([peer fams] & s1 & lg3 & Hpeer & Hfams).
    apply forD_Err in Hfams as ([fam ads] & s2 & lg4 & Hf & Hads).
    apply forD_Err in Hads as (advert & s3 & lg5 & Ha & Hone).
    unfold bindD, logD, retD in Hone.
    destruct (decide _) as [|Hty%dec_stable]; [done|].
    destruct (LabelSelectorAsSelector (adv_Selector advert)) as [sel|err] eqn:Hsel.
    { destruct (negb _); [done|]. by destruct (go_lookup lp (pool_Name pool)). }
    rewrite <- Hp in Hpeer.
    by apply (getDesiredAFPaths_not_Ok pool a1 lp _ _ _ _ _ _ Hpeer Hf Ha Hty Hsel) in Hm. }
  split; [split; by apply Hok|].
  intros m1 lg1 m2 lg2 Hm1 Hm2.
  assert (∀ a1 a2 t1 l1 t2 l2, a1 ≡ₚ a2 →
    getDesiredAFPaths pool a1 lp = Some (Ok (GoMap t1), l1) →
    getDesiredAFPaths pool a2 lp = Some (Ok (GoMap t2), l2) →
    ∀ f q path, t1 !! (f, q) = Some path → t2 !! (f, q) = Some path) as Hsub.
  { intros a1 a2 t1 l1 t2 l2 Hp H1 H2 f q path Hpath.
    destruct (getDesiredAFPaths_sound _ _ _ _ _ H1 f q path Hpath) as (-> & Hq & Hv & Hadv).
    apply (getDesiredAFPaths_complete _ _ _ _ _ H2 f q Hq Hv).
    by eapply advertised_perm. }
  destruct m1 as [|t1].
  { unfold getDesiredAFPaths in Hm1.
    by apply bindD_try_Some_Ok in Hm1 as (a & l1 & l2 & _ & [=] & _). }
  destruct m2 as [|t2].
  { unfold getDesiredAFPaths in Hm2.
    by apply bindD_try_Some_Ok in Hm2 as (a & l1 & l2 & _ & [=] & _). }
  f_equal. apply map_eq. intros [f q]. apply option_eq. intros path. split.
  - by apply (Hsub adverts1 adverts2 t1 lg1 t2 lg2).
  - apply (Hsub adverts2 adverts1 t2 lg2 t1 lg1); [by symmetry|done..].
Qed.
End desired_paths.




(** ** When the desired paths are not computed *)

Section path_failures.
Context `{Env}.

(** X9. [getDesiredAFPaths] never panics.  It returns an error if and
    only if some advertisement of the pool type has a selector that does not
    convert, and the error wraps the conversion error of such an
    advertisement; an advertisement of another type never makes it fail.  It
    logs nothing but one line for an advertisement of another type. *)
Theorem getDesiredAFPaths_failure (pool : CiliumPodIPPool) (adverts : PeerAdvertisements)
    (lp : gomap string (list Prefix)) :
  is_Some (getDesiredAFPaths pool adverts lp) ∧
  ((∃ e lg, getDesiredAFPaths pool adverts lp = Some (Err e, lg)) ↔
   (∃ peer fams fam ads advert err,
      (peer, fams) ∈ adverts ∧ (fam, ads) ∈ fams ∧ advert ∈ ads ∧
      AdvertisementType advert = BGPCiliumPodIPPoolAdvert ∧
      LabelSelectorAsSelector (adv_Selector advert) = Err err)) ∧
  (∀ e lg, getDesiredAFPaths pool adverts lp = Some (Err e, lg) →
     ∃ peer fams fam ads advert err,
       (peer, fams) ∈ adverts ∧ (fam, ads) ∈ fams ∧ advert ∈ ads ∧
       AdvertisementType advert = BGPCiliumPodIPPoolAdvert ∧
       LabelSelectorAsSelector (adv_Selector advert) = Err err ∧
       e = Errorf_w "failed to convert label selector" err) ∧
  (∀ r lg, getDesiredAFPaths pool adverts lp = Some (r, lg) →
     Forall (λ l, ∃ peer fams fam ads advert,
               (peer, fams) ∈ adverts ∧ (fam, ads) ∈ fams ∧ advert ∈ ads ∧
               AdvertisementType advert ≠ BGPCiliumPodIPPoolAdvert ∧
               l = LogUnexpectedAdvertType (AdvertisementType advert)) lg).
Proof.
  assert (∀ e lg, getDesiredAFPaths pool adverts lp = Some (Err e, lg) →
     ∃ peer fams fam ads advert err,
       (peer, fams) ∈ adverts ∧ (fam, ads) ∈ fams ∧ advert ∈ ads ∧
       AdvertisementType advert = BGPCiliumPodIPPoolAdvert ∧
       LabelSelectorAsSelector (adv_Selector advert) = Err err ∧
       e = Errorf_w "failed to convert label selector" err) as Hprov.
  { intros e lg. unfold getDesiredAFPaths, bindD_try at 1. rewrite bindD_Some.
    intros ([a|e1] & l1 & l2 & Hloop & Hret & ->); [done|]. injection Hret as <- <-.
    apply forD_Err in Hloop as ([peer fams] & s1 & lg1 & Hp & Hfams).
    apply forD_Err in Hfams as ([fam ads] & s2 & lg2 & Hf & Hads).
    apply forD_Err in Hads as (advert & s3 & lg3 & Ha & Hone).
    unfold bindD, logD, retD in Hone.
    destruct (decide _) as [|Hty%dec_stable]; [done|].
    destruct (LabelSelectorAsSelector (adv_Selector advert)) as [sel|err] eqn:Hsel.
    - destruct (negb _); [done|]. by destruct (go_lookup lp (pool_Name pool)).
    - injection Hone as <- <-. exists peer, fams, fam, ads, advert, err. done. }
  split_and!; [apply getDesiredAFPaths_total| |exact Hprov|].
  - split.
    + intros (e & lg & Herr).
      destruct (Hprov e lg Herr) as (peer & fams & fam & ads & advert & err & ? & ? & ? & ? & ? & _).
      exists peer, fams, fam, ads, advert, err. done.
    + intros (peer & fams & fam & ads & advert & err & Hp & Hf & Ha & Hty & Hsel).
      destruct (getDesiredAFPaths_total pool adverts lp) as [[[m|e] lg] Hr]; [|by eauto].
      by apply (getDesiredAFPaths_not_Ok pool adverts lp _ _ _ _ _ _ Hp Hf Ha Hty Hsel) in Hr.
  - intros r lg. unfold getDesiredAFPaths, bindD_try at 1. rewrite bindD_Some.
    intros (r1 & l1 & l2 & Hloop & Hret & ->).
    assert (l2 = []) as ->.
    { destruct r1; by injection Hret as <- <-. }
    rewrite app_nil_r.
    apply (forD_log _ _ _ _ _ _ Hloop). intros [peer fams] s1 r2 lg1 Hp Hfams.
    apply (forD_log _ _ _ _ _ _ Hfams). intros [fam ads] s2 r3 lg2 Hf Hads.
    apply (forD_log _ _ _ _ _ _ Hads). intros advert s3 r4 lg3 Ha Hone.
    unfold bindD, logD, retD in Hone.
    destruct (decide _) as [Hty|].
    + injection Hone as <- <-. constructor; [|constructor].
      exists peer, fams, fam, ads, advert. done.
    + destruct (LabelSelectorAsSelector (adv_Selector advert)) as [sel|err];
        [|injection Hone as <- <-; constructor].
      destruct (negb _); [injection Hone as <- <-; constructor|].
      destruct (go_lookup lp (pool_Name pool)); injection Hone as <- <-; constructor.
Qed.
End path_failures.




(** ** The route policies of a pool *)

(** A loop whose iterations log nothing logs nothing. *)
Lemma forD__no_log {A S} (l : list A) (s s' : S) (body : A → S → D S) lg :
  forD_ l s body = Some (s', lg) →
  (∀ x s1 s2 lg1, x ∈ l → body x s1 = Some (s2, lg1) → lg1 = []) →
  lg = [].
Proof.
  revert s lg. induction l as [|x l IH]; intros s lg; simpl.
  - by intros [= _ <-].
  - rewrite bindD_Some. intros (s1 & l1 & l2 & Hx & Hl & ->) Hb.
    rewrite (Hb x s s1 l1) by (by try left). simpl.
    eapply IH; [done|]. intros y t1 t2 lg1 Hy. apply Hb. by right.
Qed.

Section policies.
Context `{Env}.

(** The prefix matches of a policy: each prefix with its length bound to the
    mask size of the pool. *)
Definition prefixMatches (maskSize : N) (prefixes : list Prefix) : list RoutePolicyPrefixMatch :=
  (λ prefix, {| pm_CIDR := prefix;
                pm_PrefixLenMin := Z.of_N maskSize;
                pm_PrefixLenMax := Z.of_N maskSize |}) <$> prefixes.

(** One turn of the loop of [getPodIPPoolPolicy] over the prefixes of the
    pool, and the loop. *)
Definition prefixStep (family : Family) (pool : CiliumPodIPPool) (prefix : Prefix)
    : list RoutePolicyPrefixMatch * list RoutePolicyPrefixMatch →
      D (list RoutePolicyPrefixMatch * list RoutePolicyPrefixMatch) :=
  λ '(v4Prefixes, v6Prefixes),
    letD v4Prefixes :=
      if bool_decide (fam_Afi family = AfiIPv4) && Is4 (prefix_Addr prefix) then
        letD maskSize := derefD (pool_IPv4_MaskSize pool) in
        let prefixLen := Z.of_N maskSize in
        retD (v4Prefixes ++ [{| pm_CIDR := prefix;
                                pm_PrefixLenMin := prefixLen;
                                pm_PrefixLenMax := prefixLen |}])
      else retD v4Prefixes in
    letD v6Prefixes :=
      if bool_decide (fam_Afi family = AfiIPv6) && Is6 (prefix_Addr prefix) then
        letD maskSize := derefD (pool_IPv6_MaskSize pool) in
        let prefixLen := Z.of_N maskSize in
        retD (v6Prefixes ++ [{| pm_CIDR := prefix;
                                pm_PrefixLenMin := prefixLen;
                                pm_PrefixLenMax := prefixLen |}])
      else retD v6Prefixes in
    retD (v4Prefixes, v6Prefixes).

Definition prefixLoop (family : Family) (pool : CiliumPodIPPool) (prefixes : list Prefix)
    (acc : list RoutePolicyPrefixMatch * list RoutePolicyPrefixMatch)
    : D (list RoutePolicyPrefixMatch * list RoutePolicyPrefixMatch) :=
  forD_ prefixes acc (prefixStep family pool).

Lemma prefixLoop_cons family pool q prefixes acc :
  prefixLoop family pool (q :: prefixes) acc
  = bindD (prefixStep family pool q acc) (prefixLoop family pool prefixes).
Proof. reflexivity. Qed.

Lemma prefixLoop_v4 family pool prefixes v4 v6 n :
  fam_Afi family = AfiIPv4 → pool_IPv4_MaskSize pool = Some n →
  prefixLoop family pool prefixes (v4, v6)
  = retD (v4 ++ prefixMatches n (filter (λ q, Is4 (prefix_Addr q) = true) prefixes), v6).
Proof.
  intros Ha Hn. revert v4.
  induction prefixes as [|q prefixes IH]; intros v4.
  - unfold prefixLoop, prefixMatches. simpl. by rewrite app_nil_r.
  - rewrite prefixLoop_cons.
    assert (prefixStep family pool q (v4, v6)
            = retD (if Is4 (prefix_Addr q)
                    then v4 ++ prefixMatches n [q] else v4, v6)) as ->.
    { unfold prefixStep. rewrite Ha, Hn. by destruct (Is4 (prefix_Addr q)). }
    rewrite bindD_retD_l, IH. destruct (Is4 (prefix_Addr q)) eqn:H4.
    + rewrite filter_cons_True by done. unfold prefixMatches. simpl.
      by rewrite <- app_assoc.
    + by rewrite filter_cons_False by (by rewrite H4).
Qed.

Lemma prefixLoop_v6 family pool prefixes v4 v6 n :
  fam_Afi family = AfiIPv6 → pool_IPv6_MaskSize pool = Some n →
  prefixLoop family pool prefixes (v4, v6)
  = retD (v4, v6 ++ prefixMatches n (filter (λ q, Is6 (prefix_Addr q) = true) prefixes)).
Proof.
  intros Ha Hn. revert v6.
  induction prefixes as [|q prefixes IH]; intros v6.
  - unfold prefixLoop, prefixMatches. simpl. by rewrite app_nil_r.
  - rewrite prefixLoop_cons.
    assert (prefixStep family pool q (v4, v6)
            = retD (v4, if Is6 (prefix_Addr q)
                        then v6 ++ prefixMatches n [q] else v6)) as ->.
    { unfold prefixStep. rewrite Ha, Hn. by destruct (Is6 (prefix_Addr q)). }
    rewrite bindD_retD_l, IH. destruct (Is6 (prefix_Addr q)) eqn:H6.
    + rewrite filter_cons_True by done. unfold prefixMatches. simpl.
      by rewrite <- app_assoc.
    + by rewrite filter_cons_False by (by rewrite H6).
Qed.

Lemma prefixLoop_other family pool prefixes acc :
  fam_Afi family ≠ AfiIPv4 → fam_Afi family ≠ AfiIPv6 →
  prefixLoop family pool prefixes acc = retD acc.
Proof.
  intros H4 H6. revert acc.
  induction prefixes as [|q prefixes IH]; intros [v4 v6]; [done|].
  rewrite prefixLoop_cons.
  assert (prefixStep family pool q (v4, v6) = retD (v4, v6)) as ->.
  { unfold prefixStep. by rewrite !bool_decide_false by done. }
  by rewrite bindD_retD_l, IH.
Qed.

(** X10. The route policy of a pool for a peer with a valid address and an
    advertisement that selects the pool, when the pool has prefixes on the
    local node.  For an IPv4 family and a pool with an IPv4 mask size [n]:
    no policy when none of the prefixes is IPv4, otherwise the policy that
    [CreatePolicy] makes under the name of the peer, family, type and pool,
    with one match per IPv4 prefix, in their order, of minimal and maximal
    length [n], and no IPv6 match.  The same for IPv6.  For any other family
    no policy. *)
Theorem getPodIPPoolPolicy_policy (peer : PeerID) (family : Family) (pool : CiliumPodIPPool)
    (advert : BGPAdvertisement) (lp : gomap string (list Prefix))
    (peerAddr : Addr) (sel : Selector) (prefixes : list Prefix) :
  peer_Address peer ≠ "" →
  ParseAddr (peer_Address peer) = Ok peerAddr →
  LabelSelectorAsSelector (adv_Selector advert) = Ok sel →
  sel (podIPPoolLabelSet pool) = true →
  go_lookup lp (pool_Name pool) = Some prefixes →
  let name := PolicyName (peer_Name peer) (Afi_String (fam_Afi family))
                         (AdvertisementType advert) (pool_Name pool) in
  (∀ n, fam_Afi family = AfiIPv4 → pool_IPv4_MaskSize pool = Some n →
     getPodIPPoolPolicy peer family pool advert lp
     = retD (match filter (λ q, Is4 (prefix_Addr q) = true) prefixes with
             | [] => Ok None
             | v4 => CreatePolicy name peerAddr (prefixMatches n v4) [] advert
             end)) ∧
  (∀ n, fam_Afi family = AfiIPv6 → pool_IPv6_MaskSize pool = Some n →
     getPodIPPoolPolicy peer family pool advert lp
     = retD (match filter (λ q, Is6 (prefix_Addr q) = true) prefixes with
             | [] => Ok None
             | v6 => CreatePolicy name peerAddr [] (prefixMatches n v6) advert
             end)) ∧
  (fam_Afi family ≠ AfiIPv4 → fam_Afi family ≠ AfiIPv6 →
     getPodIPPoolPolicy peer family pool advert lp = retD (Ok None)).
Proof.
  intros Haddr Hparse Hsel Hmatch Hlp name.
  assert (getPodIPPoolPolicy peer family pool advert lp
          = letD (v4Prefixes, v6Prefixes) := prefixLoop family pool prefixes ([], []) in
            if bool_decide (length v4Prefixes = 0) && bool_decide (length v6Prefixes = 0)
            then retD (Ok None)
            else retD (CreatePolicy name peerAddr v4Prefixes v6Prefixes advert)) as ->.
  { unfold getPodIPPoolPolicy. rewrite decide_False, Hparse, Hsel, Hmatch, Hlp by done.
    reflexivity. }
  split_and!.
  - intros n Ha Hn. rewrite (prefixLoop_v4 _ _ _ _ _ n Ha Hn), bindD_retD_l. simpl.
    by destruct (filter _ prefixes).
  - intros n Ha Hn. rewrite (prefixLoop_v6 _ _ _ _ _ n Ha Hn), bindD_retD_l. simpl.
    by destruct (filter _ prefixes).
  - intros H4 H6. by rewrite prefixLoop_other, bindD_retD_l.
Qed.

Lemma getPodIPPoolPolicy_no_log peer family pool advert lp r lg :
  getPodIPPoolPolicy peer family pool advert lp = Some (r, lg) → lg = [].
Proof.
  unfold getPodIPPoolPolicy, retD.
  destruct (decide _); [by intros [= _ <-]|].
  destruct (ParseAddr _); [|by intros [= _ <-]].
  destruct (LabelSelectorAsSelector _); [|by intros [= _ <-]].
  destruct (negb _); [by intros [= _ <-]|].
  destruct (go_lookup lp (pool_Name pool)) as [prefixes|]; [|by intros [= _ <-]].
  rewrite bindD_Some. intros ([v4 v6] & l1 & l2 & Hloop & Hret & ->).
  assert (l2 = []) as -> by (destruct (_ && _); by injection Hret as _ <-).
  rewrite app_nil_r. apply (forD__no_log _ _ _ _ _ Hloop).
  intros q [u4 u6] [t4 t6] lg1 _. unfold bindD, derefD, retD, panicD.
  repeat case_match; by intros; simplify_eq.
Qed.

(** X11. The route policies of a pool, when [getPodIPPoolPolicies]
    returns them, are a map that is not nil, in which every policy is kept
    under its own name and is the policy that [getPodIPPoolPolicy] gave for
    one of the advertisements, and in which the name of every policy so
    given has an entry.  Nothing is logged. *)
Theorem getPodIPPoolPolicies_names (p : ReconcileParams) (pool : CiliumPodIPPool)
    (adverts : PeerAdvertisements) (lp : gomap string (list Prefix))
    (m : RoutePolicyMap) (lg : list LogEntry) :
  getPodIPPoolPolicies p pool adverts lp = Some (Ok m, lg) →
  m ≠ GoNil ∧ lg = [] ∧
  (∀ name policy, go_lookup m name = Some policy →
     rp_Name policy = name ∧
     ∃ peer fams fam ads advert,
       (peer, fams) ∈ adverts ∧ (fam, ads) ∈ fams ∧ advert ∈ ads ∧
       getPodIPPoolPolicy peer (ToAgentFamily fam) pool advert lp = retD (Ok (Some policy))) ∧
  (∀ peer fams fam ads advert policy,
     (peer, fams) ∈ adverts → (fam, ads) ∈ fams → advert ∈ ads →
     getPodIPPoolPolicy peer (ToAgentFamily fam) pool advert lp = retD (Ok (Some policy)) →
     is_Some (go_lookup m (rp_Name policy))).
Proof.
  unfold getPodIPPoolPolicies. rewrite bindD_try_Some_Ok.
  intros (a & l1 & l2 & Hloop & [= <- <-] & ->). rewrite app_nil_r.
  unfold go_lookup. simpl.
  assert (∀ peer fam advert (u1 u2 : gmap string RoutePolicy) lg3,
    (tryD policy := getPodIPPoolPolicy peer (ToAgentFamily fam) pool advert lp in
     match policy with
     | Some policy => retD (Ok (<[rp_Name policy := policy]> u1))
     | None => retD (Ok u1)
     end) = Some (Ok u2, lg3) →
    lg3 = [] ∧
    ((getPodIPPoolPolicy peer (ToAgentFamily fam) pool advert lp = retD (Ok None) ∧ u2 = u1) ∨
     ∃ policy, getPodIPPoolPolicy peer (ToAgentFamily fam) pool advert lp
               = retD (Ok (Some policy)) ∧
               u2 = <[rp_Name policy := policy]> u1)) as Hstep.
  { intros peer fam advert u1 u2 lg3.
    rewrite bindD_try_Some_Ok. intros (o & l3 & l4 & Ho & Hret & ->).
    pose proof (getPodIPPoolPolicy_no_log _ _ _ _ _ _ _ Ho) as ->.
    destruct o as [policy|]; injection Hret as <- <-; (split; [done|]); eauto. }
  split_and!; [done| | |].
  - apply (forD_log (λ _, False)) in Hloop; [by destruct l1; [|inversion Hloop]|].
    intros [peer fams] s1 r1 lg1 Hp Hfams.
    apply (forD_log (λ _, False) _ _ _ _ _ Hfams). intros [fam ads] s2 r2 lg2 Hf Hads.
    apply (forD_log (λ _, False) _ _ _ _ _ Hads). intros advert s3 r3 lg3 Ha Hone.
    unfold bindD_try in Hone. apply bindD_Some in Hone as (o & l3 & l4 & Ho & Hret & ->).
    pose proof (getPodIPPoolPolicy_no_log _ _ _ _ _ _ _ Ho) as ->.
    destruct o as [[policy|]|e]; injection Hret as <- <-; constructor.
  - pose (Inv := λ s : gmap string RoutePolicy, ∀ name policy, s !! name = Some policy →
       rp_Name policy = name ∧
       ∃ peer fams fam ads advert,
         (peer, fams) ∈ adverts ∧ (fam, ads) ∈ fams ∧ advert ∈ ads ∧
         getPodIPPoolPolicy peer (ToAgentFamily fam) pool advert lp = retD (Ok (Some policy))).
    apply (forD_Ok_inv Inv _ _ _ _ _ Hloop); [done|].
    intros [peer fams] s1 s2 lg1 Hp Hs1 Hfams.
    apply (forD_Ok_inv Inv _ _ _ _ _ Hfams); [done|].
    intros [fam ads] t1 t2 lg2 Hf Ht1 Hads.
    apply (forD_Ok_inv Inv _ _ _ _ _ Hads); [done|].
    intros advert u1 u2 lg3 Ha Hu1 Hone name policy.
    apply Hstep in Hone as [_ [[_ ->]|(policy' & Hp' & ->)]]; [by apply Hu1|].
    destruct (decide (rp_Name policy' = name)) as [<-|Hne].
    + rewrite lookup_insert_eq. intros [= <-]. split; [done|].
      exists peer, fams, fam, ads, advert. done.
    + rewrite lookup_insert_ne by done. by apply Hu1.
  - intros peer fams fam ads advert policy Hp Hf Ha Hpol.
    pose (Q := λ s : gmap string RoutePolicy, is_Some (s !! rp_Name policy)).
    assert (∀ peer' fam' advert' (u1 u2 : gmap string RoutePolicy) lg3,
      (tryD policy := getPodIPPoolPolicy peer' (ToAgentFamily fam') pool advert' lp in
       match policy with
       | Some policy => retD (Ok (<[rp_Name policy := policy]> u1))
       | None => retD (Ok u1)
       end) = Some (Ok u2, lg3) → Q u1 → Q u2) as Hkeep.
    { intros peer' fam' advert' u1 u2 lg3 Hone Hu1.
      apply Hstep in Hone as [_ [[_ ->]|(policy' & _ & ->)]]; [done|].
      unfold Q. rewrite lookup_insert_is_Some. destruct (decide (rp_Name policy' = rp_Name policy)); eauto. }
    apply (forD_Ok_reach Q _ _ _ _ _ _ Hloop Hp).
    + intros s1 s2 lg1 Hfams.
      apply (forD_Ok_reach Q _ _ _ _ _ _ Hfams Hf).
      * intros t1 t2 lg2 Hads.
        apply (forD_Ok_reach Q _ _ _ _ _ _ Hads Ha).
        -- intros u1 u2 lg3 Hone. rewrite Hpol, bindD_try_Ok in Hone.
           injection Hone as <- <-. unfold Q. rewrite lookup_insert_eq. by eexists.
        -- intros advert' u1 u2 lg3 _ Hu1 Hone. by eapply Hkeep.
      * intros [fam' ads'] t1 t2 lg2 _ Ht1 Hads.
        apply (forD_Ok_inv Q _ _ _ _ _ Hads); [done|].
        intros advert' u1 u2 lg3 _ Hu1 Hone. by eapply Hkeep.
    + intros [peer' fams'] s1 s2 lg1 _ Hs1 Hfams.
      apply (forD_Ok_inv Q _ _ _ _ _ Hfams); [done|].
      intros [fam' ads'] t1 t2 lg2 _ Ht1 Hads.
      apply (forD_Ok_inv Q _ _ _ _ _ Hads); [done|].
      intros advert' u1 u2 lg3 _ Hu1 Hone. by eapply Hkeep.
Qed.
End policies.




(** ** The keys of the desired mappings *)

(** The loop over the listed pools: the entry of a listed key is what the
    last pool of that key gives. *)
Lemma insert_pools_last {A V} (f : A → D (result V)) (key : A → Key)
    (l : list A) (d0 d : gmap Key V) lg :
  forD l d0 (λ x d, tryD v := f x in retD (Ok (<[key x := v]> d))) = Some (Ok d, lg) →
  ∀ k, k ∈ key <$> l →
    ∃ x v lg', x ∈ l ∧ key x = k ∧ last (filter (λ y, key y = k) l) = Some x ∧
               f x = Some (Ok v, lg') ∧ d !! k = Some v.
Proof.
  revert d0 lg. induction l as [|y l IH]; intros d0 lg; simpl.
  - intros _ k Hk. by apply elem_of_nil in Hk.
  - intros Hrun k Hk. pose proof Hrun as Hrun'.
    apply bindD_try_Some_Ok in Hrun as (d1 & l1 & l2 & Hy & Hl & ->).
    apply bindD_try_Some_Ok in Hy as (v & l3 & l4 & Hv & [= <- <-] & ->).
    destruct (decide (k ∈ key <$> l)) as [Hin|Hnin].
    + destruct (IH _ _ Hl k Hin) as (x & v' & lg' & Hx & Hkx & Hlast & Hfx & Hd).
      exists x, v', lg'. split_and!; [by right|done| |done..].
      rewrite filter_cons. case_decide; [|done].
      rewrite last_cons. by rewrite Hlast.
    + apply elem_of_cons in Hk as [->|Hk]; [|done].
      exists y, v, l3. split_and!; [by left|done| |done|].
      * rewrite filter_cons_True by done.
        assert (filter (λ x, key x = key y) l = []) as ->; [|done].
        destruct (filter (λ x, key x = key y) l) as [|x l'] eqn:Hfl; [done|].
        assert (x ∈ filter (λ x, key x = key y) l) as Hx by (rewrite Hfl; by left).
        apply list_elem_of_filter in Hx as [Hkx Hx]. destruct Hnin.
        apply list_elem_of_fmap. by exists x.
      * destruct (insert_pools_spec f key l _ _ _ Hl) as (Hout & _).
        rewrite Hout by done. apply lookup_insert_eq.
Qed.

(** The two loops of a derivation together. *)
Lemma desired_entries_spec {U W} `{Countable W} {V}
    (get : Key → result (option CiliumPodIPPool)) (fixerr : error → error)
    (retained : list (Key * U)) (f : CiliumPodIPPool → D (result (gomap W V)))
    (pools : list CiliumPodIPPool) (d1 d2 : gmap Key (gomap W V)) lg1 lg2 :
  forD retained ∅ (λ '(poolKey, _) d,
    match get poolKey with
    | Err err => retD (Err (fixerr err))
    | Ok None => retD (Ok (<[poolKey := GoNil]> d))
    | Ok (Some _) => retD (Ok d)
    end) = Some (Ok d1, lg1) →
  forD pools d1 (λ pool d, tryD v := f pool in retD (Ok (<[keyOf pool := v]> d)))
    = Some (Ok d2, lg2) →
  (∀ pool v lg, f pool = Some (Ok v, lg) → v ≠ GoNil) →
  ∀ k,
    (d2 !! k = Some GoNil ↔
     (k ∉ keyOf <$> pools) ∧ k ∈ retained.*1 ∧ get k = Ok None) ∧
    (k ∈ keyOf <$> pools →
     ∃ pool v lg', pool ∈ pools ∧ keyOf pool = k ∧
                   last (filter (λ pl, keyOf pl = k) pools) = Some pool ∧
                   f pool = Some (Ok v, lg') ∧
                   d2 !! k = Some v ∧ v ≠ GoNil) ∧
    (d2 !! k = None ↔
     (k ∉ keyOf <$> pools) ∧ ¬ (k ∈ retained.*1 ∧ get k = Ok None)).
Proof.
  intros Hmark Hloop Hf k.
  apply (mark_deleted_spec get fixerr) in Hmark as (_ & _ & Hmarked & Hkeep).
  pose proof (insert_pools_last _ _ _ _ _ _ Hloop k) as Hlast.
  apply insert_pools_spec in Hloop as (Hout & _ & _).
  assert (k ∈ keyOf <$> pools →
     ∃ pool v lg', pool ∈ pools ∧ keyOf pool = k ∧
                   last (filter (λ pl, keyOf pl = k) pools) = Some pool ∧
                   f pool = Some (Ok v, lg') ∧
                   d2 !! k = Some v ∧ v ≠ GoNil) as Hlisted.
  { intros Hk. destruct (Hlast Hk) as (pool & v & lg' & Hpool & Hkey & Hlst & Hfp & Hd).
    exists pool, v, lg'. split_and!; [done..|]. by eapply Hf. }
  assert ((k ∈ retained.*1 ∧ get k = Ok None) ∨ ¬ (k ∈ retained.*1 ∧ get k = Ok None))
    as Hdec.
  { destruct (decide (k ∈ retained.*1)) as [Hin|Hnin]; [|right; by intros [? _]].
    destruct (get k) as [[x|]|e]; [right; by intros [_ ?]|by left|right; by intros [_ ?]]. }
  split_and!; [|done|].
  - split.
    + intros Hnil.
      destruct (decide (k ∈ keyOf <$> pools)) as [Hin|Hnin].
      { destruct (Hlisted Hin) as (pool & v & lg' & _ & _ & _ & _ & Hd & Hv). congruence. }
      split; [done|]. rewrite Hout in Hnil by done.
      destruct Hdec as [|Hno]; [done|].
      rewrite Hkeep in Hnil by done. by rewrite lookup_empty in Hnil.
    + intros (Hnin & Hret & Hget). rewrite Hout by done. by apply Hmarked.
  - split.
    + intros Hnone.
      destruct (decide (k ∈ keyOf <$> pools)) as [Hin|Hnin].
      { destruct (Hlisted Hin) as (pool & v & lg' & _ & _ & _ & _ & Hd & Hv). congruence. }
      split; [done|]. intros [Hret Hget]. rewrite Hout in Hnone by done.
      by rewrite Hmarked in Hnone.
    + intros (Hnin & Hno). rewrite Hout by done. rewrite Hkeep by done. apply lookup_empty.
Qed.

Section desired_keys.
Context `{Env}.

Lemma getDesiredAFPaths_GoMap pool adverts lp m lg :
  getDesiredAFPaths pool adverts lp = Some (Ok m, lg) → m ≠ GoNil.
Proof.
  unfold getDesiredAFPaths. rewrite bindD_try_Some_Ok.
  by intros (a & l1 & l2 & _ & [= <- <-] & _).
Qed.

Lemma getPodIPPoolPolicies_GoMap p pool adverts lp m lg :
  getPodIPPoolPolicies p pool adverts lp = Some (Ok m, lg) → m ≠ GoNil.
Proof.
  unfold getPodIPPoolPolicies. rewrite bindD_try_Some_Ok.
  by intros (a & l1 & l2 & _ & [= <- <-] & _).
Qed.

Lemma getDesiredPoolAFPaths_keys (r : PodIPPoolReconciler) (p : ReconcileParams)
    (adverts : PeerAdvertisements) (lp : gomap string (list Prefix)) (i : BGPInstance) m lg :
  p_BGPInstance p = Some i →
  getDesiredPoolAFPaths r p adverts lp = Some (Ok m, lg) →
  ∃ pools, List (poolStore r) = Ok pools ∧ m ≠ GoNil ∧
    ∀ k,
      (go_lookup m k = Some GoNil ↔
       (k ∉ keyOf <$> pools) ∧ is_Some (go_lookup (PoolAFPaths (getMetadata r i)) k) ∧
       GetByKey (poolStore r) k = Ok None) ∧
      (k ∈ keyOf <$> pools →
       ∃ pool v lg', pool ∈ pools ∧ keyOf pool = k ∧
                     last (filter (λ pl, keyOf pl = k) pools) = Some pool ∧
                     getDesiredAFPaths pool adverts lp = Some (Ok v, lg') ∧
                     go_lookup m k = Some v ∧ v ≠ GoNil) ∧
      (go_lookup m k = None ↔
       (k ∉ keyOf <$> pools) ∧
       ¬ (is_Some (go_lookup (PoolAFPaths (getMetadata r i)) k) ∧
          GetByKey (poolStore r) k = Ok None)).
Proof.
  intros Hi Hm.
  apply getDesiredPoolAFPaths_Ok in Hm
    as (i' & d1 & pools & d2 & lg2 & Hi' & Hmark & HL & Hloop & -> & ->).
  rewrite Hi in Hi'. injection Hi' as <-.
  exists pools. split_and!; [done..|]. intros k.
  pose proof (desired_entries_spec _ _ _ _ _ _ _ _ _ Hmark Hloop
                (λ pool v lg, getDesiredAFPaths_GoMap pool adverts lp v lg) k) as Hk.
  rewrite !elem_of_range_keys in Hk. exact Hk.
Qed.

Lemma getDesiredPodIPPoolRoutePolicies_keys (r : PodIPPoolReconciler) (p : ReconcileParams)
    (adverts : PeerAdvertisements) (lp : gomap string (list Prefix)) (i : BGPInstance) m lg :
  p_BGPInstance p = Some i →
  getDesiredPodIPPoolRoutePolicies r p adverts lp = Some (Ok m, lg) →
  ∃ pools, List (poolStore r) = Ok pools ∧ m ≠ GoNil ∧
    ∀ k,
      (go_lookup m k = Some GoNil ↔
       (k ∉ keyOf <$> pools) ∧ is_Some (go_lookup (PoolRoutePolicies (getMetadata r i)) k) ∧
       GetByKey (poolStore r) k = Ok None) ∧
      (k ∈ keyOf <$> pools →
       ∃ pool v lg', pool ∈ pools ∧ keyOf pool = k ∧
                     last (filter (λ pl, keyOf pl = k) pools) = Some pool ∧
                     getPodIPPoolPolicies p pool adverts lp = Some (Ok v, lg') ∧
                     go_lookup m k = Some v ∧ v ≠ GoNil) ∧
      (go_lookup m k = None ↔
       (k ∉ keyOf <$> pools) ∧
       ¬ (is_Some (go_lookup (PoolRoutePolicies (getMetadata r i)) k) ∧
          GetByKey (poolStore r) k = Ok None)).
Proof.
  intros Hi Hm.
  apply getDesiredPodIPPoolRoutePolicies_Ok in Hm
    as (i' & d1 & pools & d2 & lg2 & Hi' & Hmark & HL & Hloop & -> & ->).
  rewrite Hi in Hi'. injection Hi' as <-.
  exists pools. split_and!; [done..|]. intros k.
  pose proof (desired_entries_spec _ (λ err, err) _ _ _ _ _ _ _ Hmark Hloop
                (λ pool v lg, getPodIPPoolPolicies_GoMap p pool adverts lp v lg) k) as Hk.
  rewrite !elem_of_range_keys in Hk. exact Hk.
Qed.

(** X12. The keys of the two desired mappings, when the derivations return
    them.  A key is mapped to nil exactly when no listed pool has it, the
    metadata retains it and [GetByKey] reports that the pool does not
    exist; the key of a listed pool is mapped to what the last listed pool
    of that key gives, which is not nil; every other key has no entry. *)
Theorem desired_mapping_keys (r : PodIPPoolReconciler) (p : ReconcileParams)
    (adverts : PeerAdvertisements) (lp : gomap string (list Prefix)) (i : BGPInstance) :
  p_BGPInstance p = Some i →
  (∀ m lg, getDesiredPoolAFPaths r p adverts lp = Some (Ok m, lg) →
     ∃ pools, List (poolStore r) = Ok pools ∧ m ≠ GoNil ∧
       ∀ k,
         (go_lookup m k = Some GoNil ↔
          (k ∉ keyOf <$> pools) ∧ is_Some (go_lookup (PoolAFPaths (getMetadata r i)) k) ∧
          GetByKey (poolStore r) k = Ok None) ∧
         (k ∈ keyOf <$> pools →
          ∃ pool v lg', pool ∈ pools ∧ keyOf pool = k ∧
                        last (filter (λ pl, keyOf pl = k) pools) = Some pool ∧
                        getDesiredAFPaths pool adverts lp = Some (Ok v, lg') ∧
                        go_lookup m k = Some v ∧ v ≠ GoNil) ∧
         (go_lookup m k = None ↔
          (k ∉ keyOf <$> pools) ∧
          ¬ (is_Some (go_lookup (PoolAFPaths (getMetadata r i)) k) ∧
             GetByKey (poolStore r) k = Ok None))) ∧
  (∀ m lg, getDesiredPodIPPoolRoutePolicies r p adverts lp = Some (Ok m, lg) →
     ∃ pools, List (poolStore r) = Ok pools ∧ m ≠ GoNil ∧
       ∀ k,
         (go_lookup m k = Some GoNil ↔
          (k ∉ keyOf <$> pools) ∧ is_Some (go_lookup (PoolRoutePolicies (getMetadata r i)) k) ∧
          GetByKey (poolStore r) k = Ok None) ∧
         (k ∈ keyOf <$> pools →
          ∃ pool v lg', pool ∈ pools ∧ keyOf pool = k ∧
                        last (filter (λ pl, keyOf pl = k) pools) = Some pool ∧
                        getPodIPPoolPolicies p pool adverts lp = Some (Ok v, lg') ∧
                        go_lookup m k = Some v ∧ v ≠ GoNil) ∧
         (go_lookup m k = None ↔
          (k ∉ keyOf <$> pools) ∧
          ¬ (is_Some (go_lookup (PoolRoutePolicies (getMetadata r i)) k) ∧
             GetByKey (poolStore r) k = Ok None))).
Proof.
  intros Hi. split; intros m lg Hm.
  - by eapply getDesiredPoolAFPaths_keys.
  - by eapply getDesiredPodIPPoolRoutePolicies_keys.
Qed.

(** X13. Where an error of [getDesiredPoolAFPaths] comes from: it is the
    error of the store, from [List] or from [GetByKey] on a retained key,
    joined with [ErrAbortReconcile] when it is [ErrStoreUninitialized]
    (the store error is still found in it by [errors.Is]), or else it is
    the error of [getDesiredAFPaths] for a listed pool. *)
Theorem getDesiredPoolAFPaths_errors (r : PodIPPoolReconciler) (p : ReconcileParams)
    (adverts : PeerAdvertisements) (lp : gomap string (list Prefix)) (i : BGPInstance)
    (e' : error) (lg : list LogEntry) :
  p_BGPInstance p = Some i →
  getDesiredPoolAFPaths r p adverts lp = Some (Err e', lg) →
  (∃ e,
     (List (poolStore r) = Err e ∨
      ∃ k, is_Some (go_lookup (PoolAFPaths (getMetadata r i)) k) ∧
           GetByKey (poolStore r) k = Err e) ∧
     e' = (if errors_Is e ErrStoreUninitialized then joinError2 e ErrAbortReconcile else e) ∧
     errors_Is e' e = true ∧
     (errors_Is e ErrStoreUninitialized = true → errors_Is e' ErrAbortReconcile = true)) ∨
  (∃ pools pool lg',
     List (poolStore r) = Ok pools ∧ pool ∈ pools ∧
     getDesiredAFPaths pool adverts lp = Some (Err e', lg')).
Proof.
  intros Hi. unfold getDesiredPoolAFPaths. rewrite Hi. cbn [derefD]. rewrite bindD_retD_l.
  assert (∀ e, let e1 := if errors_Is e ErrStoreUninitialized
                         then joinError2 e ErrAbortReconcile else e in
     errors_Is e1 e = true ∧
     (errors_Is e ErrStoreUninitialized = true → errors_Is e1 ErrAbortReconcile = true))
    as Hfix.
  { intros e. simpl. destruct (errors_Is e ErrStoreUninitialized) eqn:Hu.
    - split; [apply errors_Is_joinError2_l, errors_Is_refl|].
      intros _. apply errors_Is_joinError2_r, errors_Is_refl.
    - split; [apply errors_Is_refl|done]. }
  unfold bindD_try at 1. rewrite bindD_Some.
  intros ([d1|e1] & l1 & l2 & Hmark & Hrest & ->).
  - destruct (List (poolStore r)) as [pools|e] eqn:HL.
    + right. unfold bindD_try at 1 in Hrest. apply bindD_Some in Hrest
        as ([d2|e2] & l3 & l4 & Hloop & Hret & ->); [done|].
      injection Hret as <- <-.
      apply forD_Err in Hloop as (pool & s1 & lg1 & Hpool & Hone).
      unfold bindD_try in Hone. apply bindD_Some in Hone
        as ([v|e3] & l5 & l6 & Hv & Hret & ->); [done|].
      injection Hret as <- <-. exists pools, pool, l5. done.
    + left. injection Hrest as <- <-. exists e. destruct (Hfix e). split_and!; eauto.
  - left. injection Hrest as <- <-.
    apply forD_Err in Hmark as ([k v] & s1 & lg1 & Hk & Hone).
    destruct (GetByKey (poolStore r) k) as [[x|]|e] eqn:Hget; [done..|].
    injection Hone as <- <-. exists e. destruct (Hfix e). split_and!; [|done..].
    right. exists k. split; [|done]. apply elem_of_range_keys.
    apply list_elem_of_fmap. by exists (k, v).
Qed.
End desired_keys.

(** ** What a call to [Reconcile] leaves alone *)

(** The step from [w] to [w'] keeps the store and the advertisement lookup,
    only adds to the log, and leaves alone the metadata and the router of
    every instance but that of the parameters. *)
Definition untouched (p : ReconcileParams) (w w' : World) : Prop :=
  poolStore (w_r w') = poolStore (w_r w) ∧
  peerAdvert (w_r w') = peerAdvert (w_r w) ∧
  (∃ lg, w_log w' = w_log w ++ lg) ∧
  ∀ n, (∀ i, p_BGPInstance p = Some i → n ≠ inst_Name i) →
       metadata (w_r w') !! n = metadata (w_r w) !! n ∧ w_routers w' n = w_routers w n.

Lemma untouched_refl p w : untouched p w w.
Proof. split_and!; [done..|exists []; by rewrite app_nil_r|done]. Qed.

Lemma untouched_add_log p w lg : untouched p w (add_log w lg).
Proof. split_and!; [done..|by exists lg|done]. Qed.

Lemma untouched_trans p w1 w2 w3 : untouched p w1 w2 → untouched p w2 w3 → untouched p w1 w3.
Proof.
  intros (Hs1 & Ha1 & [l1 Hl1] & Hn1) (Hs2 & Ha2 & [l2 Hl2] & Hn2).
  split_and!; [congruence..| |].
  - exists (l1 ++ l2). by rewrite Hl2, Hl1, app_assoc.
  - intros n Hn. destruct (Hn1 n Hn) as [<- <-]. by apply Hn2.
Qed.

Section reconcile_frame.
Context `{Env}.

Lemma reconcileRoutePolicies_untouched p adverts lp w res w' :
  reconcileRoutePolicies p adverts lp w = Some (res, w') → untouched p w w'.
Proof.
  intros [(e & lg & _ & _ & ->)|(i & Des & lg & m' & new & Hi & HD & Hlog & Hr & Hafter & Hres)]
    %reconcileRoutePolicies_summary; [apply untouched_add_log|].
  destruct Hafter as (_ & _ & Ho & _). simpl in Ho.
  split_and!; [by rewrite Hr..|by exists lg|].
  intros n Hn. specialize (Hn i Hi). split; [|by apply Ho].
  rewrite Hr. simpl. by apply lookup_insert_ne, not_eq_sym.
Qed.

Lemma reconcilePaths_untouched p adverts lp w res w' :
  reconcilePaths p adverts lp w = Some (res, w') → untouched p w w'.
Proof.
  intros [(e & lg & _ & _ & ->)
         |(i & cfg & Des & lg & m' & new & Hi & Hcfg & HD & Hlog & Hr & Hafter & Hres & _)]
    %reconcilePaths_summary; [apply untouched_add_log|].
  destruct Hafter as (_ & _ & Ho & _). simpl in Ho.
  split_and!; [by rewrite Hr..|by exists lg|].
  intros n Hn. specialize (Hn i Hi). split; [|by apply Ho].
  rewrite Hr. simpl. by apply lookup_insert_ne, not_eq_sym.
Qed.

(** X14. What [Reconcile] leaves alone, whatever it returns: the pool
    store and the advertisement lookup of the reconciler, the lines logged
    before, and the metadata and the router of every instance but the one
    of the parameters. *)
Theorem Reconcile_frame (p : ReconcileParams) (w w' : World) (res : option error) :
  Reconcile p w = Some (res, w') →
  poolStore (w_r w') = poolStore (w_r w) ∧
  peerAdvert (w_r w') = peerAdvert (w_r w) ∧
  (∃ lg, w_log w' = w_log w ++ lg) ∧
  ∀ n, (∀ i, p_BGPInstance p = Some i → n ≠ inst_Name i) →
       metadata (w_r w') !! n = metadata (w_r w) !! n ∧ w_routers w' n = w_routers w n.
Proof.
  intros [(e & _ & _ & ->)|(_ & lp & lg0 & _ & Hrest)]%Reconcile_inv;
    [apply untouched_refl|].
  destruct Hrest as [(e & _ & _ & ->)|(adverts & _ & Hrest)]; [apply untouched_add_log|].
  apply (untouched_trans p _ (add_log w lg0)); [apply untouched_add_log|].
  destruct Hrest as [(e & Hrp & _)|(w1 & Hrp & Haf)].
  - by eapply reconcileRoutePolicies_untouched.
  - eapply untouched_trans;
      [by eapply reconcileRoutePolicies_untouched|by eapply reconcilePaths_untouched].
Qed.

(** The route-policy pass does not touch the retained paths and makes no
    call for paths. *)
Lemma reconcileRoutePolicies_paths_alone p adverts lp w res w' (i : BGPInstance) :
  reconcileRoutePolicies p adverts lp w = Some (res, w') →
  p_BGPInstance p = Some i →
  PoolAFPaths (getMetadata (w_r w') i) = PoolAFPaths (getMetadata (w_r w) i) ∧
  ∃ new,
    router_calls (w_routers w' (inst_Name i))
      = router_calls (w_routers w (inst_Name i)) ++ new ∧
    ∀ ca, ca ∈ new → pathDelta_of (call_delta ca.1) = None.
Proof.
  intros [(e & lg & _ & _ & ->)|(i' & Des & lg & m' & new & Hi' & HD & Hlog & Hr & Hafter & Hres)]
    %reconcileRoutePolicies_summary Hi.
  - split; [done|]. exists []. split; [simpl; by rewrite app_nil_r|].
    intros ca Hca. by apply elem_of_nil in Hca.
  - rewrite Hi in Hi'. injection Hi' as <-.
    split; [by rewrite Hr, getMetadata_setMetadata|].
    destruct Hafter as (_ & _ & _ & Hc & _). simpl in Hc.
    exists new. split; [done|]. intros ca Hca.
    destruct Hres as (_ & Hkeys & _ & _ & _ & Hout).
    by destruct (engine_loop_calls PolicyDelta _ _ _ _ _ Hkeys Hout ca Hca) as (c & d & ->).
Qed.

(** X15. [Reconcile] stops at the first error.  When the validation of the
    parameters fails nothing changes; when the advertisement lookup fails
    only the lines of [populateLocalPools] are logged; when the
    route-policy pass returns an error, [Reconcile] returns it at once: the
    retained paths are those from before and no call for paths is made to
    the router. *)
Theorem Reconcile_stops_at_first_error (p : ReconcileParams) (w : World) :
  (∀ e, ValidateParams p = Some e → Reconcile p w = Some (Some e, w)) ∧
  (∀ e lp lg0,
     ValidateParams p = None →
     populateLocalPools (p_CiliumNode p) = Some (lp, lg0) →
     peerAdvert (w_r w) (p_DesiredConfig p) BGPCiliumPodIPPoolAdvert = Err e →
     Reconcile p w = Some (Some e, add_log w lg0)) ∧
  (∀ e lp lg0 adverts w1 i,
     ValidateParams p = None →
     populateLocalPools (p_CiliumNode p) = Some (lp, lg0) →
     peerAdvert (w_r w) (p_DesiredConfig p) BGPCiliumPodIPPoolAdvert = Ok adverts →
     reconcileRoutePolicies p adverts lp (add_log w lg0) = Some (Some e, w1) →
     p_BGPInstance p = Some i →
     Reconcile p w = Some (Some e, w1) ∧
     PoolAFPaths (getMetadata (w_r w1) i) = PoolAFPaths (getMetadata (w_r w) i) ∧
     ∃ new,
       router_calls (w_routers w1 (inst_Name i))
         = router_calls (w_routers w (inst_Name i)) ++ new ∧
       ∀ ca, ca ∈ new → pathDelta_of (call_delta ca.1) = None).
Proof.
  split_and!.
  - intros e Hval. unfold Reconcile. by rewrite Hval.
  - intros e lp lg0 Hval Hlp Hadv. unfold Reconcile. rewrite Hval.
    unfold bindM at 1. unfold liftD. rewrite Hlp.
    unfold bindM at 1. unfold getR. simpl. by rewrite Hadv.
  - intros e lp lg0 adverts w1 i Hval Hlp Hadv Hrp Hi.
    split; [by eapply Reconcile_returns_policy_error|].
    by apply (reconcileRoutePolicies_paths_alone _ _ _ _ _ _ _ Hrp Hi).
Qed.

(** ** After a route-policy pass without error *)

Lemma reconcileRoutePolicies_converged p adverts lp w w' (i : BGPInstance) Des lg :
  reconcileRoutePolicies p adverts lp w = Some (None, w') →
  p_BGPInstance p = Some i →
  getDesiredPodIPPoolRoutePolicies (w_r w) p adverts lp = Some (Ok Des, lg) →
  (∀ k d, go_lookup Des k = Some d →
     conv_entry (PoolRoutePolicies (getMetadata (w_r w') i)) k d) ∧
  (∀ k, go_lookup Des k = None →
     go_lookup (PoolRoutePolicies (getMetadata (w_r w') i)) k
     = go_lookup (PoolRoutePolicies (getMetadata (w_r w) i)) k).
Proof.
  intros [(e & lg' & _ & [=] & _)|(i' & Des' & lg' & m' & new & Hi' & HD & Hlog & Hr & Hafter & Hres)]
    %reconcileRoutePolicies_summary Hi HDes.
  rewrite Hi in Hi'. injection Hi' as <-.
  rewrite HDes in HD. injection HD as <- <-.
  rewrite Hr, getMetadata_setMetadata. simpl. split.
  - intros k d Hd. eapply loop_result_conv; [exact Hres|]. by apply elem_of_range.
  - intros k Hk. destruct Hres as (Hframe & _). apply Hframe.
    rewrite elem_of_range_keys, Hk. by intros [? ?].
Qed.

Lemma lingering_policies_pass p adverts lp w w' (i : BGPInstance) pools :
  reconcileRoutePolicies p adverts lp w = Some (None, w') →
  p_BGPInstance p = Some i →
  List (poolStore (w_r w)) = Ok pools →
  (∀ k pool, GetByKey (poolStore (w_r w)) k = Ok (Some pool) → k ∈ keyOf <$> pools) →
  ∀ k c, go_lookup (PoolRoutePolicies (getMetadata (w_r w') i)) k = Some c →
    k ∈ keyOf <$> pools ∧ content c ≠ ∅.
Proof.
  intros Hrun Hi HL Hstore k c Hc.
  pose proof Hrun as Hsum.
  apply reconcileRoutePolicies_summary in Hsum
    as [(e & lg' & _ & [=] & _)|(i' & Des & lg & m' & new & Hi' & HD & _)].
  destruct (reconcileRoutePolicies_converged _ _ _ _ _ _ _ _ Hrun Hi HD) as [Hconv Hframe].
  destruct (getDesiredPodIPPoolRoutePolicies_keys _ _ _ _ _ _ _ Hi HD)
    as (pools' & HL' & _ & Hkeys).
  rewrite HL in HL'. injection HL' as <-.
  destruct (Hkeys k) as (Hnil & Hlisted & Hnone).
  destruct (go_lookup Des k) as [d|] eqn:Hd.
  - destruct (Hconv k d Hd) as [[Hno _]|(c' & Hc' & Hcd & Hne)]; [congruence|].
    rewrite Hc in Hc'. injection Hc' as <-. split; [|congruence].
    destruct (decide (k ∈ keyOf <$> pools)) as [|Hnin]; [done|].
    exfalso.
    destruct (decide (is_Some (go_lookup (PoolRoutePolicies (getMetadata (w_r w) i)) k)))
      as [Hret|Hret].
    2: { assert (Some d = None) as Hn
           by (apply Hnone; split; [done|by intros [? _]]).
         done. }
    destruct (GetByKey (poolStore (w_r w)) k) as [[x|]|e] eqn:Hget.
    + apply Hnin. by eapply Hstore.
    + assert (Some d = Some GoNil) as Hn by (by apply Hnil).
      injection Hn as ->. done.
    + assert (Some d = None) as Hn
        by (apply Hnone; split; [done|by intros [_ ?]]).
      done.
  - exfalso. rewrite Hframe in Hc by done.
    destruct (proj1 Hnone eq_refl) as [Hnin Hno].
    apply getDesiredPodIPPoolRoutePolicies_Ok in HD
      as (i2 & d1 & pools2 & d2 & lg2 & Hi2 & Hmark & _).
    rewrite Hi in Hi2. injection Hi2 as <-.
    apply (mark_deleted_spec _ (λ err, err)) in Hmark as (_ & Hget & _).
    destruct (Hget k) as [[x|] Hx].
    + apply elem_of_range_keys. by eexists.
    + apply Hnin. by eapply Hstore.
    + apply Hno. split; [by eexists|done].
Qed.

(** The path pass does not touch the retained route policies. *)
Lemma reconcilePaths_policies_alone p adverts lp w res w' (i : BGPInstance) :
  reconcilePaths p adverts lp w = Some (res, w') →
  p_BGPInstance p = Some i →
  PoolRoutePolicies (getMetadata (w_r w') i) = PoolRoutePolicies (getMetadata (w_r w) i).
Proof.
  intros [(e & lg & _ & _ & ->)
         |(i' & cfg & Des & lg & m' & new & Hi' & Hcfg & HD & Hlog & Hr & _)]
    %reconcilePaths_summary Hi; [done|].
  rewrite Hi in Hi'. injection Hi' as <-. by rewrite Hr, getMetadata_setMetadata.
Qed.

(** A call without error went through both passes. *)
Lemma Reconcile_None_inv p w w' (i : BGPInstance) :
  Reconcile p w = Some (None, w') →
  p_BGPInstance p = Some i →
  ∃ lp lg0 adverts w1,
    populateLocalPools (p_CiliumNode p) = Some (lp, lg0) ∧
    peerAdvert (w_r w) (p_DesiredConfig p) BGPCiliumPodIPPoolAdvert = Ok adverts ∧
    reconcileRoutePolicies p adverts lp (add_log w lg0) = Some (None, w1) ∧
    PoolRoutePolicies (getMetadata (w_r w') i) = PoolRoutePolicies (getMetadata (w_r w1) i).
Proof.
  intros [(e & _ & [=] & _)|(_ & lp & lg0 & Hlp & Hrest)]%Reconcile_inv Hi.
  destruct Hrest as [(e & _ & [=] & _)|(adverts & Hadv & Hrest)].
  destruct Hrest as [(e & _ & [=])|(w1 & Hrp & Haf)].
  exists lp, lg0, adverts, w1. split_and!; [done..|].
  by eapply reconcilePaths_policies_alone.
Qed.

(** X16. After a [Reconcile] without error the retained route policies
    agree with the desired ones: a key whose desired policies are empty or
    nil has no entry, a key with desired policies has an entry with the same
    content, and a key without a desired entry keeps what it had. *)
Theorem Reconcile_converges_policies (p : ReconcileParams) (w w' : World) (i : BGPInstance)
    (lp : gomap string (list Prefix)) (lg0 : list LogEntry) (adverts : PeerAdvertisements)
    (Des : ResourceRoutePolicyMap) (lg : list LogEntry) :
  Reconcile p w = Some (None, w') →
  p_BGPInstance p = Some i →
  populateLocalPools (p_CiliumNode p) = Some (lp, lg0) →
  peerAdvert (w_r w) (p_DesiredConfig p) BGPCiliumPodIPPoolAdvert = Ok adverts →
  getDesiredPodIPPoolRoutePolicies (w_r w) p adverts lp = Some (Ok Des, lg) →
  let retained := PoolRoutePolicies (getMetadata (w_r w') i) in
  (∀ k d, go_lookup Des k = Some d → content d = ∅ → go_lookup retained k = None) ∧
  (∀ k d, go_lookup Des k = Some d → content d ≠ ∅ →
     ∃ c, go_lookup retained k = Some c ∧ content c = content d) ∧
  (∀ k, go_lookup Des k = None →
     go_lookup retained k = go_lookup (PoolRoutePolicies (getMetadata (w_r w) i)) k).
Proof.
  intros Hrun Hi Hlp Hadv HD retained.
  destruct (Reconcile_None_inv _ _ _ _ Hrun Hi)
    as (lp' & lg0' & adverts' & w1 & Hlp' & Hadv' & Hrp & Hsame).
  rewrite Hlp in Hlp'. injection Hlp' as <- <-.
  rewrite Hadv in Hadv'. injection Hadv' as <-.
  destruct (reconcileRoutePolicies_converged _ _ _ _ _ _ _ _ Hrp Hi HD) as [Hconv Hframe].
  unfold retained. rewrite Hsame. split_and!; [| |done].
  - intros k d Hd He. by destruct (Hconv k d Hd) as [[? _]|(c & _ & _ & ?)].
  - intros k d Hd He. destruct (Hconv k d Hd) as [[_ ?]|(c & ? & ? & _)]; [done|eauto].
Qed.

(** X17. No route policies linger.  When every pool that [GetByKey] finds is
    among the pools that [List] returns, then after a [Reconcile] without
    error every key of the retained route policies is the key of a listed
    pool, and none of the retained sets is empty. *)
Theorem no_policies_linger (p : ReconcileParams) (w w' : World) (i : BGPInstance)
    (pools : list CiliumPodIPPool) :
  Reconcile p w = Some (None, w') →
  p_BGPInstance p = Some i →
  List (poolStore (w_r w)) = Ok pools →
  (∀ k pool, GetByKey (poolStore (w_r w)) k = Ok (Some pool) → k ∈ keyOf <$> pools) →
  ∀ k c, go_lookup (PoolRoutePolicies (getMetadata (w_r w') i)) k = Some c →
    k ∈ keyOf <$> pools ∧ content c ≠ ∅.
Proof.
  intros Hrun Hi HL Hstore k c.
  destruct (Reconcile_None_inv _ _ _ _ Hrun Hi)
    as (lp & lg0 & adverts & w1 & _ & _ & Hrp & ->).
  by apply (lingering_policies_pass _ _ _ _ _ _ _ Hrp Hi HL Hstore).
Qed.

End reconcile_frame.

(** ** Without [Init] *)

(** On the nil map the loop panics when it comes to store the policies of a
    key: writing to the nil map. *)
Lemma engine_loop_nil {KV : Type} `{Countable KV} {V : Type} `{EqDecision V} {P : Type}
    (pre : M P) (mkDelta : gmap KV V → gmap KV V → RouterDelta) (i : BGPInstance)
    (l : list (Key * gomap KV V)) (err : option error) (w : World) :
  (∃ k d, (k, d) ∈ l ∧ content d ≠ ∅) →
  forM_ l (GoNil, err) (engineBody pre mkDelta i) w = None.
Proof.
  revert err w. induction l as [|[k d] l IH]; intros err w (k' & d' & Hin & Hne).
  { by apply elem_of_nil in Hin. }
  cbn [forM_]. unfold bindM at 1.
  destruct (decide (content d = ∅)) as [He|He].
  - assert (engineBody pre mkDelta i (k, d) (GoNil, err) w = Some ((GoNil, err), w)) as ->.
    { unfold engineBody. rewrite go_len_bool. simpl. by rewrite bool_decide_true. }
    apply IH. exists k', d'. split; [|done].
    apply elem_of_cons in Hin as [[= -> ->]|Hin]; done.
  - assert (engineBody pre mkDelta i (k, d) (GoNil, err) w = None) as ->; [|done].
    unfold engineBody. rewrite go_len_bool. simpl.
    rewrite (bool_decide_false (content d = ∅)) by done.
    unfold go_lookup. simpl. rewrite lookup_empty. simpl.
    unfold bindM at 1. destruct (pre w) as [[x w1]|]; [|done].
    unfold bindM at 1.
    destruct (applyOne_spec mkDelta i k d GoNil w1) as [[_ ->]|(_ & w2 & -> & _)];
      simpl; by rewrite ?andb_false_r.
Qed.

Section without_init.
Context `{Env}.

(** X19. [Reconcile] for an instance that has no metadata, because [Init]
    was not called for it or [Cleanup] was, panics as soon as some pool has
    route policies to apply: the policies retained for the pool are written
    to a nil map. *)
Theorem Reconcile_needs_Init (p : ReconcileParams) (w : World) (i : BGPInstance)
    (lp : gomap string (list Prefix)) (lg0 : list LogEntry) (adverts : PeerAdvertisements)
    (Des : ResourceRoutePolicyMap) (lg : list LogEntry) (k : Key) (d : RoutePolicyMap) :
  ValidateParams p = None →
  p_BGPInstance p = Some i →
  metadata (w_r w) !! inst_Name i = None →
  populateLocalPools (p_CiliumNode p) = Some (lp, lg0) →
  peerAdvert (w_r w) (p_DesiredConfig p) BGPCiliumPodIPPoolAdvert = Ok adverts →
  getDesiredPodIPPoolRoutePolicies (w_r w) p adverts lp = Some (Ok Des, lg) →
  go_lookup Des k = Some d → content d ≠ ∅ →
  Reconcile p w = None.
Proof.
  intros Hval Hi Hmd Hlp Hadv HD Hd Hne.
  assert (reconcileRoutePolicies p adverts lp (add_log w lg0) = None) as Hrp.
  { unfold reconcileRoutePolicies. unfold bindM at 1, getR.
    unfold bindM at 1, liftD. simpl. rewrite HD, Hi.
    unfold bindM at 1, derefM at 1.
    rewrite reconcileRoutePolicies_loop_engine.
    unfold getMetadata at 1. rewrite Hmd. simpl.
    unfold bindM at 1. rewrite engine_loop_nil; [done|].
    exists k, d. split; [by apply elem_of_range|done]. }
  unfold Reconcile. rewrite Hval.
  unfold bindM at 1. unfold liftD. rewrite Hlp.
  unfold bindM at 1. unfold getR. simpl. rewrite Hadv.
  unfold bindM. by rewrite Hrp.
Qed.

End without_init.

(** ** The label set identifies the pool *)

(** X18. The label set identifies the pool: two pools that differ in name
    or namespace have different label sets, whatever their own labels
    are. *)
Theorem podIPPoolLabelSet_identity (pool1 pool2 : CiliumPodIPPool) :
  keyOf pool1 ≠ keyOf pool2 → podIPPoolLabelSet pool1 ≠ podIPPoolLabelSet pool2.
Proof.
  intros Hne Heq. apply Hne.
  destruct (podIPPoolLabelSet_lookup pool1) as (Hn1 & Hs1 & _).
  destruct (podIPPoolLabelSet_lookup pool2) as (Hn2 & Hs2 & _).
  rewrite Heq in Hn1, Hs1. unfold keyOf. f_equal; congruence.
Qed.

(** * A second call in succession *)

(** A loop whose iterations all succeed succeeds. *)
Lemma forD_Ok_total {A S} (l : list A) (s : S) (body : A → S → D (result S)) :
  (∀ x s1, x ∈ l → ∃ s2 lg, body x s1 = Some (Ok s2, lg)) →
  ∃ s' lg, forD l s body = Some (Ok s', lg).
Proof.
  revert s. induction l as [|x l IH]; intros s Hb; simpl; [by eexists _, _|].
  destruct (Hb x s) as (s1 & l1 & Hx); [by left|].
  destruct (IH s1) as (s2 & l2 & Hl); [intros; apply Hb; by right|].
  unfold bindD_try, bindD. rewrite Hx, Hl. by eexists _, _.
Qed.

Section order.
Context `{Env}.

Lemma same_entries_sym adverts1 adverts2 :
  same_entries adverts1 adverts2 → same_entries adverts2 adverts1.
Proof. intros Hs peer fam ads. symmetry. apply Hs. Qed.

Lemma advertised_entries pool adverts1 adverts2 f :
  same_entries adverts1 adverts2 → advertised pool adverts1 f → advertised pool adverts2 f.
Proof.
  intros Hs (peer & fams & fam & ads & advert & sel & Hp & Hf & Hrest).
  destruct (proj1 (Hs peer fam ads)) as (fams' & Hp' & Hf'); [by exists fams|].
  exists peer, fams', fam, ads, advert, sel. done.
Qed.

(** The desired paths of a pool do not depend on the order in which the
    peers and their families are walked. *)
Lemma getDesiredAFPaths_entries pool adverts1 adverts2 lp m lg :
  same_entries adverts1 adverts2 →
  getDesiredAFPaths pool adverts1 lp = Some (Ok m, lg) →
  ∃ lg', getDesiredAFPaths pool adverts2 lp = Some (Ok m, lg').
Proof.
  intros Hs Hm.
  destruct (getDesiredAFPaths_total pool adverts2 lp) as [[[m2|e] lg2] Hr].
  - exists lg2. rewrite Hr. do 3 f_equal.
    pose proof (getDesiredAFPaths_GoMap _ _ _ _ _ Hm) as Hn1.
    pose proof (getDesiredAFPaths_GoMap _ _ _ _ _ Hr) as Hn2.
    destruct m as [|t1]; [done|]. destruct m2 as [|t2]; [done|].
    f_equal. apply map_eq. intros [f q]. apply option_eq. intros path. split.
    + intros Hpath.
      destruct (getDesiredAFPaths_sound _ _ _ _ _ Hr f q path Hpath) as (-> & Hq & Hv & Hadv).
      apply (getDesiredAFPaths_complete _ _ _ _ _ Hm f q Hq Hv).
      apply (advertised_entries pool adverts2 adverts1); [by apply same_entries_sym|done].
    + intros Hpath.
      destruct (getDesiredAFPaths_sound _ _ _ _ _ Hm f q path Hpath) as (-> & Hq & Hv & Hadv).
      apply (getDesiredAFPaths_complete _ _ _ _ _ Hr f q Hq Hv).
      by apply (advertised_entries pool adverts1 adverts2).
  - exfalso. unfold getDesiredAFPaths, bindD_try at 1 in Hr. apply bindD_Some in Hr
      as ([a|e1] & l1 & l2 & Hloop & Hret & _); [done|].
    apply forD_Err in Hloop as ([peer fams] & s1 & lg3 & Hpeer & Hfams).
    apply forD_Err in Hfams as ([fam ads] & s2 & lg4 & Hf & Hads).
    apply forD_Err in Hads as (advert & s3 & lg5 & Ha & Hone).
    unfold bindD, logD, retD in Hone.
    destruct (decide _) as [|Hty%dec_stable]; [done|].
    destruct (LabelSelectorAsSelector (adv_Selector advert)) as [sel|err] eqn:Hsel.
    { destruct (negb _); [done|]. by destruct (go_lookup lp (pool_Name pool)). }
    destruct (proj2 (Hs peer fam ads)) as (fams1 & Hpeer1 & Hf1); [by exists fams|].
    by apply (getDesiredAFPaths_not_Ok pool adverts1 lp _ _ _ _ _ _ Hpeer1 Hf1 Ha Hty Hsel) in Hm.
Qed.

(** One turn of the innermost loop of [getPodIPPoolPolicies]. *)
Lemma getPodIPPoolPolicies_turn peer fam pool advert lp (u1 u2 : gmap string RoutePolicy) lg :
  (tryD policy := getPodIPPoolPolicy peer (ToAgentFamily fam) pool advert lp in
   match policy with
   | Some policy => retD (Ok (<[rp_Name policy := policy]> u1))
   | None => retD (Ok u1)
   end) = Some (Ok u2, lg) →
  (getPodIPPoolPolicy peer (ToAgentFamily fam) pool advert lp = retD (Ok None) ∧ u2 = u1) ∨
  ∃ policy, getPodIPPoolPolicy peer (ToAgentFamily fam) pool advert lp
            = retD (Ok (Some policy)) ∧
            u2 = <[rp_Name policy := policy]> u1.
Proof.
  rewrite bindD_try_Some_Ok. intros (o & l3 & l4 & Ho & Hret & ->).
  pose proof (getPodIPPoolPolicy_no_log _ _ _ _ _ _ _ Ho) as ->.
  destruct o as [policy|]; injection Hret as <- <-; eauto.
Qed.

(** Every policy of the pool is kept under its own name and comes from an
    advertisement. *)
Lemma getPodIPPoolPolicies_sound p pool adverts lp (t : gmap string RoutePolicy) lg :
  getPodIPPoolPolicies p pool adverts lp = Some (Ok (GoMap t), lg) →
  ∀ name policy, t !! name = Some policy →
    rp_Name policy = name ∧
    ∃ peer fam ads advert,
      entry_of adverts peer fam ads ∧ advert ∈ ads ∧
      getPodIPPoolPolicy peer (ToAgentFamily fam) pool advert lp = retD (Ok (Some policy)).
Proof.
  unfold getPodIPPoolPolicies. rewrite bindD_try_Some_Ok.
  intros (a & l1 & l2 & Hloop & [= <-] & _).
  pose (Inv := λ s : gmap string RoutePolicy, ∀ name policy, s !! name = Some policy →
     rp_Name policy = name ∧
     ∃ peer fam ads advert,
       entry_of adverts peer fam ads ∧ advert ∈ ads ∧
       getPodIPPoolPolicy peer (ToAgentFamily fam) pool advert lp = retD (Ok (Some policy))).
  apply (forD_Ok_inv Inv _ _ _ _ _ Hloop); [done|].
  intros [peer fams] s1 s2 lg1 Hp Hs1 Hfams.
  apply (forD_Ok_inv Inv _ _ _ _ _ Hfams); [done|].
  intros [fam ads] t1 t2 lg2 Hf Ht1 Hads.
  apply (forD_Ok_inv Inv _ _ _ _ _ Hads); [done|].
  intros advert u1 u2 lg3 Ha Hu1 Hone name policy.
  apply getPodIPPoolPolicies_turn in Hone as [[_ ->]|(policy' & Hp' & ->)]; [by apply Hu1|].
  destruct (decide (rp_Name policy' = name)) as [<-|Hne].
  - rewrite lookup_insert_eq. intros [= <-]. split; [done|].
    exists peer, fam, ads, advert. split; [by exists fams|done].
  - rewrite lookup_insert_ne by done. by apply Hu1.
Qed.

(** The name of every policy that an advertisement gives the pool has an
    entry. *)
Lemma getPodIPPoolPolicies_covers p pool adverts lp (t : gmap string RoutePolicy) lg
    peer fam ads advert policy :
  getPodIPPoolPolicies p pool adverts lp = Some (Ok (GoMap t), lg) →
  entry_of adverts peer fam ads → advert ∈ ads →
  getPodIPPoolPolicy peer (ToAgentFamily fam) pool advert lp = retD (Ok (Some policy)) →
  is_Some (t !! rp_Name policy).
Proof.
  unfold getPodIPPoolPolicies. rewrite bindD_try_Some_Ok.
  intros (a & l1 & l2 & Hloop & [= <-] & _) (fams & Hp & Hf) Ha Hpol.
  pose (Q := λ s : gmap string RoutePolicy, is_Some (s !! rp_Name policy)).
  assert (∀ peer' fam' advert' (u1 u2 : gmap string RoutePolicy) lg3,
    (tryD policy := getPodIPPoolPolicy peer' (ToAgentFamily fam') pool advert' lp in
     match policy with
     | Some policy => retD (Ok (<[rp_Name policy := policy]> u1))
     | None => retD (Ok u1)
     end) = Some (Ok u2, lg3) → Q u1 → Q u2) as Hkeep.
  { intros peer' fam' advert' u1 u2 lg3 Hone Hu1.
    apply getPodIPPoolPolicies_turn in Hone as [[_ ->]|(policy' & _ & ->)]; [done|].
    unfold Q. rewrite lookup_insert_is_Some.
    destruct (decide (rp_Name policy' = rp_Name policy)); eauto. }
  apply (forD_Ok_reach Q _ _ _ _ _ _ Hloop Hp).
  - intros s1 s2 lg1 Hfams.
    apply (forD_Ok_reach Q _ _ _ _ _ _ Hfams Hf).
    + intros t1 t2 lg2 Hads.
      apply (forD_Ok_reach Q _ _ _ _ _ _ Hads Ha).
      * intros u1 u2 lg3 Hone. rewrite Hpol, bindD_try_Ok in Hone.
        injection Hone as <- <-. unfold Q. rewrite lookup_insert_eq. by eexists.
      * intros advert' u1 u2 lg3 _ Hu1 Hone. by eapply Hkeep.
    + intros [fam' ads'] t1 t2 lg2 _ Ht1 Hads.
      apply (forD_Ok_inv Q _ _ _ _ _ Hads); [done|].
      intros advert' u1 u2 lg3 _ Hu1 Hone. by eapply Hkeep.
  - intros [peer' fams'] s1 s2 lg1 _ Hs1 Hfams.
    apply (forD_Ok_inv Q _ _ _ _ _ Hfams); [done|].
    intros [fam' ads'] t1 t2 lg2 _ Ht1 Hads.
    apply (forD_Ok_inv Q _ _ _ _ _ Hads); [done|].
    intros advert' u1 u2 lg3 _ Hu1 Hone. by eapply Hkeep.
Qed.

(** When the policies of the pool are returned, every advertisement gave
    one or none without error. *)
Lemma getPodIPPoolPolicies_each p pool adverts lp m lg peer fam ads advert :
  getPodIPPoolPolicies p pool adverts lp = Some (Ok m, lg) →
  entry_of adverts peer fam ads → advert ∈ ads →
  ∃ o, getPodIPPoolPolicy peer (ToAgentFamily fam) pool advert lp = retD (Ok o).
Proof.
  unfold getPodIPPoolPolicies. rewrite bindD_try_Some_Ok.
  intros (a & l1 & l2 & Hloop & _) (fams & Hp & Hf) Ha.
  destruct (forD_Ok_all _ _ _ _ _ Hloop _ Hp) as (s1 & s2 & lg1 & Hfams).
  destruct (forD_Ok_all _ _ _ _ _ Hfams _ Hf) as (t1 & t2 & lg2 & Hads).
  destruct (forD_Ok_all _ _ _ _ _ Hads _ Ha) as (u1 & u2 & lg3 & Hone).
  apply bindD_try_Some_Ok in Hone as (o & l3 & l4 & Ho & _).
  pose proof (getPodIPPoolPolicy_no_log _ _ _ _ _ _ _ Ho) as ->.
  by exists o.
Qed.

(** And the other way round. *)
Lemma getPodIPPoolPolicies_returns p pool adverts lp :
  (∀ peer fam ads advert, entry_of adverts peer fam ads → advert ∈ ads →
     ∃ o, getPodIPPoolPolicy peer (ToAgentFamily fam) pool advert lp = retD (Ok o)) →
  ∃ t lg, getPodIPPoolPolicies p pool adverts lp = Some (Ok (GoMap t), lg).
Proof.
  intros Hall. unfold getPodIPPoolPolicies.
  match goal with
  | |- ∃ t lg, bindD_try (forD _ ?s ?body) _ = _ =>
      destruct (forD_Ok_total adverts s body) as (t & lg & Hloop)
  end.
  - intros [peer fams] s1 Hp. apply forD_Ok_total.
    intros [fam ads] s2 Hf. apply forD_Ok_total.
    intros advert s3 Ha.
    destruct (Hall peer fam ads advert) as [o Ho]; [by exists fams|done|].
    rewrite Ho, bindD_try_Ok. destruct o; by eexists _, _.
  - exists t, (lg ++ []). unfold bindD_try at 1. unfold bindD. by rewrite Hloop.
Qed.

(** The route policies of a pool do not depend on the order in which the
    peers and their families are walked, when no two advertisements give
    different policies of one name. *)
Lemma getPodIPPoolPolicies_entries p pool adverts1 adverts2 lp m lg :
  same_entries adverts1 adverts2 →
  names_agree pool adverts1 lp →
  getPodIPPoolPolicies p pool adverts1 lp = Some (Ok m, lg) →
  ∃ lg', getPodIPPoolPolicies p pool adverts2 lp = Some (Ok m, lg').
Proof.
  intros Hs Hagree Hm.
  destruct (getPodIPPoolPolicies_returns p pool adverts2 lp) as (t2 & lg2 & Hm2).
  { intros peer fam ads advert He Ha. apply Hs in He.
    by eapply getPodIPPoolPolicies_each. }
  exists lg2. rewrite Hm2. do 3 f_equal.
  pose proof (getPodIPPoolPolicies_GoMap _ _ _ _ _ _ Hm) as Hn1.
  destruct m as [|t1]; [done|].
  f_equal. apply map_eq. intros name. apply option_eq. intros policy. split.
  - intros Hlook.
    destruct (getPodIPPoolPolicies_sound _ _ _ _ _ _ Hm2 _ _ Hlook)
      as (Hname & peer & fam & ads & advert & He & Ha & Hpol).
    apply Hs in He.
    destruct (getPodIPPoolPolicies_covers _ _ _ _ _ _ _ _ _ _ _ Hm He Ha Hpol)
      as [policy1 Hlook1].
    rewrite Hname in Hlook1. rewrite Hlook1. f_equal.
    destruct (getPodIPPoolPolicies_sound _ _ _ _ _ _ Hm _ _ Hlook1)
      as (Hname1 & peer1 & fam1 & ads1 & advert1 & He1 & Ha1 & Hpol1).
    eapply Hagree; [exact He1|exact Ha1|exact He|exact Ha|exact Hpol1|exact Hpol|congruence].
  - intros Hlook.
    destruct (getPodIPPoolPolicies_sound _ _ _ _ _ _ Hm _ _ Hlook)
      as (Hname & peer & fam & ads & advert & He & Ha & Hpol).
    pose proof (proj1 (Hs _ _ _) He) as He2.
    destruct (getPodIPPoolPolicies_covers _ _ _ _ _ _ _ _ _ _ _ Hm2 He2 Ha Hpol)
      as [policy2 Hlook2].
    rewrite Hname in Hlook2. rewrite Hlook2. f_equal.
    destruct (getPodIPPoolPolicies_sound _ _ _ _ _ _ Hm2 _ _ Hlook2)
      as (Hname2 & peer2 & fam2 & ads2 & advert2 & He2' & Ha2 & Hpol2).
    apply Hs in He2'.
    eapply Hagree; [exact He2'|exact Ha2|exact He|exact Ha|exact Hpol2|exact Hpol|congruence].
Qed.
End order.
(** ** The two passes, run again *)

Section second_call.
Context (E : Env).
Variable rg : ∀ V : Type, gmap Key V → list (Key * V).
Hypothesis Hrg : ∀ (V : Type) (m : gmap Key V), rg V m ≡ₚ map_to_list m.

(** The route-policy pass after a run of it without error, whatever
    happened to the rest of the world in between, with advertisements
    that give every listed pool the policies that it had in that run, and
    with the maps walked in another order: it returns, and it leaves the
    reconciler and the routers as they are. *)
Lemma reconcileRoutePolicies_again p adverts adverts' lp w wa wb i cfg md :
  reconcileRoutePolicies (H:=E) p adverts lp w = Some (None, wa) →
  p_BGPInstance p = Some i → p_DesiredConfig p = Some cfg →
  poolStore (w_r wb) = poolStore (w_r w) →
  metadata (w_r wb) !! inst_Name i = Some md →
  PoolRoutePolicies md = PoolRoutePolicies (getMetadata (w_r wa) i) →
  (∀ pools pool v lg, List (poolStore (w_r w)) = Ok pools → pool ∈ pools →
     getPodIPPoolPolicies (H:=E) p pool adverts lp = Some (Ok v, lg) →
     ∃ lg', getPodIPPoolPolicies (H:=E) p pool adverts' lp = Some (Ok v, lg')) →
  ∃ res lg,
    reconcileRoutePolicies (H:=reorder E rg Hrg) p adverts' lp wb = Some (res, add_log wb lg).
Proof.
  intros Hrun Hi Hcfg Hstore Hmd Hsame Hadv.
  apply (reconcileRoutePolicies_summary (H:=E)) in Hrun
    as [(e & lg & _ & ? & _)|(i1 & Des1 & lg1 & m1 & new & Hi1 & HD1 & _ & Hr & _ & Hres)];
    [done|].
  rewrite Hi in Hi1. injection Hi1 as <-.
  rewrite Hr, getMetadata_setMetadata in Hsame. simpl in Hsame.
  apply (getDesiredPodIPPoolRoutePolicies_Ok (H:=E)) in HD1
    as (i' & dm1 & pools & d1f & lg2 & Hi' & Hmark1 & HL & Hpools1 & -> & ->).
  rewrite Hi in Hi'. injection Hi' as <-.
  pose proof (getMetadata_Some _ _ _ Hmd) as Hget.
  set (E' := reorder E rg Hrg).
  destruct (mark_deleted_total (U:=RoutePolicyMap) (W:=string) (V:=RoutePolicy)
              (GetByKey (poolStore (w_r wb))) (λ err, err)
              (range (H:=E') (PoolRoutePolicies md)) ∅) as [r2 Hmark2].
  assert (getDesiredPodIPPoolRoutePolicies (H:=E') (w_r wb) p adverts' lp
          = bindD_try (Some (r2, []))
              (λ d1, match List (poolStore (w_r wb)) with
                     | Err err => retD (Err err)
                     | Ok pools =>
                         bindD_try
                           (forD pools d1 (λ pool d,
                              tryD v := getPodIPPoolPolicies (H:=E) p pool adverts' lp in
                              retD (Ok (<[keyOf pool := v]> d))))
                           (λ d2, retD (Ok (GoMap d2)))
                     end)) as HD2.
  { unfold getDesiredPodIPPoolRoutePolicies. rewrite Hi. cbn [derefD].
    rewrite bindD_retD_l, Hget. rewrite <- Hmark2. done. }
  destruct r2 as [dm2|e].
  2:{ exists (Some e), []. apply (reconcileRoutePolicies_err (H:=E')). by rewrite HD2. }
  rewrite Hstore in Hmark2, HD2. rewrite HL in HD2. rewrite Hsame in Hmark2.
  destruct (rerun_desired (GetByKey (poolStore (w_r w))) (λ err, err) pools
              (λ pool, getPodIPPoolPolicies (H:=E) p pool adverts lp)
              (λ pool, getPodIPPoolPolicies (H:=E) p pool adverts' lp)
              (PoolRoutePolicies (getMetadata (w_r w) i)) m1
              (range (H:=E) (PoolRoutePolicies (getMetadata (w_r w) i))) (range (H:=E') m1)
              (range (H:=E) (GoMap d1f)) dm1 d1f lg2) with (dm2 := dm2)
    as (d2f & lg3 & Hpools2 & Hconv2 & _); try done.
  - apply (elem_of_range_keys (H:=E)).
  - apply (elem_of_range_keys (H:=E')).
  - intros pool v lg Hpool. by apply Hadv with pools.
  - intros k d Hd. by apply (elem_of_range (H:=E)).
  - intros k d Hd%(elem_of_range (H:=E)). by left.
  - intros k d Hd. by eapply loop_result_conv.
  - by destruct Hres as (Hframe & _).
  - exists None, lg3.
    assert (getDesiredPodIPPoolRoutePolicies (H:=E') (w_r wb) p adverts' lp
            = Some (Ok (GoMap d2f), lg3)) as HD2'.
    { rewrite HD2. rewrite (bindD_try_Ok dm2).
      unfold bindD_try at 1. unfold bindD at 1. rewrite Hpools2.
      simpl. by rewrite app_nil_r. }
    erewrite (reconcileRoutePolicies_ok (H:=E')); [|done|exact HD2'|].
    2:{ rewrite Hget, Hsame. apply engine_noop.
        - intros w0. exists cfg. unfold derefM. by rewrite Hcfg.
        - intros k d Hd%(elem_of_range (H:=E')). by apply Hconv2. }
    f_equal. f_equal. unfold add_log. simpl. f_equal.
    rewrite Hget. apply setMetadata_same. rewrite Hmd. f_equal.
    destruct md. simpl in *. by rewrite Hsame.
Qed.

(** The same for the path pass. *)
Lemma reconcilePaths_again p adverts adverts' lp w w1 wb i md :
  reconcilePaths (H:=E) p adverts lp w = Some (None, w1) →
  p_BGPInstance p = Some i →
  poolStore (w_r wb) = poolStore (w_r w) →
  metadata (w_r wb) !! inst_Name i = Some md →
  PoolAFPaths md = PoolAFPaths (getMetadata (w_r w1) i) →
  (∀ pools pool v lg, List (poolStore (w_r w)) = Ok pools → pool ∈ pools →
     getDesiredAFPaths (H:=E) pool adverts lp = Some (Ok v, lg) →
     ∃ lg', getDesiredAFPaths (H:=E) pool adverts' lp = Some (Ok v, lg')) →
  ∃ res lg,
    reconcilePaths (H:=reorder E rg Hrg) p adverts' lp wb = Some (res, add_log wb lg).
Proof.
  intros Hrun Hi Hstore Hmd Hsame Hadv.
  apply (reconcilePaths_summary (H:=E)) in Hrun
    as [(e & lg & _ & ? & _)
       |(i1 & cfg & Des1 & lg1 & m1 & new & Hi1 & Hcfg & HD1 & _ & Hr & _ & Hres & t1 & Hm1)];
    [done|].
  rewrite Hi in Hi1. injection Hi1 as <-.
  rewrite Hr, getMetadata_setMetadata in Hsame. simpl in Hsame.
  apply (getDesiredPoolAFPaths_Ok (H:=E)) in HD1
    as (i' & dm1 & pools & d1f & lg2 & Hi' & Hmark1 & HL & Hpools1 & -> & ->).
  rewrite Hi in Hi'. injection Hi' as <-.
  pose proof (getMetadata_Some _ _ _ Hmd) as Hget.
  set (E' := reorder E rg Hrg).
  set (fixerr := λ err, if errors_Is err ErrStoreUninitialized
                        then joinError2 err ErrAbortReconcile else err) in *.
  destruct (mark_deleted_total (U:=AFPathsMap) (W:=Family * Prefix) (V:=Path)
              (GetByKey (poolStore (w_r wb))) fixerr
              (range (H:=E') (PoolAFPaths md)) ∅) as [r2 Hmark2].
  assert (getDesiredPoolAFPaths (H:=E') (w_r wb) p adverts' lp
          = bindD_try (Some (r2, []))
              (λ d1, match List (poolStore (w_r wb)) with
                     | Err err => retD (Err (fixerr err))
                     | Ok pools =>
                         bindD_try
                           (forD pools d1 (λ pool d,
                              tryD v := getDesiredAFPaths (H:=E) pool adverts' lp in
                              retD (Ok (<[keyOf pool := v]> d))))
                           (λ d2, retD (Ok (GoMap d2)))
                     end)) as HD2.
  { unfold getDesiredPoolAFPaths. rewrite Hi. cbn [derefD].
    rewrite bindD_retD_l, Hget. rewrite <- Hmark2. done. }
  destruct r2 as [dm2|e].
  2:{ exists (Some e), []. apply (reconcilePaths_err (H:=E')). by rewrite HD2. }
  rewrite Hstore in Hmark2, HD2. rewrite HL in HD2. rewrite Hsame in Hmark2.
  simpl in Hres.
  set (AF0 := PoolAFPaths (getMetadata (w_r w) i)) in *.
  destruct (rerun_desired (GetByKey (poolStore (w_r w))) fixerr pools
              (λ pool, getDesiredAFPaths (H:=E) pool adverts lp)
              (λ pool, getDesiredAFPaths (H:=E) pool adverts' lp)
              (GoMap (content AF0)) m1 (range (H:=E) AF0) (range (H:=E') m1)
              (range (H:=E) (GoMap (d1f ∪ ((λ _, GoNil) <$> content AF0)))) dm1 d1f lg2)
    with (dm2 := dm2) as (d2f & lg3 & Hpools2 & Hconv2 & Hcover2); try done.
  - apply (elem_of_range_keys (H:=E) AF0).
  - apply (elem_of_range_keys (H:=E')).
  - intros pool v lg Hpool. by apply Hadv with pools.
  - intros k d Hd. apply (elem_of_range (H:=E)). simpl. by apply lookup_union_Some_l.
  - intros k d Hd%(elem_of_range (H:=E)). simpl in Hd.
    apply lookup_union_Some_raw in Hd as [Hd|[_ Hd]]; [by left|right].
    rewrite lookup_fmap in Hd. destruct (content AF0 !! k); simpl in Hd; by simplify_eq.
  - intros k d Hd. by eapply loop_result_conv.
  - by destruct Hres as (Hframe & _).
  - exists None, lg3.
    assert (getDesiredPoolAFPaths (H:=E') (w_r wb) p adverts' lp
            = Some (Ok (GoMap d2f), lg3)) as HD2'.
    { rewrite HD2. rewrite (bindD_try_Ok dm2).
      unfold bindD_try at 1. unfold bindD at 1. rewrite Hpools2.
      simpl. by rewrite app_nil_r. }
    erewrite (reconcilePaths_ok (H:=E')); [|done|exact Hcfg|exact HD2'|].
    2:{ rewrite Hget, Hsame. apply engine_noop.
        - intros w0. by exists ().
        - intros k d Hd%(elem_of_range (H:=E')). simpl in Hd.
          apply lookup_union_Some_raw in Hd as [Hd|[Hnone Hd]].
          + exact (Hconv2 k d Hd).
          + exfalso. rewrite lookup_fmap in Hd.
            destruct (content m1 !! k) as [c|] eqn:Hk; [|done].
            destruct (Hcover2) with (k := k) as [d' Hd'].
            * intros k' [c' Hk']. apply (elem_of_range_keys (H:=E)).
              unfold go_lookup in *. simpl in *.
              destruct (d1f !! k') as [x|] eqn:Hx; [by eexists; apply lookup_union_Some_l|].
              exists GoNil. apply lookup_union_Some_raw. right. split; [done|].
              by rewrite lookup_fmap, Hk'.
            * by exists c.
            * congruence. }
    f_equal. f_equal. unfold add_log. simpl. f_equal.
    rewrite Hget. apply setMetadata_same. rewrite Hmd. f_equal.
    destruct md. simpl in *. by rewrite Hsame, Hm1.
Qed.

(** C4, as the code has it.  When a call to [Reconcile] returns without an
    error, and no two advertisements give a listed pool two different
    route policies of one name, a second call in succession with the same
    parameters returns, makes no call to any router and leaves the
    retained metadata as it is, in whatever order it walks the maps: the
    advertisements [adverts'] that the second call is given have the
    entries of those of the first call, by peer and family, in any order,
    and its [range] statements walk every other map in any order [rg]. *)
Theorem Reconcile_twice (p : ReconcileParams) (w w1 : World)
    (pa' : option DesiredConfig → string → result PeerAdvertisements) :
  Reconcile (H:=E) p w = Some (None, w1) →
  names_unique (H:=E) p (w_r w) →
  (∀ adverts,
     peerAdvert (w_r w) (p_DesiredConfig p) BGPCiliumPodIPPoolAdvert = Ok adverts →
     ∃ adverts', pa' (p_DesiredConfig p) BGPCiliumPodIPPoolAdvert = Ok adverts' ∧
                 same_entries adverts adverts') →
  ∃ res w2,
    Reconcile (H:=reorder E rg Hrg) p (with_peerAdvert pa' w1) = Some (res, w2) ∧
    w_routers w2 = w_routers w1 ∧
    metadata (w_r w2) = metadata (w_r w1).
Proof.
  intros Hrun Huniq Hpa.
  apply (Reconcile_inv (H:=E)) in Hrun
    as [(e & _ & ? & _)|(Hval & lp & lg0 & Hlp & Hrest)]; [done|].
  destruct Hrest as [(e & _ & ? & _)|(adverts & Hadv & Hrest)]; [done|].
  destruct Hrest as [(e & _ & ?)|(wa & Hrp & Haf)]; [done|].
  destruct (Hpa adverts Hadv) as (adverts' & Hadv' & Hs).
  pose proof Hrp as Hrp'. pose proof Haf as Haf'.
  apply (reconcileRoutePolicies_summary (H:=E)) in Hrp'
    as [(e & lg & _ & ? & _)|(i & Des1 & lg1 & m1 & new1 & Hi & _ & _ & Hra & _)]; [done|].
  apply (reconcilePaths_summary (H:=E)) in Haf'
    as [(e & lg & _ & ? & _)
       |(i' & cfg & Des2 & lg2 & m2 & new2 & Hi' & Hcfg & _ & _ & Hr1 & _)]; [done|].
  rewrite Hi in Hi'. injection Hi' as <-.
  simpl in Hra.
  assert (poolStore (w_r wa) = poolStore (w_r w)) as Hsa by (by rewrite Hra).
  assert (poolStore (w_r w1) = poolStore (w_r w)) as Hs1 by (by rewrite Hr1, <- Hsa).
  assert (metadata (w_r w1) !! inst_Name i
          = Some {| PoolAFPaths := m2;
                    PoolRoutePolicies := PoolRoutePolicies (getMetadata (w_r wa) i) |}) as Hmd1.
  { rewrite Hr1. simpl. apply lookup_insert_eq. }
  set (wb := add_log (with_peerAdvert pa' w1) lg0).
  destruct (reconcileRoutePolicies_again p adverts adverts' lp (add_log w lg0) wa wb
              i cfg _ Hrp Hi Hcfg Hs1 Hmd1 eq_refl) as (resa & lga & Hrp2).
  { intros pools pool v lg HL Hpool Hv.
    apply (getPodIPPoolPolicies_entries (H:=E) p pool adverts adverts' lp v lg Hs); [|done].
    by apply (Huniq lp lg0 adverts pools pool). }
  assert (Reconcile (H:=reorder E rg Hrg) p (with_peerAdvert pa' w1)
          = bindM (reconcileRoutePolicies (H:=reorder E rg Hrg) p adverts' lp)
              (λ err, match err with
                      | Some err => retM (Some err)
                      | None => reconcilePaths (H:=reorder E rg Hrg) p adverts' lp
                      end) wb) as Hunfold.
  { unfold Reconcile.
    change (ValidateParams (Env:=reorder E rg Hrg) p) with (ValidateParams (Env:=E) p).
    rewrite Hval.
    change (populateLocalPools (H:=reorder E rg Hrg)) with (populateLocalPools (H:=E)).
    unfold bindM at 1. unfold liftD. rewrite Hlp.
    unfold bindM at 1. unfold getR. simpl. by rewrite Hadv'. }
  rewrite Hunfold. unfold bindM. rewrite Hrp2.
  destruct resa as [e|]; [by eexists _, _|].
  destruct (reconcilePaths_again p adverts adverts' lp wa w1 (add_log wb lga)
              i {| PoolAFPaths := m2;
                   PoolRoutePolicies := PoolRoutePolicies (getMetadata (w_r wa) i) |}
              Haf Hi)
    as (resb & lgb & Haf2); [by rewrite <- Hsa in Hs1|done| | |].
  { simpl. by rewrite (getMetadata_Some _ _ _ Hmd1). }
  { intros pools pool v lg _ _ Hv.
    by apply (getDesiredAFPaths_entries (H:=E) pool adverts adverts' lp v lg Hs). }
  rewrite Haf2. by eexists _, _.
Qed.

End second_call.

(** * The properties on concrete inputs *)

Import Fixtures.

Lemma run_returns {A} (m : M A) (w : World) (a : A) :
  fst <$> m w = Some a → ∃ w', m w = Some (a, w').
Proof. destruct (m w) as [[a' w']|]; simpl; [intros [= ->]; eauto|done]. Qed.

Lemma derivation_returns {A} (d : D (result A)) :
  returns_Ok d = true → ∃ a lg, d = Some (Ok a, lg).
Proof. destruct d as [[[a|e] lg]|]; [eauto|done..]. Qed.

(** C1 on the three pools with a router that refuses one of them: the
    metadata mirrors the router before the call, and after it. *)
Lemma metadata_mirrors_router_witness :
  consistent_at w_reject (inst_Name instance0) ∧
  ∃ w', Reconcile p3 w_reject
          = Some (Some (joinError1 (errors_New "rejected by the router")), w') ∧
        consistent_at w' (inst_Name instance0).
Proof.
  pose (w_pre := {| w_r := newReconciler (fakeStore (Some pools3)) advertsAll;
                    w_routers := λ _, rejectKey key2; w_log := [] |}).
  assert (consistent_at w_reject (inst_Name instance0)) as Hcons.
  { apply (proj1 (metadata_mirrors_router p3 w_pre (inst_Name instance0)) instance0 eq_refl).
    intros k. split; reflexivity. }
  split; [exact Hcons|].
  assert (fst <$> Reconcile p3 w_reject
          = Some (Some (joinError1 (errors_New "rejected by the router")))) as Hret
    by reflexivity.
  destruct (run_returns _ _ _ Hret) as [w' Hrun].
  exists w'. split; [exact Hrun|].
  exact (proj1 (proj2 (metadata_mirrors_router p3 w_reject (inst_Name instance0))
                  _ _ Hrun Hcons)).
Defined.

(** C3 on the three pools with a router that refuses the second one: the
    pass returns the error of the router, joined. *)
Lemma partial_failure_isolation_witness :
  ∃ w' new,
    reconcileRoutePolicies p3 advertsAll lp3 w_reject
      = Some (Some (joinError1 (errors_New "rejected by the router")), w') ∧
    calls_of w' = calls_of w_reject ++ new.
Proof.
  assert (returns_Ok (getDesiredPodIPPoolRoutePolicies (w_r w_reject) p3 advertsAll lp3)
          = true) as Hok by reflexivity.
  destruct (derivation_returns _ Hok) as (Des & lg & HD).
  destruct (partial_failure_isolation p3 advertsAll lp3 w_reject instance0 Des lg eq_refl HD)
    as [Hreturns Hthen].
  destruct Hreturns as (res & w' & Hrun).
  { by eexists. }
  { by eexists. }
  { intros md [= <-]. discriminate. }
  assert (fst <$> reconcileRoutePolicies p3 advertsAll lp3 w_reject
          = Some (Some (joinError1 (errors_New "rejected by the router")))) as Hret
    by reflexivity.
  rewrite Hrun in Hret. injection Hret as ->.
  destruct (Hthen _ _ Hrun) as [(new & Hnew & _) _].
  exists w', new. split; [exact Hrun|exact Hnew].
Defined.

(** A membership in a list that is written out, case by case. *)
Ltac pick H :=
  repeat (apply elem_of_cons in H as [H|H]); try (by apply elem_of_nil in H); simplify_eq.

(** The reversed order is an order of the entries of the map. *)
Lemma range_reversed_perm (V : Type) (m : gmap Key V) : range_reversed V m ≡ₚ map_to_list m.
Proof. apply reverse_Permutation. Qed.

(** The two peers and the two families of [advertsTwo] in the other order
    are the same advertisements. *)
Lemma same_entries_two : same_entries advertsTwo advertsTwo'.
Proof.
  intros peer fam ads. unfold entry_of, advertsTwo, advertsTwo'.
  split; intros (fams & Hp & Hf); pick Hp; pick Hf;
    (eexists; split; [repeat first [by left|right]|repeat first [by left|right]]).
Qed.

(** The policies of the two peers of [advertsTwo] have names of their own. *)
Lemma names_unique_two : names_unique pA (w_r w_two).
Proof.
  intros lp lg adverts pools pl Hlp Hadv HL Hpool.
  assert (populateLocalPools (p_CiliumNode pA) = Some (lpA, [])) as Hlp' by reflexivity.
  rewrite Hlp' in Hlp. injection Hlp as <- <-.
  injection Hadv as <-. injection HL as <-.
  apply list_elem_of_singleton in Hpool as ->.
  assert (getPodIPPoolPolicy peer1 (ToAgentFamily ipv4) poolA (poolAdvert (Some selectAll)) lpA
          = retD (Ok (Some (policyA peer1 (AddrV4 3221225985))))) as F1 by reflexivity.
  assert (getPodIPPoolPolicy peer1 (ToAgentFamily ipv6) poolA (poolAdvert (Some selectAll)) lpA
          = retD (Ok None)) as F2 by reflexivity.
  assert (getPodIPPoolPolicy peer2 (ToAgentFamily ipv4) poolA (poolAdvert (Some selectAll)) lpA
          = retD (Ok (Some (policyA peer2 (AddrV4 3221225986))))) as F3 by reflexivity.
  intros peer fam ads advert policy peer' fam' ads' advert' policy'
    (fams & Hp & Hf) Ha (fams' & Hp' & Hf') Ha' Hpol Hpol' Hname.
  unfold advertsTwo in Hp, Hp'.
  pick Hp; pick Hf; pick Ha; pick Hp'; pick Hf'; pick Ha'.
  all: first [rewrite F1 in Hpol|rewrite F2 in Hpol|rewrite F3 in Hpol]; try discriminate Hpol.
  all: first [rewrite F1 in Hpol'|rewrite F2 in Hpol'|rewrite F3 in Hpol']; try discriminate Hpol'.
  all: injection Hpol as <-; injection Hpol' as <-; try reflexivity.
  all: discriminate Hname.
Qed.

(** C4, as the code has it, on one pool and two peers: after the first call
    the second walks the peers and the families in the other order and the
    maps in the reverse order. *)
Lemma Reconcile_twice_witness :
  names_unique pA (w_r w_two) ∧
  same_entries advertsTwo advertsTwo' ∧
  ∃ w1 res w2,
    Reconcile pA w_two = Some (None, w1) ∧
    Reconcile (H:=reorder testEnv range_reversed range_reversed_perm) pA
      (with_peerAdvert (λ _ _, Ok advertsTwo') w1) = Some (res, w2) ∧
    w_routers w2 = w_routers w1 ∧ metadata (w_r w2) = metadata (w_r w1).
Proof.
  split; [exact names_unique_two|]. split; [exact same_entries_two|].
  assert (fst <$> Reconcile pA w_two = Some None) as Hret by reflexivity.
  destruct (run_returns _ _ _ Hret) as [w1 Hrun].
  destruct (Reconcile_twice testEnv range_reversed range_reversed_perm pA w_two w1
              (λ _ _, Ok advertsTwo') Hrun names_unique_two)
    as (res & w2 & Hrun2 & Hrouters & Hr).
  { intros adverts [= <-]. exists advertsTwo'. split; [done|exact same_entries_two]. }
  exists w1, res, w2. split_and!; [exact Hrun|exact Hrun2|exact Hrouters|exact Hr].
Defined.

(** C4 as stated fails in two ways.  When the first call does not
    succeed: with a router that refuses the calls for the second pool the
    first call makes three calls and returns the error, and the second call
    makes a fourth one, for the second pool again.  When two peers of one
    name and two addresses give the pool two policies of one name: the
    first call makes two calls and returns no error, and the second call,
    walking the two peers in the other order, makes a third one, for the
    policies of the pool. *)
Lemma second_call_makes_calls :
  (run_value None (Reconcile p3) w_reject
     = Some (joinError1 (errors_New "rejected by the router")) ∧
   length (calls_of (run_state (Reconcile p3) w_reject)) = 3 ∧
   (λ ca : RouterCall * option error, (call_key ca.1, ca.2))
     <$> drop 3 (calls_of (run_state (Reconcile p3) (run_state (Reconcile p3) w_reject)))
     = [(key2, Some (errors_New "rejected by the router"))]) ∧
  (run_value (Some ErrAbortReconcile) (Reconcile pA) w_clash = None ∧
   length (calls_of (run_state (Reconcile pA) w_clash)) = 2 ∧
   same_entries advertsClash (reverse advertsClash) ∧
   (λ ca : RouterCall * option error, (call_key ca.1, ca.2))
     <$> drop 2 (calls_of (run_state (Reconcile pA)
                   (with_peerAdvert (λ _ _, Ok (reverse advertsClash))
                      (run_state (Reconcile pA) w_clash))))
     = [(keyOf poolA, None)]).
Proof.
  split; split_and!; try reflexivity.
  intros peer fam ads. unfold entry_of. setoid_rewrite elem_of_reverse. done.
Qed.

(** C5 as stated fails: a pool of the store that no advertisement selects
    has an entry in both desired mappings, an empty one. *)
Lemma unmatched_pool_has_entry :
  getDesiredPoolAFPaths rA (params (node [("P", ["10.0.0.0/24"])])) advertsB lpA
    = Some (Ok (GoMap {[keyOf poolA := GoMap ∅]}), []) ∧
  getDesiredPodIPPoolRoutePolicies rA (params (node [("P", ["10.0.0.0/24"])])) advertsB lpA
    = Some (Ok (GoMap {[keyOf poolA := GoMap ∅]}), []) ∧
  go_lookup (GoMap {[keyOf poolA := (GoMap ∅ : AFPathsMap)]}) (keyOf poolA) ≠ None.
Proof. split_and!; [reflexivity..|]. unfold go_lookup. simpl. by rewrite lookup_singleton_eq. Qed.

(** C5, as the code has it, on that pool. *)
Lemma unmatched_pool_empty_entry_witness :
  (∃ m lg, getDesiredPoolAFPaths rA (params (node [])) advertsB lpA = Some (Ok m, lg) ∧
           go_lookup m (keyOf poolA) = Some (GoMap ∅)) ∧
  (∃ m lg, getDesiredPodIPPoolRoutePolicies rA (params (node [])) advertsB lpA
             = Some (Ok m, lg) ∧
           go_lookup m (keyOf poolA) = Some (GoMap ∅)).
Proof.
  destruct (unmatched_pool_empty_entry rA (params (node [])) advertsB lpA [poolA] poolA)
    as [Hpaths Hpolicies].
  - reflexivity.
  - apply list_elem_of_singleton. reflexivity.
  - apply NoDup_singleton.
  - intros peer fams fam ads advert sel Hp Hf Ha Hsel.
    apply list_elem_of_singleton in Hp. injection Hp as -> ->.
    apply list_elem_of_singleton in Hf. injection Hf as -> ->.
    apply list_elem_of_singleton in Ha. subst advert.
    injection Hsel as <-. reflexivity.
  - assert (returns_Ok (getDesiredPoolAFPaths rA (params (node [])) advertsB lpA) = true)
      as Hok1 by reflexivity.
    assert (returns_Ok (getDesiredPodIPPoolRoutePolicies rA (params (node [])) advertsB lpA)
            = true) as Hok2 by reflexivity.
    destruct (derivation_returns _ Hok1) as (m1 & lg1 & Hm1).
    destruct (derivation_returns _ Hok2) as (m2 & lg2 & Hm2).
    split; [exists m1, lg1|exists m2, lg2]; (split; [done|]).
    + by eapply Hpaths.
    + by eapply Hpolicies.
Defined.

(** C6 on a reconciler that retains a key whose pool is gone. *)
Lemma deleted_pool_mapped_to_nil_witness :
  (∃ m lg, getDesiredPoolAFPaths rGone p3 advertsAll lp3 = Some (Ok m, lg) ∧
           go_lookup m goneKey = Some GoNil) ∧
  (∃ m lg, getDesiredPodIPPoolRoutePolicies rGone p3 advertsAll lp3 = Some (Ok m, lg) ∧
           go_lookup m goneKey = Some GoNil).
Proof.
  destruct (deleted_pool_mapped_to_nil rGone p3 advertsAll lp3 instance0 goneKey)
    as [Hpaths Hpolicies].
  - reflexivity.
  - reflexivity.
  - intros pools pool [= <-] Hpool. apply list_elem_of_singleton in Hpool. by subst pool.
  - assert (returns_Ok (getDesiredPoolAFPaths rGone p3 advertsAll lp3) = true)
      as Hok1 by reflexivity.
    assert (returns_Ok (getDesiredPodIPPoolRoutePolicies rGone p3 advertsAll lp3) = true)
      as Hok2 by reflexivity.
    destruct (derivation_returns _ Hok1) as (m1 & lg1 & Hm1).
    destruct (derivation_returns _ Hok2) as (m2 & lg2 & Hm2).
    split; [exists m1, lg1|exists m2, lg2]; (split; [done|]).
    + eapply Hpaths; [by eexists|done].
    + eapply Hpolicies; [by eexists|done].
Defined.

(** C7 as stated fails for the selectors: an advertisement whose selector
    does not convert is not skipped, the paths of the pool are not computed
    although the next advertisement selects it. *)
Lemma selector_failure_not_skipped :
  getDesiredAFPaths poolA advertsBad lpA
    = Some (Err (Errorf_w "failed to convert label selector"
                   (errors_New "not a valid label selector operator")), []) ∧
  getDesiredAFPaths poolA advertsGood lpA
    = Some (Ok (GoMap {[ (mkFamily AfiIPv4 SafiUnicast, mkPrefix (AddrV4 167772160) 24)
                           := mkPath (mkPrefix (AddrV4 167772160) 24)
                                     (mkFamily AfiIPv4 SafiUnicast) ]}), []) ∧
  getDesiredAFPaths poolA advertsBad lpA ≠ getDesiredAFPaths poolA advertsGood lpA.
Proof.
  assert (getDesiredAFPaths poolA advertsBad lpA
          = Some (Err (Errorf_w "failed to convert label selector"
                         (errors_New "not a valid label selector operator")), [])) as Hbad
    by reflexivity.
  assert (getDesiredAFPaths poolA advertsGood lpA
          = Some (Ok (GoMap {[ (mkFamily AfiIPv4 SafiUnicast, mkPrefix (AddrV4 167772160) 24)
                                 := mkPath (mkPrefix (AddrV4 167772160) 24)
                                           (mkFamily AfiIPv4 SafiUnicast) ]}), [])) as Hgood
    by reflexivity.
  split_and!; [exact Hbad|exact Hgood|]. rewrite Hbad, Hgood. discriminate.
Qed.

(** C7, as the code has it, on a node with a CIDR that does not parse and on
    those advertisements. *)
Lemma single_item_failures_witness :
  (∃ lp, populateLocalPools (Some (node [("P", ["10.0.0.0/24"; "bogus"; "10.0.1.0/24"])]))
           = Some (GoMap lp, [LogInvalidCIDR (errors_New "no '/'") "bogus"]) ∧
         lp !! "P" = Some [mkPrefix (AddrV4 167772160) 24; mkPrefix (AddrV4 167772416) 24]) ∧
  ∃ e lg, getDesiredAFPaths poolA advertsBad lpA = Some (Err e, lg).
Proof.
  destruct single_item_failures as (Hpools & _ & _ & _ & Hsel).
  split.
  - destruct (Hpools (node [("P", ["10.0.0.0/24"; "bogus"; "10.0.1.0/24"])]))
      as (lp & Heq & _ & Hsome).
    exists lp. split; [exact Heq|].
    apply (Hsome (NoDup_singleton _)
                 {| alloc_Pool := "P"; alloc_CIDRs := ["10.0.0.0/24"; "bogus"; "10.0.1.0/24"] |}).
    by left.
  - apply (Hsel poolA lpA advertsBad peer1 [(ipv4, [poolAdvert (Some badSelector);
                                                     poolAdvert (Some selectAll)])]
             ipv4 [poolAdvert (Some badSelector); poolAdvert (Some selectAll)]
             (poolAdvert (Some badSelector))
             (errors_New "not a valid label selector operator")).
    + by left.
    + by left.
    + by left.
    + reflexivity.
    + reflexivity.
Defined.

(** C9 on a peer without an address and on a peer whose address does not
    parse. *)
Lemma getPodIPPoolPolicy_peer_address_witness :
  getPodIPPoolPolicy peerNone (mkFamily AfiIPv4 SafiUnicast) poolA
    (poolAdvert (Some selectAll)) lpA = retD (Ok None) ∧
  getPodIPPoolPolicy peerBad (mkFamily AfiIPv4 SafiUnicast) poolA
    (poolAdvert (Some selectAll)) lpA
    = retD (Err (Errorf_w "failed to parse peer address" (errors_New "unable to parse IP"))).
Proof.
  destruct (getPodIPPoolPolicy_peer_address p3 lpA) as (Hnone & _ & Hbad & _).
  split.
  - apply Hnone. reflexivity.
  - apply Hbad; [discriminate|reflexivity].
Defined.

(** C2. The store is not initialised: [Reconcile] returns the error of the
    store as it is, from the route-policy pass, and this error does not
    satisfy the abort-sentinel check; no call is made to the router.  The
    path derivation, on the same input, does join the sentinel to the
    error. *)
Lemma uninitialized_store_not_aborted :
  run_value None (Reconcile p3) w_uninitialized = Some ErrStoreUninitialized ∧
  errors_Is ErrStoreUninitialized ErrAbortReconcile = false ∧
  calls_of (run_state (Reconcile p3) w_uninitialized) = [] ∧
  getDesiredPodIPPoolRoutePolicies (w_r w_uninitialized) p3 advertsAll lp3
    = Some (Err ErrStoreUninitialized, []) ∧
  getDesiredPoolAFPaths (w_r w_uninitialized) p3 advertsAll lp3
    = Some (Err (joinError2 ErrStoreUninitialized ErrAbortReconcile), []) ∧
  errors_Is (joinError2 ErrStoreUninitialized ErrAbortReconcile) ErrAbortReconcile = true.
Proof. split_and!; reflexivity. Qed.

(** ** The further properties on concrete inputs *)

(** A reconciler that knows no instance is the same after [Init] and
    [Cleanup] of one. *)
Lemma Init_Cleanup_witness :
  Cleanup (Init (newReconciler (fakeStore None) []) (Some instance0)).2 (Some instance0)
  = newReconciler (fakeStore None) [].
Proof. apply Init_Cleanup. reflexivity. Defined.

(** A pool that the node has not allocated is not advertised, whatever
    selects it. *)
Lemma not_allocated_not_advertised_witness :
  ∃ m lg, getDesiredAFPaths (pool "Q" []) advertsAll lpA = Some (Ok m, lg) ∧ m = GoMap ∅.
Proof.
  destruct (not_allocated_not_advertised (pool "Q" []) lpA) as (Hpaths & _); [reflexivity|].
  assert (returns_Ok (getDesiredAFPaths (pool "Q" []) advertsAll lpA) = true) as Hok
    by reflexivity.
  destruct (derivation_returns _ Hok) as (m & lg & Hm).
  exists m, lg. split; [exact Hm|]. by eapply Hpaths.
Defined.

(** The path of the one pool, for its one prefix, under IPv4 unicast. *)
Lemma getDesiredAFPaths_paths_witness :
  ∃ m lg,
    getDesiredAFPaths poolA advertsGood lpA = Some (Ok m, lg) ∧
    go_lookup m (mkFamily AfiIPv4 SafiUnicast, mkPrefix (AddrV4 167772160) 24)
    = Some (mkPath (mkPrefix (AddrV4 167772160) 24) (mkFamily AfiIPv4 SafiUnicast)) ∧
    go_lookup m (mkFamily AfiIPv6 SafiUnicast, mkPrefix (AddrV4 167772160) 24) = None.
Proof.
  assert (returns_Ok (getDesiredAFPaths poolA advertsGood lpA) = true) as Hok by reflexivity.
  destruct (derivation_returns _ Hok) as (m & lg & Hm).
  destruct (getDesiredAFPaths_paths poolA advertsGood lpA m lg Hm) as [_ Hpaths].
  exists m, lg. split_and!; [exact Hm| |].
  - apply Hpaths. split_and!; [reflexivity|by left|left; by split|].
    exists peer1, [(ipv4, [poolAdvert (Some selectAll)])], ipv4,
      [poolAdvert (Some selectAll)], (poolAdvert (Some selectAll)).
    eexists. split_and!; [by left|by left|by left|reflexivity|reflexivity|reflexivity|reflexivity].
  - destruct (go_lookup m _) as [path|] eqn:Hpath; [|done].
    apply Hpaths in Hpath as (_ & _ & [[[=] _]|[_ [=]]] & _).
Defined.

(** Two peers, in either order: the same paths. *)
Lemma getDesiredAFPaths_order_witness :
  ∃ m lg1 lg2,
    getDesiredAFPaths poolA
      [(peer1, [(ipv4, [poolAdvert (Some selectAll)])]);
       (peerBad, [(ipv4, [poolAdvert (Some (selectTeam "a"))])])] lpA = Some (Ok m, lg1) ∧
    getDesiredAFPaths poolA
      [(peerBad, [(ipv4, [poolAdvert (Some (selectTeam "a"))])]);
       (peer1, [(ipv4, [poolAdvert (Some selectAll)])])] lpA = Some (Ok m, lg2).
Proof.
  destruct (getDesiredAFPaths_order poolA
              [(peer1, [(ipv4, [poolAdvert (Some selectAll)])]);
               (peerBad, [(ipv4, [poolAdvert (Some (selectTeam "a"))])])]
              [(peerBad, [(ipv4, [poolAdvert (Some (selectTeam "a"))])]);
               (peer1, [(ipv4, [poolAdvert (Some selectAll)])])] lpA)
    as [Hok Hsame]; [apply perm_swap|].
  destruct (proj1 Hok) as (m2 & lg2 & Hm2).
  { apply derivation_returns. reflexivity. }
  destruct (proj2 Hok (ex_intro _ m2 (ex_intro _ lg2 Hm2))) as (m1 & lg1 & Hm1).
  rewrite <- (Hsame m1 lg1 m2 lg2 Hm1 Hm2) in Hm2.
  exists m1, lg1, lg2. split; [exact Hm1|exact Hm2].
Defined.

(** The policy of the end-to-end scenario: one prefix match, with the mask
    size of the pool as both bounds. *)
Lemma getPodIPPoolPolicy_policy_witness :
  getPodIPPoolPolicy peer1 (mkFamily AfiIPv4 SafiUnicast) poolA (poolAdvert (Some selectAll)) lpA
  = retD (Ok (Some {| rp_Name := "peer1-ipv4-CiliumPodIPPool-P";
                      rp_Peer := AddrV4 3221225985;
                      rp_PrefixMatches :=
                        [{| pm_CIDR := mkPrefix (AddrV4 167772160) 24;
                            pm_PrefixLenMin := 24; pm_PrefixLenMax := 24 |}];
                      rp_AdvertType := "CiliumPodIPPool" |})).
Proof.
  destruct (getPodIPPoolPolicy_policy peer1 (mkFamily AfiIPv4 SafiUnicast) poolA
              (poolAdvert (Some selectAll)) lpA (AddrV4 3221225985)
              (λ _, true) [mkPrefix (AddrV4 167772160) 24])
    as (Hv4 & _ & _); [done|reflexivity|reflexivity|reflexivity|reflexivity|].
  exact (Hv4 24%N eq_refl eq_refl).
Defined.

(** The policies of that pool: one, under its name, and no log line. *)
Lemma getPodIPPoolPolicies_names_witness :
  ∃ m lg,
    getPodIPPoolPolicies p3 poolA advertsGood lpA = Some (Ok m, lg) ∧ lg = [] ∧
    ∀ name policy, go_lookup m name = Some policy → rp_Name policy = name.
Proof.
  assert (returns_Ok (getPodIPPoolPolicies p3 poolA advertsGood lpA) = true) as Hok
    by reflexivity.
  destruct (derivation_returns _ Hok) as (m & lg & Hm).
  destruct (getPodIPPoolPolicies_names p3 poolA advertsGood lpA m lg Hm)
    as (_ & Hlg & Hnames & _).
  exists m, lg. split_and!; [exact Hm|exact Hlg|].
  intros name policy Hlook. by destruct (Hnames name policy Hlook).
Defined.

(** The desired paths of a reconciler that retains a key whose pool is gone:
    the key is mapped to nil, a key that is neither retained nor listed has
    no entry. *)
Lemma desired_mapping_keys_witness :
  ∃ m lg,
    getDesiredPoolAFPaths rGone p3 advertsAll lp3 = Some (Ok m, lg) ∧
    go_lookup m goneKey = Some GoNil ∧
    go_lookup m (mkKey "other" "") = None.
Proof.
  destruct (desired_mapping_keys rGone p3 advertsAll lp3 instance0 eq_refl) as [Hpaths _].
  assert (returns_Ok (getDesiredPoolAFPaths rGone p3 advertsAll lp3) = true) as Hok
    by reflexivity.
  destruct (derivation_returns _ Hok) as (m & lg & Hm).
  destruct (Hpaths m lg Hm) as (pools & [= <-] & _ & Hkeys).
  exists m, lg. split_and!; [exact Hm| |].
  - apply (Hkeys goneKey). split_and!; [|by eexists|reflexivity].
    intros Hin. apply list_elem_of_singleton in Hin. discriminate.
  - apply (Hkeys (mkKey "other" "")). split.
    + intros Hin. apply list_elem_of_singleton in Hin. discriminate.
    + intros [[x Hx] _]. discriminate.
Defined.

(** The error of the path derivation over a store that is not initialised
    carries the abort sentinel. *)
Lemma getDesiredPoolAFPaths_errors_witness :
  ∃ e' lg,
    getDesiredPoolAFPaths (w_r w_uninitialized) p3 advertsAll lp3 = Some (Err e', lg) ∧
    errors_Is e' ErrStoreUninitialized = true ∧
    errors_Is e' ErrAbortReconcile = true.
Proof.
  assert (getDesiredPoolAFPaths (w_r w_uninitialized) p3 advertsAll lp3
          = Some (Err (joinError2 ErrStoreUninitialized ErrAbortReconcile), [])) as Herr
    by reflexivity.
  destruct (getDesiredPoolAFPaths_errors (w_r w_uninitialized) p3 advertsAll lp3 instance0
              _ _ eq_refl Herr)
    as [(e & Hstore & He' & His & Habort)|(pools & pool & lg' & [=] & _)].
  assert (e = ErrStoreUninitialized) as ->.
  { destruct Hstore as [[= <-]|(k & _ & [= <-])]; reflexivity. }
  eexists _, _. split_and!; [exact Herr|exact His|by apply Habort].
Defined.

(** A call for [instance0] leaves the store, the advertisement lookup and
    another instance alone. *)
Lemma Reconcile_frame_witness :
  ∃ w',
    Reconcile p3 w_accept = Some (None, w') ∧
    poolStore (w_r w') = poolStore (w_r w_accept) ∧
    metadata (w_r w') !! "instance-65002" = metadata (w_r w_accept) !! "instance-65002" ∧
    w_routers w' "instance-65002" = w_routers w_accept "instance-65002".
Proof.
  assert (fst <$> Reconcile p3 w_accept = Some None) as Hret by reflexivity.
  destruct (run_returns _ _ _ Hret) as [w' Hrun].
  destruct (Reconcile_frame p3 w_accept w' None Hrun) as (Hstore & _ & _ & Hother).
  destruct (Hother "instance-65002") as [Hmd Hrt].
  { intros i [= <-]. discriminate. }
  exists w'. split_and!; [exact Hrun|exact Hstore|exact Hmd|exact Hrt].
Defined.

(** After a call without error the retained route policies of the three
    pools have the content of the desired ones. *)
Lemma Reconcile_converges_policies_witness :
  ∃ w' Des lg,
    Reconcile p3 w_accept = Some (None, w') ∧
    getDesiredPodIPPoolRoutePolicies (w_r w_accept) p3 advertsAll lp3 = Some (Ok Des, lg) ∧
    ∀ k d, go_lookup Des k = Some d → content d ≠ ∅ →
      ∃ c, go_lookup (PoolRoutePolicies (getMetadata (w_r w') instance0)) k = Some c ∧
           content c = content d.
Proof.
  assert (fst <$> Reconcile p3 w_accept = Some None) as Hret by reflexivity.
  destruct (run_returns _ _ _ Hret) as [w' Hrun].
  assert (returns_Ok (getDesiredPodIPPoolRoutePolicies (w_r w_accept) p3 advertsAll lp3)
          = true) as Hok by reflexivity.
  destruct (derivation_returns _ Hok) as (Des & lg & HD).
  assert (populateLocalPools (p_CiliumNode p3) = Some (lp3, [])) as Hlp by reflexivity.
  destruct (Reconcile_converges_policies p3 w_accept w' instance0 lp3 [] advertsAll Des lg
              Hrun eq_refl Hlp eq_refl HD) as (_ & Hconv & _).
  exists w', Des, lg. split_and!; [exact Hrun|exact HD|exact Hconv].
Defined.

(** After a call without error every retained set of route policies is that
    of one of the three pools, and none is empty. *)
Lemma no_policies_linger_witness :
  ∃ w',
    Reconcile p3 w_accept = Some (None, w') ∧
    ∀ k c, go_lookup (PoolRoutePolicies (getMetadata (w_r w') instance0)) k = Some c →
      k ∈ keyOf <$> pools3 ∧ content c ≠ ∅.
Proof.
  assert (fst <$> Reconcile p3 w_accept = Some None) as Hret by reflexivity.
  destruct (run_returns _ _ _ Hret) as [w' Hrun].
  exists w'. split; [exact Hrun|].
  apply (no_policies_linger p3 w_accept w' instance0 pools3 Hrun eq_refl eq_refl).
  intros k pool Hget.
  assert (find (λ pool, bool_decide (mkKey (pool_Name pool) (pool_Namespace pool) = k)) pools3
          = Some pool) as Hfind by (by injection Hget).
  apply find_some in Hfind as [Hin Hkey].
  apply bool_decide_eq_true in Hkey as <-.
  apply list_elem_of_fmap. exists pool. split; [done|]. by apply list_elem_of_In.
Defined.

(** Two pools with the same labels and different names have different
    label sets. *)
Lemma podIPPoolLabelSet_identity_witness :
  podIPPoolLabelSet (pool "k1" [("team", "a")]) ≠ podIPPoolLabelSet (pool "k2" [("team", "a")]).
Proof. apply podIPPoolLabelSet_identity. discriminate. Defined.

(** A reconciler as [NewPodIPPoolReconciler] makes it, without [Init]: the
    call panics. *)
Lemma Reconcile_needs_Init_witness :
  Reconcile p3 {| w_r := newReconciler (fakeStore (Some pools3)) advertsAll;
                  w_routers := λ _, acceptAll;
                  w_log := [] |} = None.
Proof.
  pose (policies := λ (name : string) (a : N),
          (GoMap (<["peer1-ipv4-CiliumPodIPPool-" +:+ name :=
                     {| rp_Name := "peer1-ipv4-CiliumPodIPPool-" +:+ name;
                        rp_Peer := AddrV4 3221225985;
                        rp_PrefixMatches :=
                          [{| pm_CIDR := mkPrefix (AddrV4 a) 24;
                              pm_PrefixLenMin := 24; pm_PrefixLenMax := 24 |}];
                        rp_AdvertType := "CiliumPodIPPool" |}]> ∅) : RoutePolicyMap)).
  assert (getDesiredPodIPPoolRoutePolicies
            (newReconciler (fakeStore (Some pools3)) advertsAll) p3 advertsAll lp3
          = Some (Ok (GoMap (<[mkKey "k3" "" := policies "k3" 167772672%N]>
                              (<[mkKey "k2" "" := policies "k2" 167772416%N]>
                                 (<[mkKey "k1" "" := policies "k1" 167772160%N]> ∅)))), []))
    as HD by reflexivity.
  eapply (Reconcile_needs_Init p3 _ instance0 lp3 [] advertsAll _ _
            (mkKey "k3" "") (policies "k3" 167772672%N));
    [reflexivity|reflexivity|reflexivity|reflexivity|reflexivity|exact HD| |].
  - apply lookup_insert_eq.
  - apply insert_non_empty.
Defined.
